(** * snmalloc: the per-thread allocator of [src/mem/alloc.h]

    A shallow embedding of the [Allocator] class, of its pagemap adaptor
    [SuperslabMap] and of its outgoing [RemoteCache], followed by the
    properties the specification states about them.

    Configuration embedded: the allocator proper (not the [USE_MALLOC]
    pass-through), release build ([assert] compiles away; the constructor's
    debug loop is embedded on its own as [constructor_sizeclass_check]),
    statistics and time measurement left out.  [SNMALLOC_SAFE_CLIENT] is a
    configuration field because the code branches on it.

    Addresses, [size_t] and [uintptr_t] values are [Z] with the 64-bit
    wrap-around written out ([wrap]); [uint8_t] values are [Z] reduced by
    [u8].  The null pointer is [0].

    The headers [alloc.h] includes are not at hand.  Their constants are the
    fields of [Config]; the slab code is the interface [SlabEngine]; the
    pagemap, the large allocator, the memory provider, the lists and the
    size-class functions follow the specification, each under a comment
    that says so.

    Layout: the model; the statements of the specification that are
    compared with it, in its words; concrete instances; the properties,
    by component; the properties on concrete states; further properties
    of the allocator (the order of remote frees, the life of large objects,
    the release and reuse of slabs, invariants), with theirs. *)

From Stdlib Require Import ZArith Lia String List Sorted.
From stdpp Require Import base option list gmap fin_maps.
Import ListNotations.
Local Open Scope Z_scope.

(** ** Machine integers *)

Definition wrap (z : Z) : Z := z mod 2 ^ 64.

Definition u8 (z : Z) : Z := z mod 2 ^ 8.

(** [(void* )-1], the all-ones pointer. *)
Definition MAX_PTR : Z := 2 ^ 64 - 1.

(** Modelled from the spec: [bits::next_pow2_bits] of the absent [ds/bits.h];
    the spec writes it [k = ⌈log₂ size⌉]. *)
Definition next_pow2_bits (x : Z) : Z := Z.log2_up x.

(** Modelled from the spec: [bits::next_pow2] of the absent [ds/bits.h], the
    power of two with that exponent. *)
Definition next_pow2 (x : Z) : Z := wrap (1 ≪ next_pow2_bits x).

(** Pointer alignment, as [Superslab::get], [Slab::get] and [Mediumslab::get]
    do it ("pointer alignment, not a lookup"). *)
Definition align_down (p bits : Z) : Z := (p ≫ bits) ≪ bits.

(** ** Enumerations of [alloc.h] and of the headers it includes *)

Inductive Boundary := Start | End_.

Definition PMNotOurs : Z := 0.
Definition PMSuperslab : Z := 1.
Definition PMMediumslab : Z := 2.

Inductive ZeroMem := NoZero | YesZero.

Inductive AllowReserve := NoReserve | YesReserve.

Inductive DecommitStrategy := DecommitNone | DecommitSuper | DecommitAll.

(** [Superslab::Status] and [Superslab::Action], as [small_dealloc] and
    [reposition_superslab] switch on them.  [alloc.h] names the actions
    [NoSlabReturn] and [NoStatusChange]; the one it reaches by elimination
    reports a change of status. *)
Inductive Status := Full | Available | OnlyShortSlabAvailable | Empty.

Inductive Action := NoSlabReturn | NoStatusChange | StatusChange.

Definition AllowReserve_eqb (a b : AllowReserve) : bool :=
  match a, b with
  | NoReserve, NoReserve | YesReserve, YesReserve => true
  | _, _ => false
  end.

Definition DecommitStrategy_eqb (a b : DecommitStrategy) : bool :=
  match a, b with
  | DecommitNone, DecommitNone | DecommitSuper, DecommitSuper
  | DecommitAll, DecommitAll => true
  | _, _ => false
  end.

(** ** Build-time configuration

    The constants come from headers that are not part of the sources at
    hand; they are the fields of a class, so that every statement below
    holds for each configuration that meets its stated side conditions. *)

Class Config := {
  SUPERSLAB_BITS : Z;
  SLAB_BITS : Z;
  OS_PAGE_SIZE : Z;
  (** the size-class table: the byte size of each class, by class index *)
  sizeclass_table : list Z;
  NUM_SMALL_CLASSES : Z;
  REMOTE_SLOT_BITS : Z;
  REMOTE_CACHE : Z;
  REMOTE_BATCH : Z;
  decommit_strategy : DecommitStrategy;
  (** whether the macro [SNMALLOC_SAFE_CLIENT] is defined *)
  SNMALLOC_SAFE_CLIENT : bool
}.

(** ** The memory provider and the large allocator *)

(** Modelled from the spec: the memory provider ([reserve] yields an aligned
    pointer or null, [notify_not_using] is a hint).  The addresses the
    operating system will hand out are listed in advance; when the list is
    exhausted [reserve] yields null.  Calls are counted and hints logged. *)
Record MemoryProvider := {
  mp_fresh : list Z;
  mp_reserve_calls : nat;
  mp_not_using : list (Z * Z)
}.

Definition reserve (mp : MemoryProvider) : Z * MemoryProvider :=
  match mp_fresh mp with
  | [] =>
      (0, {| mp_fresh := []; mp_reserve_calls := S (mp_reserve_calls mp);
             mp_not_using := mp_not_using mp |})
  | p :: rest =>
      (p, {| mp_fresh := rest; mp_reserve_calls := S (mp_reserve_calls mp);
             mp_not_using := mp_not_using mp |})
  end.

Definition notify_not_using (p size : Z) (mp : MemoryProvider) : MemoryProvider :=
  {| mp_fresh := mp_fresh mp; mp_reserve_calls := mp_reserve_calls mp;
     mp_not_using := mp_not_using mp ++ [(p, size)] |}.

(** Modelled from the spec: [LargeAlloc] of the absent [largealloc.h], a free
    list per large class over the memory provider. *)
Record LargeAlloc := {
  memory_provider : MemoryProvider;
  large_stack : gmap Z (list Z)
}.

(** Modelled from the spec: [LargeAlloc::alloc] "pops from class [c] if
    non-empty, else requests fresh memory from the memory provider"; with
    [NoReserve] and an empty class list it "returns null without contacting
    the memory provider". *)
Definition LargeAlloc_alloc (allow_reserve : AllowReserve) (large_class size : Z)
    (la : LargeAlloc) : Z * LargeAlloc :=
  match default [] (large_stack la !! large_class) with
  | p :: rest =>
      (p, {| memory_provider := memory_provider la;
             large_stack := <[large_class := rest]> (large_stack la) |})
  | [] =>
      match allow_reserve with
      | NoReserve => (0, la)
      | YesReserve =>
          let '(p, mp) := reserve (memory_provider la) in
          (p, {| memory_provider := mp; large_stack := large_stack la |})
      end
  end.

(** Modelled from the spec: [LargeAlloc::dealloc] "pushes back onto class [c]". *)
Definition LargeAlloc_dealloc (p large_class : Z) (la : LargeAlloc) : LargeAlloc :=
  {| memory_provider := memory_provider la;
     large_stack :=
       <[large_class := p :: default [] (large_stack la !! large_class)]>
         (large_stack la) |}.

(** ** Remote objects *)

(** Modelled from the spec: the header [{next, target_id, sizeclass}] that
    [remoteallocator.h] overlays on a freed object.  [r_addr] is the address
    of the object; the [next] links of a chain are the order of a list. *)
Record Remote := {
  r_addr : Z;
  r_target_id : Z;
  r_sizeclass : Z
}.

(** [RemoteList]: the chain from [head.non_atomic_next] to [last].  The list
    is [empty()] when [last == &head], that is when the chain has no node. *)
Abbreviation RemoteList := (list Remote).

Record RemoteCache := {
  rc_size : Z;
  rc_list : list RemoteList
}.

(** ** Outcomes of a call *)

Inductive outcome (A : Type) : Type :=
  | Ret (a : A)              (* the call returns *)
  | Abort (msg : string)     (* [error(msg)]: the process is terminated *)
  | NullDeref                (* a member is reached through the null pointer *)
  | OutOfFuel.               (* a loop did not exit within the steps allowed *)

Arguments Ret {A} a.
Arguments Abort {A} msg.
Arguments NullDeref {A}.
Arguments OutOfFuel {A}.

(** A call on a state [S]: it returns a value and the next state, or stops. *)
Definition M (S A : Type) : Type := S → outcome (A * S).

Definition ret {S A : Type} (a : A) : M S A := fun st => Ret (a, st).

Definition bind {S A B : Type} (m : M S A) (k : A → M S B) : M S B :=
  fun st =>
    match m st with
    | Ret (a, st') => k a st'
    | Abort msg => Abort msg
    | NullDeref => NullDeref
    | OutOfFuel => OutOfFuel
    end.

Definition gets {S A : Type} (f : S → A) : M S A := fun st => Ret (f st, st).

Definition modify {S : Type} (f : S → S) : M S unit := fun st => Ret (tt, f st).

(** [error(msg)] of the absent [ds/defines.h]: "all fatal errors terminate
    the process". *)
Definition error {S A : Type} (msg : string) : M S A := fun _ => Abort msg.

(** A member call or field access through [p]. *)
Definition deref {S : Type} (p : Z) : M S unit :=
  fun st => if p =? 0 then NullDeref else Ret (tt, st).

Notation "'let*' x ':=' m 'in' k" := (bind m (fun x => k))
  (at level 10, x name, m at level 100, k at level 200).

Notation "m ';;' k" := (bind m (fun _ => k))
  (at level 100, right associativity).

(** Modelled from the spec: the intrusive list [DLList] of the absent
    [ds/dllist.h], by the addresses it links; [get_head] and [pop] yield null
    on an empty list. *)
Definition DLList_get_head (l : list Z) : Z := hd 0 l.

Definition DLList_insert (x : Z) (l : list Z) : list Z := x :: l.

Definition DLList_remove (x : Z) (l : list Z) : list Z :=
  List.filter (fun y => negb (y =? x)) l.

Definition DLList_pop (l : list Z) : Z * list Z := (hd 0 l, tl l).

(** ** The slab engines

    [superslab.h], [slab.h], [mediumslab.h] and [remoteallocator.h] are not
    among the sources.  What [alloc.h] calls in them is an interface over an
    abstract store [Heap] of slab headers; the slab code also receives the
    size class's [SlabList] and the memory provider and may update them. *)
Class SlabEngine (Heap : Type) := {
  (* Allocslab::get_allocator, the owner recorded in a slab header *)
  get_allocator : Heap → Z → Z;
  (* RemoteAllocator::id *)
  RemoteAllocator_id : Z → Z;
  (* super->get_meta(slab)->sizeclass *)
  meta_sizeclass : Heap → Z → Z → Z;
  Superslab_is_full : Heap → Z → bool;
  Superslab_get_status : Heap → Z → Status;
  Superslab_is_short_sizeclass : Z → bool;
  Superslab_init : Z → Z → Heap → MemoryProvider → Heap * MemoryProvider;
  Superslab_alloc_short_slab :
    Z → Z → Heap → MemoryProvider → Z * Heap * MemoryProvider;
  Superslab_alloc_slab :
    Z → Z → Heap → MemoryProvider → Z * Heap * MemoryProvider;
  Slab_alloc :
    ZeroMem → Z → Z → list Z → Heap → MemoryProvider →
    Z * list Z * Heap * MemoryProvider;
  Slab_dealloc :
    Z → Z → Z → list Z → Heap → MemoryProvider →
    Action * list Z * Heap * MemoryProvider;
  Mediumslab_get_sizeclass : Heap → Z → Z;
  Mediumslab_init : Z → Z → Z → Z → Heap → Heap;
  Mediumslab_alloc :
    ZeroMem → Z → Z → Heap → MemoryProvider → Z * Heap * MemoryProvider;
  Mediumslab_full : Heap → Z → bool;
  Mediumslab_empty : Heap → Z → bool;
  Mediumslab_dealloc :
    Z → Z → Heap → MemoryProvider → bool * Heap * MemoryProvider;
  Largeslab_init : Z → Heap → Heap
}.

Section Model.

Context {cfg : Config} {Heap : Type} {eng : SlabEngine Heap}.

Definition SUPERSLAB_SIZE : Z := 1 ≪ SUPERSLAB_BITS.

Definition SLAB_SIZE : Z := 1 ≪ SLAB_BITS.

Definition NUM_SIZECLASSES : Z := Z.of_nat (length sizeclass_table).

(** The spec's table of flags: [REMOTE_SLOTS = 1 << REMOTE_SLOT_BITS]; the
    mask selects a slot. *)
Definition REMOTE_SLOTS : Z := 1 ≪ REMOTE_SLOT_BITS.

Definition REMOTE_MASK : Z := REMOTE_SLOTS - 1.

Definition Superslab_get (p : Z) : Z := align_down p SUPERSLAB_BITS.

Definition Mediumslab_get (p : Z) : Z := align_down p SUPERSLAB_BITS.

Definition Slab_get (p : Z) : Z := align_down p SLAB_BITS.

(** ** Size classes ([sizeclass.h] and [sizeclasstable.h] are absent) *)

(** Modelled from the spec: [sizeclass_to_size], the "representative byte
    size" of a class, read in the "fixed, precomputed table". *)
Definition sizeclass_to_size (sc : Z) : Z :=
  default 0 (sizeclass_table !! Z.to_nat sc).

Fixpoint sizeclass_scan (n : Z) (table : list Z) (sc : Z) : Z :=
  match table with
  | [] => sc
  | sz :: rest => if n <=? sz then sc else sizeclass_scan n rest (sc + 1)
  end.

(** Modelled from the spec: [size_to_sizeclass], the runtime form.  The class
    returned is the first whose size is at least [n] ("equals the minimum
    such class size"), or [NUM_SIZECLASSES], the "sentinel above" the
    classes that means large. *)
Definition size_to_sizeclass (n : Z) : Z :=
  u8 (sizeclass_scan n sizeclass_table 0).

(** Modelled from the spec: [size_to_sizeclass_const], the constant-evaluable
    form of the same map, written without a scan: the number of classes too
    small for [n]. *)
Definition size_to_sizeclass_const (n : Z) : Z :=
  u8 (Z.of_nat (length (List.filter (fun sz => sz <? n) sizeclass_table))).

(** Modelled from the spec: [maxsize], the size of the largest class. *)
Definition maxsize : Z := List.last sizeclass_table 0.

(** Modelled from the spec: [round_by_sizeclass] "computes the greatest
    multiple of [rsize] ≤ [offset]". *)
Definition round_by_sizeclass (rsize offset : Z) : Z := offset / rsize * rsize.

(** Modelled from the spec: [is_multiple_of_sizeclass], the "modular-arithmetic
    check" of the medium path. *)
Definition is_multiple_of_sizeclass (rsize offset : Z) : bool :=
  offset mod rsize =? 0.

(** Modelled from the spec: [bits::is_aligned_block<alignment>(p, size)] of
    the absent [ds/bits.h].  Medium objects are "equal page-aligned cells",
    and the comment at the one call in [alloc.h] reads "All medium size
    classes are page aligned": the block of [size] bytes at [p] starts and
    ends on a multiple of [alignment]. *)
Definition is_aligned_block (alignment p size : Z) : bool :=
  (p mod alignment =? 0) && (size mod alignment =? 0).

(** The loop of the constructor that runs when [NDEBUG] is not defined; the
    result is whether its five assertions hold for every class.  The first
    is made for the classes [i > NUM_SMALL_CLASSES] only, as in the code. *)
Definition constructor_sizeclass_check : bool :=
  forallb
    (fun i =>
       let size := sizeclass_to_size i in
       let sc1 := size_to_sizeclass size in
       let sc2 := size_to_sizeclass_const size in
       let size1 := sizeclass_to_size sc1 in
       let size2 := sizeclass_to_size sc2 in
       (if i >? NUM_SMALL_CLASSES then is_aligned_block OS_PAGE_SIZE 0 size1
        else true)
       && (sc1 =? i) && (sc1 =? sc2) && (size1 =? size) && (size1 =? size2))
    (map Z.of_nat (seq 0 (length sizeclass_table))).

(** ** The pagemap ([pagemap.h] is absent) *)

(** Modelled from the spec: the pagemap, "a global, flat or multi-level array
    indexed by [address >> SUPERSLAB_BITS], each entry one byte", which
    tolerates queries for addresses nobody allocated "(returning [0])". *)
Definition Pagemap_index (p : Z) : Z := p ≫ SUPERSLAB_BITS.

Definition Pagemap_get (pm : gmap Z Z) (p : Z) : Z :=
  default 0 (pm !! Pagemap_index p).

Definition Pagemap_set (p x : Z) (pm : gmap Z Z) : gmap Z Z :=
  <[Pagemap_index p := x]> pm.

Fixpoint Pagemap_fill (n : nat) (index x : Z) (pm : gmap Z Z) : gmap Z Z :=
  match n with
  | O => pm
  | S n' => Pagemap_fill n' (index + 1) x (<[index := x]> pm)
  end.

(** Modelled from the spec: [set_range(addr, u8, count)] writes [count]
    consecutive entries from the index of [addr]. *)
Definition Pagemap_set_range (p x count : Z) (pm : gmap Z Z) : gmap Z Z :=
  Pagemap_fill (Z.to_nat count) (Pagemap_index p) x pm.

(** ** [SuperslabMap] *)

Definition set_slab_super (slab : Z) (pm : gmap Z Z) : gmap Z Z :=
  Pagemap_set slab PMSuperslab pm.

Definition set_slab_medium (slab : Z) (pm : gmap Z Z) : gmap Z Z :=
  Pagemap_set slab PMMediumslab pm.

Definition clear_slab (slab : Z) (pm : gmap Z Z) : gmap Z Z :=
  Pagemap_set slab PMNotOurs pm.

(** The [for] loop of [set_large_size]: [n] iterations are left, [i] is the
    loop counter and [ss] the running address. *)
Fixpoint redirect_slide (n : nat) (i ss : Z) (pm : gmap Z Z) : gmap Z Z :=
  match n with
  | O => pm
  | S n' =>
      let run := wrap (1 ≪ i) in
      redirect_slide n' (i + 1)
        (wrap (ss + SUPERSLAB_SIZE * run))
        (Pagemap_set_range ss (u8 (64 + i + SUPERSLAB_BITS)) run pm)
  end.

Definition set_large_size (p size : Z) (pm : gmap Z Z) : gmap Z Z :=
  let size_bits := next_pow2_bits size in
  let pm := Pagemap_set p (u8 size_bits) pm in
  let ss := wrap (p + SUPERSLAB_SIZE) in
  let pm :=
    redirect_slide (Z.to_nat (wrap (size_bits - SUPERSLAB_BITS))) 0 ss pm in
  Pagemap_set p (u8 size_bits) pm.

Definition clear_large_size (p size : Z) (pm : gmap Z Z) : gmap Z Z :=
  let rounded_size := next_pow2 size in
  let count := rounded_size ≫ SUPERSLAB_BITS in
  Pagemap_set_range p PMNotOurs count pm.

(** ** [Allocator::external_pointer] *)

(** The three-argument overload, for small and medium objects. *)
Definition external_pointer_in (location : Boundary) (p sizeclass end_point : Z) : Z :=
  let rsize := sizeclass_to_size sizeclass in
  let end_point_correction :=
    match location with
    | End_ => end_point
    | Start => wrap (wrap (end_point - rsize) + 1)
    end in
  let offset_from_end := wrap (end_point - p) in
  let end_to_end := round_by_sizeclass rsize offset_from_end in
  wrap (end_point_correction - end_to_end).

(** The loop [while (size > 64)] that follows the redirects of a large
    allocation.  Nothing in the code bounds it, so it runs on fuel: [None]
    when the fuel is used up before the loop exits. *)
Fixpoint redirect_walk (fuel : nat) (pm : gmap Z Z) (ss size : Z) : option (Z * Z) :=
  if size >? 64 then
    match fuel with
    | O => None
    | S fuel' =>
        let ss := wrap (ss - wrap (1 ≪ (size - 64))) in
        redirect_walk fuel' pm ss (Pagemap_get pm ss)
    end
  else Some (ss, size).

Definition external_pointer (location : Boundary) (fuel : nat)
    (pm : gmap Z Z) (h : Heap) (p : Z) : option Z :=
  let size := Pagemap_get pm p in
  let super := Superslab_get p in
  if size =? PMSuperslab then
    let slab := Slab_get p in
    let sc := meta_sizeclass h super slab in
    let slab_end := wrap (wrap (slab + SLAB_SIZE) - 1) in
    Some (external_pointer_in location p sc slab_end)
  else if size =? PMMediumslab then
    let slab := super in
    let sc := Mediumslab_get_sizeclass h slab in
    let slab_end := wrap (wrap (slab + SUPERSLAB_SIZE) - 1) in
    Some (external_pointer_in location p sc slab_end)
  else
    match redirect_walk fuel pm super size with
    | None => None
    | Some (ss, size) =>
        if size =? 0 then
          match location with
          | End_ => Some MAX_PTR
          | Start => Some 0
          end
        else
          match location with
          | Start => Some ss
          | End_ => Some (wrap (wrap (ss + wrap (1 ≪ size)) - 1))
          end
    end.

(** ** [RemoteCache] *)

Definition bucket (l : list RemoteList) (i : nat) : RemoteList :=
  default [] (l !! i).

(** [l->last->non_atomic_next = r; l->last = r;] on [list[i]]. *)
Definition append_slot (i : nat) (r : Remote) (l : list RemoteList) : list RemoteList :=
  <[i := bucket l i ++ [r]]> l.

Definition slot_of (target_id shift : Z) : nat :=
  Z.to_nat (Z.land (target_id ≫ shift) REMOTE_MASK).

Definition RemoteCache_dealloc (target_id p sizeclass : Z) (rc : RemoteCache)
    : RemoteCache :=
  {| rc_size := wrap (rc_size rc + sizeclass_to_size sizeclass);
     rc_list :=
       append_slot (slot_of target_id 0)
         {| r_addr := p; r_target_id := target_id; r_sizeclass := sizeclass |}
         (rc_list rc) |}.

(** The [for] loop of [post] over the slots: [n] slots are left from slot [i].
    A pushed chain is recorded with the allocator found in the header of its
    first object's superslab. *)
Fixpoint post_flush (n i my_slot : nat) (h : Heap) (l : list RemoteList)
    (out : list (Z * RemoteList)) : list RemoteList * list (Z * RemoteList) :=
  match n with
  | O => (l, out)
  | S n' =>
      if decide (i = my_slot) then post_flush n' (S i) my_slot h l out
      else
        match bucket l i with
        | [] => post_flush n' (S i) my_slot h l out
        | first :: _ =>
            let super := Superslab_get (r_addr first) in
            post_flush n' (S i) my_slot h (<[i := []]> l)
              (out ++ [(get_allocator h super, bucket l i)])
        end
  end.

(** The inner [while (r != nullptr)] loop of [post], over the chain taken
    from the resend list. *)
Definition post_resend (shift : Z) (chain : RemoteList) (l : list RemoteList)
    : list RemoteList :=
  fold_left (fun l r => append_slot (slot_of (r_target_id r) shift) r l) chain l.

(** One iteration of the [while (true)] loop of [post], from the current
    [shift]: the lists and the chains pushed so far, and [None] when the
    iteration ends in [break], else the shift of the next iteration. *)
Definition post_iteration (id shift : Z) (h : Heap) (l : list RemoteList)
    (out : list (Z * RemoteList))
    : list RemoteList * list (Z * RemoteList) * option Z :=
  let my_slot := slot_of id shift in
  let '(l, out) := post_flush (Z.to_nat REMOTE_SLOTS) 0 my_slot h l out in
  match bucket l my_slot with
  | [] => (l, out, None)
  | r :: rest =>
      let l := <[my_slot := []]> l in
      let shift := wrap (shift + REMOTE_SLOT_BITS) in
      (post_resend shift (r :: rest) l, out, Some shift)
  end.

(** The [while (true)] loop of [post]; one unit of fuel per iteration. *)
Fixpoint post_loop (fuel : nat) (id shift : Z) (h : Heap) (l : list RemoteList)
    (out : list (Z * RemoteList)) : option (list RemoteList * list (Z * RemoteList)) :=
  match fuel with
  | O => None
  | S fuel' =>
      match post_iteration id shift h l out with
      | (l, out, None) => Some (l, out)
      | (l, out, Some shift) => post_loop fuel' id shift h l out
      end
  end.

Definition RemoteCache_post (fuel : nat) (id : Z) (h : Heap) (rc : RemoteCache)
    : option (RemoteCache * list (Z * RemoteList)) :=
  match post_loop fuel id 0 h (rc_list rc) [] with
  | None => None
  | Some (l, out) => Some ({| rc_size := 0; rc_list := l |}, out)
  end.

(** ** The allocator

    The fields of [Allocator], with what it reaches through globals and
    pointers: the global pagemap, the store of slab headers, and [posted],
    the chains pushed onto other allocators' message queues, each with the
    [RemoteAllocator] it went to.  A [SlabList] is the list of its slabs
    (a link and its slab are one address); the list heads of a size class
    are found by class index. *)
Record Allocator := {
  large_allocator : LargeAlloc;
  global_pagemap : gmap Z Z;
  heap : Heap;
  small_classes : gmap Z (list Z);
  medium_classes : gmap Z (list Z);
  super_available : list Z;
  super_only_short_available : list Z;
  remote : RemoteCache;
  stub : Z;
  public_state : Z;
  (* Modelled from the spec: the mailbox of the absent [mpscq.h], by the
     nodes its successive [pop]s hand out. *)
  message_queue : list Remote;
  posted : list (Z * RemoteList)
}.

Definition with_large_allocator (x : LargeAlloc) (a : Allocator) : Allocator :=
  {| large_allocator := x; global_pagemap := global_pagemap a; heap := heap a;
     small_classes := small_classes a; medium_classes := medium_classes a;
     super_available := super_available a;
     super_only_short_available := super_only_short_available a;
     remote := remote a; stub := stub a; public_state := public_state a;
     message_queue := message_queue a; posted := posted a |}.

Definition with_pagemap (x : gmap Z Z) (a : Allocator) : Allocator :=
  {| large_allocator := large_allocator a; global_pagemap := x; heap := heap a;
     small_classes := small_classes a; medium_classes := medium_classes a;
     super_available := super_available a;
     super_only_short_available := super_only_short_available a;
     remote := remote a; stub := stub a; public_state := public_state a;
     message_queue := message_queue a; posted := posted a |}.

Definition with_heap (x : Heap) (a : Allocator) : Allocator :=
  {| large_allocator := large_allocator a; global_pagemap := global_pagemap a;
     heap := x;
     small_classes := small_classes a; medium_classes := medium_classes a;
     super_available := super_available a;
     super_only_short_available := super_only_short_available a;
     remote := remote a; stub := stub a; public_state := public_state a;
     message_queue := message_queue a; posted := posted a |}.

Definition with_small_classes (x : gmap Z (list Z)) (a : Allocator) : Allocator :=
  {| large_allocator := large_allocator a; global_pagemap := global_pagemap a;
     heap := heap a;
     small_classes := x; medium_classes := medium_classes a;
     super_available := super_available a;
     super_only_short_available := super_only_short_available a;
     remote := remote a; stub := stub a; public_state := public_state a;
     message_queue := message_queue a; posted := posted a |}.

Definition with_medium_classes (x : gmap Z (list Z)) (a : Allocator) : Allocator :=
  {| large_allocator := large_allocator a; global_pagemap := global_pagemap a;
     heap := heap a;
     small_classes := small_classes a; medium_classes := x;
     super_available := super_available a;
     super_only_short_available := super_only_short_available a;
     remote := remote a; stub := stub a; public_state := public_state a;
     message_queue := message_queue a; posted := posted a |}.

Definition with_super_available (x : list Z) (a : Allocator) : Allocator :=
  {| large_allocator := large_allocator a; global_pagemap := global_pagemap a;
     heap := heap a;
     small_classes := small_classes a; medium_classes := medium_classes a;
     super_available := x;
     super_only_short_available := super_only_short_available a;
     remote := remote a; stub := stub a; public_state := public_state a;
     message_queue := message_queue a; posted := posted a |}.

Definition with_super_only_short_available (x : list Z) (a : Allocator) : Allocator :=
  {| large_allocator := large_allocator a; global_pagemap := global_pagemap a;
     heap := heap a;
     small_classes := small_classes a; medium_classes := medium_classes a;
     super_available := super_available a;
     super_only_short_available := x;
     remote := remote a; stub := stub a; public_state := public_state a;
     message_queue := message_queue a; posted := posted a |}.

Definition with_remote (x : RemoteCache) (a : Allocator) : Allocator :=
  {| large_allocator := large_allocator a; global_pagemap := global_pagemap a;
     heap := heap a;
     small_classes := small_classes a; medium_classes := medium_classes a;
     super_available := super_available a;
     super_only_short_available := super_only_short_available a;
     remote := x; stub := stub a; public_state := public_state a;
     message_queue := message_queue a; posted := posted a |}.

Definition with_message_queue (x : list Remote) (a : Allocator) : Allocator :=
  {| large_allocator := large_allocator a; global_pagemap := global_pagemap a;
     heap := heap a;
     small_classes := small_classes a; medium_classes := medium_classes a;
     super_available := super_available a;
     super_only_short_available := super_only_short_available a;
     remote := remote a; stub := stub a; public_state := public_state a;
     message_queue := x; posted := posted a |}.

Definition with_posted (x : list (Z * RemoteList)) (a : Allocator) : Allocator :=
  {| large_allocator := large_allocator a; global_pagemap := global_pagemap a;
     heap := heap a;
     small_classes := small_classes a; medium_classes := medium_classes a;
     super_available := super_available a;
     super_only_short_available := super_only_short_available a;
     remote := remote a; stub := stub a; public_state := public_state a;
     message_queue := message_queue a; posted := x |}.

(** The slab code works on the headers and on the memory provider of the
    large allocator. *)
Definition with_heap_provider (h : Heap) (mp : MemoryProvider) (a : Allocator)
    : Allocator :=
  with_heap h
    (with_large_allocator
       {| memory_provider := mp; large_stack := large_stack (large_allocator a) |} a).

Definition provider (a : Allocator) : MemoryProvider :=
  memory_provider (large_allocator a).

Definition get_id (a : Allocator) : Z := RemoteAllocator_id (public_state a).

Definition small_class (sizeclass : Z) (a : Allocator) : list Z :=
  default [] (small_classes a !! sizeclass).

Definition medium_class_list (medium_class : Z) (a : Allocator) : list Z :=
  default [] (medium_classes a !! medium_class).

(** [large_allocator.alloc<zero_mem, allow_reserve>(large_class, size)] *)
Definition large_allocator_alloc (allow_reserve : AllowReserve) (large_class size : Z)
    : M Allocator Z :=
  fun st =>
    let '(p, la) :=
      LargeAlloc_alloc allow_reserve large_class size (large_allocator st) in
    Ret (p, with_large_allocator la st).

(** [large_allocator.memory_provider.notify_not_using(p, size)] *)
Definition provider_notify_not_using (p size : Z) : M Allocator unit :=
  modify (fun st =>
    with_large_allocator
      {| memory_provider := notify_not_using p size (provider st);
         large_stack := large_stack (large_allocator st) |} st).

Definition get_superslab (allow_reserve : AllowReserve) : M Allocator Z :=
  let* super := gets (fun st => DLList_get_head (super_available st)) in
  if negb (super =? 0) then ret super
  else
    let* super := large_allocator_alloc allow_reserve 0 SUPERSLAB_SIZE in
    if AllowReserve_eqb allow_reserve NoReserve && (super =? 0) then ret super
    else
      deref super ;;
      modify (fun st =>
        let '(h, mp) := Superslab_init super (public_state st) (heap st) (provider st) in
        with_heap_provider h mp st) ;;
      modify (fun st => with_pagemap (set_slab_super super (global_pagemap st)) st) ;;
      modify (fun st =>
        with_super_available (DLList_insert super (super_available st)) st) ;;
      ret super.

Definition reposition_superslab (super : Z) : M Allocator unit :=
  let* status := gets (fun st => Superslab_get_status (heap st) super) in
  match status with
  | Full =>
      modify (fun st =>
        with_super_available (DLList_remove super (super_available st)) st)
  | Available => ret tt
  | OnlyShortSlabAvailable =>
      modify (fun st =>
        with_super_available (DLList_remove super (super_available st)) st) ;;
      modify (fun st =>
        with_super_only_short_available
          (DLList_insert super (super_only_short_available st)) st)
  | Empty => error "Unreachable"
  end.

(** [super->alloc_short_slab(sizeclass, memory_provider)] *)
Definition call_alloc_short_slab (super sizeclass : Z) : M Allocator Z :=
  deref super ;;
  fun st =>
    let '(slab, h, mp) :=
      Superslab_alloc_short_slab super sizeclass (heap st) (provider st) in
    Ret (slab, with_heap_provider h mp st).

(** [super->alloc_slab(sizeclass, memory_provider)] *)
Definition call_alloc_slab (super sizeclass : Z) : M Allocator Z :=
  deref super ;;
  fun st =>
    let '(slab, h, mp) :=
      Superslab_alloc_slab super sizeclass (heap st) (provider st) in
    Ret (slab, with_heap_provider h mp st).

Definition alloc_slab (allow_reserve : AllowReserve) (sizeclass : Z) : M Allocator Z :=
  if Superslab_is_short_sizeclass sizeclass then
    let* super := fun st =>
      let '(super, l) := DLList_pop (super_only_short_available st) in
      Ret (super, with_super_only_short_available l st) in
    if negb (super =? 0) then call_alloc_short_slab super sizeclass
    else
      let* super := get_superslab allow_reserve in
      if AllowReserve_eqb allow_reserve NoReserve && (super =? 0) then ret 0
      else
        let* slab := call_alloc_short_slab super sizeclass in
        reposition_superslab super ;;
        ret slab
  else
    let* super := get_superslab allow_reserve in
    if AllowReserve_eqb allow_reserve NoReserve && (super =? 0) then ret 0
    else
      let* slab := call_alloc_slab super sizeclass in
      reposition_superslab super ;;
      ret slab.

(** [slab->alloc<zero_mem>(sc, rsize, memory_provider)] on [small_classes[sizeclass]] *)
Definition call_slab_alloc (zero_mem : ZeroMem) (slab sizeclass rsize : Z)
    : M Allocator Z :=
  deref slab ;;
  fun st =>
    let '(p, sc, h, mp) :=
      Slab_alloc zero_mem slab rsize (small_class sizeclass st) (heap st) (provider st) in
    Ret (p, with_small_classes (<[sizeclass := sc]> (small_classes st))
              (with_heap_provider h mp st)).

Definition small_alloc (zero_mem : ZeroMem) (allow_reserve : AllowReserve)
    (sizeclass rsize : Z) : M Allocator Z :=
  let* sc := gets (small_class sizeclass) in
  match sc with
  | link :: _ => call_slab_alloc zero_mem link sizeclass rsize
  | [] =>
      let* slab := alloc_slab allow_reserve sizeclass in
      if AllowReserve_eqb allow_reserve NoReserve && (slab =? 0) then ret 0
      else
        deref slab ;;
        modify (fun st =>
          with_small_classes
            (<[sizeclass := slab :: small_class sizeclass st]> (small_classes st)) st) ;;
        call_slab_alloc zero_mem slab sizeclass rsize
  end.

(** [slab->dealloc(sc, super, p, memory_provider)] on [small_classes[sizeclass]] *)
Definition call_slab_dealloc (slab super p sizeclass : Z) : M Allocator Action :=
  fun st =>
    let '(a, sc, h, mp) :=
      Slab_dealloc slab super p (small_class sizeclass st) (heap st) (provider st) in
    Ret (a, with_small_classes (<[sizeclass := sc]> (small_classes st))
              (with_heap_provider h mp st)).

Definition small_dealloc (super p sizeclass : Z) : M Allocator unit :=
  let* was_full := gets (fun st => Superslab_is_full (heap st) super) in
  let slab := Slab_get p in
  let* a := call_slab_dealloc slab super p sizeclass in
  match a with
  | NoSlabReturn => ret tt
  | NoStatusChange => ret tt
  | StatusChange =>
      let* status := gets (fun st => Superslab_get_status (heap st) super) in
      match status with
      | Full => error "Unreachable"
      | Available =>
          if was_full : bool then
            modify (fun st =>
              with_super_available (DLList_insert super (super_available st)) st)
          else
            modify (fun st =>
              with_super_only_short_available
                (DLList_remove super (super_only_short_available st)) st) ;;
            modify (fun st =>
              with_super_available (DLList_insert super (super_available st)) st)
      | OnlyShortSlabAvailable =>
          modify (fun st =>
            with_super_only_short_available
              (DLList_insert super (super_only_short_available st)) st)
      | Empty =>
          modify (fun st =>
            with_super_available (DLList_remove super (super_available st)) st) ;;
          (if DecommitStrategy_eqb decommit_strategy DecommitSuper then
             provider_notify_not_using
               (wrap (super + OS_PAGE_SIZE)) (wrap (SUPERSLAB_SIZE - OS_PAGE_SIZE))
           else ret tt) ;;
          modify (fun st => with_pagemap (clear_slab super (global_pagemap st)) st) ;;
          modify (fun st =>
            with_large_allocator (LargeAlloc_dealloc super 0 (large_allocator st)) st)
      end
  end.

(** [slab->alloc<zero_mem>(size, memory_provider)] on a medium slab *)
Definition call_medium_alloc (zero_mem : ZeroMem) (slab size : Z) : M Allocator Z :=
  deref slab ;;
  fun st =>
    let '(p, h, mp) := Mediumslab_alloc zero_mem slab size (heap st) (provider st) in
    Ret (p, with_heap_provider h mp st).

Definition medium_alloc (zero_mem : ZeroMem) (allow_reserve : AllowReserve)
    (sizeclass rsize size : Z) : M Allocator Z :=
  let medium_class := u8 (sizeclass - NUM_SMALL_CLASSES) in
  let* slab := gets (fun st => DLList_get_head (medium_class_list medium_class st)) in
  if negb (slab =? 0) then
    let* p := call_medium_alloc zero_mem slab size in
    let* full := gets (fun st => Mediumslab_full (heap st) slab) in
    (if full : bool then
       modify (fun st =>
         with_medium_classes
           (<[medium_class := snd (DLList_pop (medium_class_list medium_class st))]>
              (medium_classes st)) st)
     else ret tt) ;;
    ret p
  else
    let* slab := large_allocator_alloc allow_reserve 0 SUPERSLAB_SIZE in
    if AllowReserve_eqb allow_reserve NoReserve && (slab =? 0) then ret 0
    else
      deref slab ;;
      modify (fun st =>
        with_heap
          (Mediumslab_init slab (public_state st) sizeclass rsize (heap st)) st) ;;
      modify (fun st => with_pagemap (set_slab_medium slab (global_pagemap st)) st) ;;
      let* p := call_medium_alloc zero_mem slab size in
      let* full := gets (fun st => Mediumslab_full (heap st) slab) in
      (if negb full then
         modify (fun st =>
           with_medium_classes
             (<[medium_class := DLList_insert slab (medium_class_list medium_class st)]>
                (medium_classes st)) st)
       else ret tt) ;;
      ret p.

Definition medium_dealloc (slab p sizeclass : Z) : M Allocator unit :=
  let* was_full := fun st =>
    let '(was_full, h, mp) := Mediumslab_dealloc slab p (heap st) (provider st) in
    Ret (was_full, with_heap_provider h mp st) in
  (if negb SNMALLOC_SAFE_CLIENT then
     if negb (is_multiple_of_sizeclass (sizeclass_to_size sizeclass)
                (wrap (wrap (slab + SUPERSLAB_SIZE) - p)))
     then error "Not deallocating start of an object"
     else ret tt
   else ret tt) ;;
  let* empty := gets (fun st => Mediumslab_empty (heap st) slab) in
  let medium_class := u8 (sizeclass - NUM_SMALL_CLASSES) in
  if empty : bool then
    (if negb was_full then
       modify (fun st =>
         with_medium_classes
           (<[medium_class := DLList_remove slab (medium_class_list medium_class st)]>
              (medium_classes st)) st)
     else ret tt) ;;
    (if DecommitStrategy_eqb decommit_strategy DecommitSuper then
       provider_notify_not_using
         (wrap (slab + OS_PAGE_SIZE)) (wrap (SUPERSLAB_SIZE - OS_PAGE_SIZE))
     else ret tt) ;;
    modify (fun st => with_pagemap (clear_slab slab (global_pagemap st)) st) ;;
    modify (fun st =>
      with_large_allocator (LargeAlloc_dealloc slab 0 (large_allocator st)) st)
  else if was_full : bool then
    modify (fun st =>
      with_medium_classes
        (<[medium_class := DLList_insert slab (medium_class_list medium_class st)]>
           (medium_classes st)) st)
  else ret tt.

Definition large_alloc (zero_mem : ZeroMem) (allow_reserve : AllowReserve) (size : Z)
    : M Allocator Z :=
  let size_bits := next_pow2_bits size in
  let large_class := wrap (size_bits - SUPERSLAB_BITS) in
  let* p := large_allocator_alloc allow_reserve large_class size in
  modify (fun st => with_pagemap (set_large_size p size (global_pagemap st)) st) ;;
  ret p.

Definition large_dealloc (p size : Z) : M Allocator unit :=
  let size_bits := next_pow2_bits size in
  let rsize := wrap (1 ≪ size_bits) in
  let large_class := wrap (size_bits - SUPERSLAB_BITS) in
  modify (fun st => with_pagemap (clear_large_size p size (global_pagemap st)) st) ;;
  (if negb (DecommitStrategy_eqb decommit_strategy DecommitNone)
      || (large_class >? 0) then
     provider_notify_not_using (wrap (p + OS_PAGE_SIZE)) (wrap (rsize - OS_PAGE_SIZE))
   else ret tt) ;;
  deref p ;;
  modify (fun st => with_heap (Largeslab_init p (heap st)) st) ;;
  modify (fun st =>
    with_large_allocator (LargeAlloc_dealloc p large_class (large_allocator st)) st).

(** [remote.post(id())] *)
Definition remote_post (fuel : nat) : M Allocator unit :=
  fun st =>
    match RemoteCache_post fuel (get_id st) (heap st) (remote st) with
    | None => OutOfFuel
    | Some (rc, out) => Ret (tt, with_posted (posted st ++ out) (with_remote rc st))
    end.

Definition remote_dealloc (fuel : nat) (target p sizeclass : Z) : M Allocator unit :=
  modify (fun st =>
    with_remote
      (RemoteCache_dealloc (RemoteAllocator_id target) p sizeclass (remote st)) st) ;;
  let* size := gets (fun st => rc_size (remote st)) in
  if size <? REMOTE_CACHE then ret tt
  else remote_post fuel.

Definition handle_dealloc_remote (p : Remote) : M Allocator unit :=
  let* stub_addr := gets stub in
  if negb (r_addr p =? stub_addr) then
    let sizeclass := r_sizeclass p in
    let* my_id := gets get_id in
    if r_target_id p =? my_id then
      if sizeclass <? NUM_SMALL_CLASSES then
        small_dealloc (Superslab_get (r_addr p)) (r_addr p) sizeclass
      else
        medium_dealloc (Mediumslab_get (r_addr p)) (r_addr p) sizeclass
    else
      modify (fun st =>
        with_remote
          (RemoteCache_dealloc (r_target_id p) (r_addr p) sizeclass (remote st)) st)
  else ret tt.

(** Modelled from the spec: [message_queue().pop()] of the absent [mpscq.h];
    [None] stands for the pair of null pointers of an empty queue. *)
Definition message_queue_pop : M Allocator (option Remote) :=
  fun st =>
    match message_queue st with
    | [] => Ret (None, st)
    | r :: rest => Ret (Some r, with_message_queue rest st)
    end.

(** The [for] loop of [handle_message_queue_inner]; [n] iterations are left. *)
Fixpoint handle_message_queue_loop (n : nat) : M Allocator unit :=
  match n with
  | O => ret tt
  | S n' =>
      let* r := message_queue_pop in
      match r with
      | None => ret tt
      | Some p => handle_dealloc_remote p ;; handle_message_queue_loop n'
      end
  end.

Definition handle_message_queue_inner (fuel : nat) : M Allocator unit :=
  handle_message_queue_loop (Z.to_nat REMOTE_BATCH) ;;
  let* size := gets (fun st => rc_size (remote st)) in
  if size <? REMOTE_CACHE then ret tt
  else remote_post fuel.

Definition handle_message_queue (fuel : nat) : M Allocator unit :=
  let* q := gets message_queue in
  match q with
  | [] => ret tt
  | _ :: _ => handle_message_queue_inner fuel
  end.

(** [alloc(size_t size)]; the overload [alloc<size>()] differs in calling
    [size_to_sizeclass_const]. *)
Definition alloc (zero_mem : ZeroMem) (allow_reserve : AllowReserve) (fuel : nat)
    (size : Z) : M Allocator Z :=
  handle_message_queue fuel ;;
  let sizeclass := size_to_sizeclass size in
  if sizeclass <? NUM_SMALL_CLASSES then
    let rsize := sizeclass_to_size sizeclass in
    small_alloc zero_mem allow_reserve sizeclass rsize
  else if sizeclass <? NUM_SIZECLASSES then
    let rsize := sizeclass_to_size sizeclass in
    medium_alloc zero_mem allow_reserve sizeclass rsize size
  else
    large_alloc zero_mem allow_reserve size.

(** [dealloc(void* p, size_t size)] *)
Definition dealloc_sized (fuel : nat) (p size : Z) : M Allocator unit :=
  handle_message_queue fuel ;;
  let sizeclass := size_to_sizeclass size in
  if sizeclass <? NUM_SMALL_CLASSES then
    let super := Superslab_get p in
    let* target := gets (fun st => get_allocator (heap st) super) in
    let* me := gets public_state in
    if target =? me then small_dealloc super p sizeclass
    else remote_dealloc fuel target p sizeclass
  else if sizeclass <? NUM_SIZECLASSES then
    let slab := Mediumslab_get p in
    let* target := gets (fun st => get_allocator (heap st) slab) in
    let* me := gets public_state in
    if target =? me then medium_dealloc slab p sizeclass
    else remote_dealloc fuel target p sizeclass
  else
    large_dealloc p size.

(** [dealloc(void* p)] *)
Definition dealloc (fuel : nat) (p : Z) : M Allocator unit :=
  handle_message_queue fuel ;;
  let* size := gets (fun st => Pagemap_get (global_pagemap st) p) in
  (if size =? 0 then error "Not allocated by this allocator" else ret tt) ;;
  let super := Superslab_get p in
  if size =? PMSuperslab then
    let* target := gets (fun st => get_allocator (heap st) super) in
    let slab := Slab_get p in
    let* sizeclass := gets (fun st => meta_sizeclass (heap st) super slab) in
    let* me := gets public_state in
    if target =? me then small_dealloc super p sizeclass
    else remote_dealloc fuel target p sizeclass
  else if size =? PMMediumslab then
    let slab := super in
    let* target := gets (fun st => get_allocator (heap st) slab) in
    let* sizeclass := gets (fun st => Mediumslab_get_sizeclass (heap st) slab) in
    let* me := gets public_state in
    if target =? me then medium_dealloc slab p sizeclass
    else remote_dealloc fuel target p sizeclass
  else
    (if negb SNMALLOC_SAFE_CLIENT then
       if (size >? 64) || negb (super =? p)
       then error "Not deallocating start of an object"
       else ret tt
     else ret tt) ;;
    large_dealloc p (wrap (1 ≪ size)).

(** [alloc_size(void* p)] *)
Definition alloc_size (pm : gmap Z Z) (h : Heap) (p : Z) : outcome Z :=
  let size := Pagemap_get pm p in
  if size =? 0 then Abort "Not allocated by this allocator"
  else if size =? PMSuperslab then
    let super := Superslab_get p in
    let slab := Slab_get p in
    Ret (sizeclass_to_size (meta_sizeclass h super slab))
  else if size =? PMMediumslab then
    let super := Superslab_get p in
    Ret (sizeclass_to_size (Mediumslab_get_sizeclass h super))
  else Ret (wrap (1 ≪ size)).

End Model.

(** ** The claim of the specification about [set_large_size], in its words

    "Write [k] at index [p].  For [i] from [1] to [k − SUPERSLAB_BITS − 1],
    write redirect value [64 + i + SUPERSLAB_BITS − 1] across [2^i]
    consecutive superslab slots following the head."  [pm] is the pagemap
    after the call; where the [2^i] slots start is left open. *)
Definition slide_as_specified {cfg : Config} (pm : gmap Z Z) (p size : Z) : Prop :=
  let k := next_pow2_bits size in
  Pagemap_get pm p = k ∧
  ∀ i, 1 ≤ i ≤ k - SUPERSLAB_BITS - 1 →
    ∃ s, Pagemap_index p < s ∧
      ∀ j, 0 ≤ j < 2 ^ i →
        default 0 (pm !! (s + j)) = 64 + i + SUPERSLAB_BITS - 1.

(** ** The state of an outgoing cache while [post] runs

    Every node held is for another allocator than [id], has a target whose
    low [bits] bits are those of [id], and lies in the list its next slice of
    [REMOTE_SLOT_BITS] bits selects.  With [bits = 0] this is the state
    [RemoteCache::dealloc] builds, given that the allocator never files a
    node for itself. *)
Definition discriminated {cfg : Config} (id bits : Z) (l : list RemoteList) : Prop :=
  ∀ (i : nat) (r : Remote), r ∈ bucket l i →
    r_target_id r ≠ id ∧
    r_target_id r mod 2 ^ bits = id mod 2 ^ bits ∧
    slot_of (r_target_id r) bits = i.

(** Every target in the cache is one of [N] allocator ids. *)
Definition targets_below (N : Z) (l : list RemoteList) : Prop :=
  ∀ (i : nat) (r : Remote), r ∈ bucket l i → 0 ≤ r_target_id r < N.

(** ** Draining the mailbox, in the words of the specification

    "Pop up to [REMOTE_BATCH] entries; for each non-stub node, compare its
    [target_id] to [self.id()]: if equal, dispatch to [small_dealloc] or
    [medium_dealloc] per its cached sizeclass; else, enqueue into the
    outgoing [RemoteCache] to forward.  After draining, if the outgoing cache
    has grown past threshold, post again."

    To enqueue is, in the words on the cache ("an array of [REMOTE_SLOTS]
    singly-linked lists plus a running byte-count [size]"), to "append to
    [list[target_id & REMOTE_MASK]]"; the byte count runs by the size of
    the node's class.  It is written out on the lists, without the model
    of [RemoteCache::dealloc]. *)
Definition enqueue_as_specified {cfg : Config} (p : Remote) (rc : RemoteCache)
    : RemoteCache :=
  let slot := Z.to_nat (Z.land (r_target_id p) REMOTE_MASK) in
  {| rc_size := wrap (rc_size rc + sizeclass_to_size (r_sizeclass p));
     rc_list := <[slot := default [] (rc_list rc !! slot) ++ [p]]> (rc_list rc) |}.

Definition dispatch_as_specified {cfg : Config} {Heap : Type}
    {eng : SlabEngine Heap} (p : Remote)
    : M (Allocator (Heap := Heap)) unit :=
  fun st =>
    if r_addr p =? stub st then Ret (tt, st)
    else if r_target_id p =? get_id st then
      if r_sizeclass p <? NUM_SMALL_CLASSES
      then small_dealloc (Superslab_get (r_addr p)) (r_addr p) (r_sizeclass p) st
      else medium_dealloc (Mediumslab_get (r_addr p)) (r_addr p) (r_sizeclass p) st
    else
      Ret (tt, with_remote (enqueue_as_specified p (remote st)) st).

Fixpoint dispatch_all {cfg : Config} {Heap : Type}
    {eng : SlabEngine Heap} (nodes : list Remote)
    : M (Allocator (Heap := Heap)) unit :=
  match nodes with
  | [] => ret tt
  | p :: rest => dispatch_as_specified p ;; dispatch_all rest
  end.

(** To post is to run [RemoteCache::post] for the allocator's own id on the
    outgoing cache; the chains it pushes go out to the mailboxes of their
    targets. *)
Definition handle_message_queue_as_specified {cfg : Config} {Heap : Type}
    {eng : SlabEngine Heap} (fuel : nat)
    : M (Allocator (Heap := Heap)) unit :=
  fun st =>
    match message_queue st with
    | [] => Ret (tt, st)
    | _ :: _ =>
        let batch := Z.to_nat REMOTE_BATCH in
        let popped := firstn batch (message_queue st) in
        let left := skipn batch (message_queue st) in
        match dispatch_all popped (with_message_queue left st) with
        | Ret (_, st') =>
            if REMOTE_CACHE <=? rc_size (remote st') then
              match RemoteCache_post fuel (get_id st') (heap st') (remote st') with
              | Some (rc, out) =>
                  Ret (tt, with_posted (posted st' ++ out) (with_remote rc st'))
              | None => OutOfFuel
              end
            else Ret (tt, st')
        | Abort msg => Abort msg
        | NullDeref => NullDeref
        | OutOfFuel => OutOfFuel
        end
    end.

(** The effect of a change of state on the outcome of a call. *)
Definition outcome_map {A S : Type} (f : S → S) (o : outcome (A * S))
    : outcome (A * S) :=
  match o with
  | Ret (a, st) => Ret (a, f st)
  | Abort msg => Abort msg
  | NullDeref => NullDeref
  | OutOfFuel => OutOfFuel
  end.

(** Nothing is cached: no superslab with a free slab, no slab or medium slab
    with a free cell, no free large block. *)
Definition no_cached_memory {cfg : Config} {Heap : Type} {eng : SlabEngine Heap}
    (st : Allocator (Heap := Heap)) : Prop :=
  super_available st = [] ∧ super_only_short_available st = [] ∧
  (∀ sc, small_class sc st = []) ∧
  (∀ mc, medium_class_list mc st = []) ∧
  (∀ c, default [] (large_stack (large_allocator st) !! c) = []).

(** ** Live allocations, as [external_pointer] meets them

    A small object is a cell of its slab and a medium object a cell of its
    medium slab; cells are counted from the end of the slab, which is what
    [external_pointer] and the check of [medium_dealloc] compute with.  A
    large object is the head of a redirect slide in the pagemap. *)
Definition large_layout {cfg : Config} (pm : gmap Z Z) (B k : Z) : Prop :=
  Pagemap_get pm B = k ∧
  ∀ i j, 0 ≤ i < k - SUPERSLAB_BITS → 2 ^ i ≤ j < 2 ^ (i + 1) →
    Pagemap_get pm (B + j * SUPERSLAB_SIZE) = 64 + i + SUPERSLAB_BITS.

Inductive live {cfg : Config} {Heap : Type} {eng : SlabEngine Heap}
    (pm : gmap Z Z) (h : Heap) : Z → Z → Prop :=
  | live_small (B sc : Z) :
      Pagemap_get pm B = PMSuperslab →
      meta_sizeclass h (Superslab_get B) (Slab_get B) = sc →
      0 < sizeclass_to_size sc →
      0 ≤ B → Slab_get B + SLAB_SIZE ≤ 2 ^ 64 →
      B + sizeclass_to_size sc ≤ Slab_get B + SLAB_SIZE →
      (Slab_get B + SLAB_SIZE - B) mod sizeclass_to_size sc = 0 →
      live pm h B (sizeclass_to_size sc)
  | live_medium (B sc : Z) :
      Pagemap_get pm B = PMMediumslab →
      Mediumslab_get_sizeclass h (Superslab_get B) = sc →
      0 < sizeclass_to_size sc →
      0 ≤ B → Superslab_get B + SUPERSLAB_SIZE ≤ 2 ^ 64 →
      B + sizeclass_to_size sc ≤ Superslab_get B + SUPERSLAB_SIZE →
      (Superslab_get B + SUPERSLAB_SIZE - B) mod sizeclass_to_size sc = 0 →
      live pm h B (sizeclass_to_size sc)
  | live_large (B k : Z) :
      large_layout pm B k →
      SUPERSLAB_BITS ≤ k < 64 →
      0 ≤ B → B + 2 ^ k ≤ 2 ^ 64 →
      B mod SUPERSLAB_SIZE = 0 →
      live pm h B (2 ^ k).

(** ** Concrete instances

    A configuration with the spec's default geometry and a small table of
    classes, and a slab engine that answers from a script, on which the
    allocator runs on concrete states. *)
Definition example_config : Config :=
  {| SUPERSLAB_BITS := 24; SLAB_BITS := 16; OS_PAGE_SIZE := 4096;
     sizeclass_table := [16; 32; 48; 64; 4096; 8192];
     NUM_SMALL_CLASSES := 4;
     REMOTE_SLOT_BITS := 2; REMOTE_CACHE := 256; REMOTE_BATCH := 2;
     decommit_strategy := DecommitSuper;
     SNMALLOC_SAFE_CLIENT := false |}.

(** The same with a last class that is not a multiple of the page size. *)
Definition unaligned_config : Config :=
  {| SUPERSLAB_BITS := 24; SLAB_BITS := 16; OS_PAGE_SIZE := 4096;
     sizeclass_table := [16; 32; 48; 64; 4096; 6000];
     NUM_SMALL_CLASSES := 4;
     REMOTE_SLOT_BITS := 2; REMOTE_CACHE := 256; REMOTE_BATCH := 2;
     decommit_strategy := DecommitSuper;
     SNMALLOC_SAFE_CLIENT := false |}.

Definition example_config_safe_client : Config :=
  {| SUPERSLAB_BITS := 24; SLAB_BITS := 16; OS_PAGE_SIZE := 4096;
     sizeclass_table := [16; 32; 48; 64; 4096; 8192];
     NUM_SMALL_CLASSES := 4;
     REMOTE_SLOT_BITS := 2; REMOTE_CACHE := 256; REMOTE_BATCH := 2;
     decommit_strategy := DecommitSuper;
     SNMALLOC_SAFE_CLIENT := true |}.

(** The store of the scripted engine: one owner and one size class for every
    slab, the status of the superslabs, what the next small free reports
    and the status it leaves, and the cell counts of the medium slabs. *)
Record Scripted := {
  s_owner : Z;
  s_sizeclass : Z;
  s_status : Status;
  s_next : Action * Status;
  s_cell : Z;
  s_medium_used : Z;
  s_medium_cells : Z
}.

Definition Scripted_status (x : Status) (h : Scripted) : Scripted :=
  {| s_owner := s_owner h; s_sizeclass := s_sizeclass h; s_status := x;
     s_next := s_next h; s_cell := s_cell h;
     s_medium_used := s_medium_used h; s_medium_cells := s_medium_cells h |}.

Definition Scripted_medium_used (x : Z) (h : Scripted) : Scripted :=
  {| s_owner := s_owner h; s_sizeclass := s_sizeclass h; s_status := s_status h;
     s_next := s_next h; s_cell := s_cell h;
     s_medium_used := x; s_medium_cells := s_medium_cells h |}.

Definition Status_is_full (x : Status) : bool :=
  match x with Full => true | _ => false end.

Definition scripted_engine : SlabEngine Scripted :=
  {| get_allocator h _ := s_owner h;
     RemoteAllocator_id a := a;
     meta_sizeclass h _ _ := s_sizeclass h;
     Superslab_is_full h _ := Status_is_full (s_status h);
     Superslab_get_status h _ := s_status h;
     Superslab_is_short_sizeclass sc := sc <? 2;
     Superslab_init _ _ h mp := (Scripted_status Available h, mp);
     Superslab_alloc_short_slab super _ h mp := (super, h, mp);
     Superslab_alloc_slab super _ h mp := (super + 65536, h, mp);
     Slab_alloc _ _ _ sc h mp := (s_cell h, sc, h, mp);
     Slab_dealloc _ _ _ sc h mp :=
       (fst (s_next h), sc, Scripted_status (snd (s_next h)) h, mp);
     Mediumslab_get_sizeclass h _ := s_sizeclass h;
     Mediumslab_init _ _ _ _ h := Scripted_medium_used 0 h;
     Mediumslab_alloc _ _ _ h mp :=
       (s_cell h, Scripted_medium_used (s_medium_used h + 1) h, mp);
     Mediumslab_full h _ := s_medium_used h =? s_medium_cells h;
     Mediumslab_empty h _ := s_medium_used h =? 0;
     Mediumslab_dealloc _ _ h mp :=
       (s_medium_used h =? s_medium_cells h,
        Scripted_medium_used (s_medium_used h - 1) h, mp);
     Largeslab_init _ h := h |}.

Definition example_heap : Scripted :=
  {| s_owner := 4096; s_sizeclass := 2; s_status := Available;
     s_next := (StatusChange, Empty); s_cell := 0;
     s_medium_used := 1; s_medium_cells := 4 |}.

Definition empty_provider : MemoryProvider :=
  {| mp_fresh := []; mp_reserve_calls := 0; mp_not_using := [] |}.

(** An allocator with nothing cached: the state a fresh allocator is in. *)
Definition fresh_allocator (h : Scripted) (mp : MemoryProvider)
    : Allocator (Heap := Scripted) :=
  {| large_allocator := {| memory_provider := mp; large_stack := ∅ |};
     global_pagemap := ∅; heap := h;
     small_classes := ∅; medium_classes := ∅;
     super_available := []; super_only_short_available := [];
     remote := {| rc_size := 0; rc_list := replicate 4 [] |};
     stub := 64; public_state := 4096;
     message_queue := []; posted := [] |}.

(** The state after [alloc(17 MiB)] on a fresh allocator whose memory
    provider handed out the address [2^30]. *)
Definition large_object_state : Allocator (Heap := Scripted) :=
  with_pagemap (set_large_size (cfg := example_config) (2 ^ 30) (17 * 2 ^ 20) ∅)
    (fresh_allocator example_heap empty_provider).

(** An allocator that owns the superslab at [2^24], which has free slabs. *)
Definition one_superslab_state : Allocator (Heap := Scripted) :=
  with_super_available [2 ^ 24]
    (with_pagemap (set_slab_super (cfg := example_config) (2 ^ 24) ∅)
       (fresh_allocator example_heap empty_provider)).

(** An outgoing cache of the allocator with id [5], filled by
    [RemoteCache::dealloc] with objects of ten other allocators. *)
Definition example_cache : RemoteCache :=
  fold_left
    (fun rc target =>
       RemoteCache_dealloc (cfg := example_config) target (target * 2 ^ 24 + 4096) 1 rc)
    [1; 2; 3; 4; 6; 7; 9; 13; 21; 37]
    {| rc_size := 0; rc_list := replicate 4 [] |}.

(** ** Runs of frees, and what the allocator keeps invariant

    A [RemoteCache] as its constructor leaves it: [size = 0] and every
    [RemoteList] cleared. *)
Definition RemoteCache_new {cfg : Config} : RemoteCache :=
  {| rc_size := 0; rc_list := replicate (Z.to_nat REMOTE_SLOTS) [] |}.

(** A run of calls [remote.dealloc(target_id, p, sizeclass)], one for each
    node of [frees], in order. *)
Definition RemoteCache_dealloc_all {cfg : Config} (frees : list Remote)
    (rc : RemoteCache) : RemoteCache :=
  fold_left
    (fun rc r => RemoteCache_dealloc (r_target_id r) (r_addr r) (r_sizeclass r) rc)
    frees rc.




(** A computation that stays inside the allocator: it never posts, and
    leaves the outgoing cache, the mailbox and the identity alone. *)
Definition stays_local {Heap : Type} {A : Type}
    (m : M (Allocator (Heap := Heap)) A) : Prop :=
  ∀ st, m st ≠ OutOfFuel ∧
    ∀ x st', m st = Ret (x, st') →
      remote st' = remote st ∧ public_state st' = public_state st ∧
      message_queue st' = message_queue st.

(** A computation after which the outgoing cache is below [REMOTE_CACHE]. *)
Definition bounds_remote {cfg : Config} {Heap : Type} {A : Type}
    (m : M (Allocator (Heap := Heap)) A) : Prop :=
  ∀ st x st', m st = Ret (x, st') → rc_size (remote st') < REMOTE_CACHE.

(** The list a superslab is on agrees with its status. *)
Definition listed_by_status {Heap : Type} {eng : SlabEngine Heap}
    (st : Allocator (Heap := Heap)) (super : Z) : Prop :=
  match Superslab_get_status (heap st) super with
  | Full => super ∉ super_available st
  | Available => DLList_get_head (super_available st) = super
  | OnlyShortSlabAvailable =>
      (super ∉ super_available st) ∧
      DLList_get_head (super_only_short_available st) = super
  | Empty => False
  end.

(** What [post] needs of an allocator among [N]: its id is one of the [N]
    ids, its outgoing cache is in the state [RemoteCache::dealloc] builds,
    and the targets in its cache and in its mailbox are ids of the [N]
    allocators. *)
Definition cache_invariant {cfg : Config} {Heap : Type} {eng : SlabEngine Heap}
    (N : Z) (st : Allocator (Heap := Heap)) : Prop :=
  0 ≤ get_id st < N ∧
  discriminated (get_id st) 0 (rc_list (remote st)) ∧
  targets_below N (rc_list (remote st)) ∧
  ∀ r, r ∈ message_queue st → 0 ≤ r_target_id r < N.

(** A computation that keeps [cache_invariant] and whose posts end within
    the fuel it is given. *)
Definition posts_safely {cfg : Config} {Heap : Type} {eng : SlabEngine Heap}
    {A : Type} (N : Z) (m : M (Allocator (Heap := Heap)) A) : Prop :=
  ∀ st, cache_invariant N st →
    m st ≠ OutOfFuel ∧ ∀ x st', m st = Ret (x, st') → cache_invariant N st'.

(** The frees that fill [example_cache], in the order they were made. *)
Definition example_frees : list Remote :=
  map (fun target =>
         {| r_addr := target * 2 ^ 24 + 4096; r_target_id := target; r_sizeclass := 1 |})
    [1; 2; 3; 4; 6; 7; 9; 13; 21; 37].

(** A memory provider with one block left to hand out, at [2^30]. *)
Definition one_block_provider : MemoryProvider :=
  {| mp_fresh := [2 ^ 30]; mp_reserve_calls := 0; mp_not_using := [] |}.

(** The store of a medium slab of class 4 (4096 bytes) with one of its four
    cells in use. *)
Definition medium_heap : Scripted :=
  {| s_owner := 4096; s_sizeclass := 4; s_status := Available;
     s_next := (StatusChange, Empty); s_cell := 2 ^ 25 + 2 ^ 24 - 8192;
     s_medium_used := 1; s_medium_cells := 4 |}.

(** An allocator that owns the medium slab at [2^25]. *)
Definition one_mediumslab_state : Allocator (Heap := Scripted) :=
  with_medium_classes {[ 0 := [2 ^ 25] ]}
    (with_pagemap (set_slab_medium (cfg := example_config) (2 ^ 25) ∅)
       (fresh_allocator medium_heap empty_provider)).

(** The scripted engine among 64 allocators: the owner recorded in a slab
    header is one of the allocators [0 .. 63], and an allocator's id is its
    address. *)
Definition owners_engine : SlabEngine Scripted :=
  {| get_allocator h _ := s_owner h mod 64;
     RemoteAllocator_id a := a;
     meta_sizeclass := meta_sizeclass (SlabEngine := scripted_engine);
     Superslab_is_full := Superslab_is_full (SlabEngine := scripted_engine);
     Superslab_get_status := Superslab_get_status (SlabEngine := scripted_engine);
     Superslab_is_short_sizeclass :=
       Superslab_is_short_sizeclass (SlabEngine := scripted_engine);
     Superslab_init := Superslab_init (SlabEngine := scripted_engine);
     Superslab_alloc_short_slab :=
       Superslab_alloc_short_slab (SlabEngine := scripted_engine);
     Superslab_alloc_slab := Superslab_alloc_slab (SlabEngine := scripted_engine);
     Slab_alloc := Slab_alloc (SlabEngine := scripted_engine);
     Slab_dealloc := Slab_dealloc (SlabEngine := scripted_engine);
     Mediumslab_get_sizeclass :=
       Mediumslab_get_sizeclass (SlabEngine := scripted_engine);
     Mediumslab_init := Mediumslab_init (SlabEngine := scripted_engine);
     Mediumslab_alloc := Mediumslab_alloc (SlabEngine := scripted_engine);
     Mediumslab_full := Mediumslab_full (SlabEngine := scripted_engine);
     Mediumslab_empty := Mediumslab_empty (SlabEngine := scripted_engine);
     Mediumslab_dealloc := Mediumslab_dealloc (SlabEngine := scripted_engine);
     Largeslab_init := Largeslab_init (SlabEngine := scripted_engine) |}.

(** An allocator that owns the superslab at [2^24], whose last free slab is
    the next one taken: the status its header shows is [Full]. *)
Definition full_superslab_state : Allocator (Heap := Scripted) :=
  with_heap (Scripted_status Full example_heap) one_superslab_state.

(** The allocator with id [5], whose outgoing cache is [example_cache]: it
    holds 320 bytes, more than [REMOTE_CACHE].  It knows the superslab at
    [2^24], which allocator [0] owns. *)
Definition posting_state : Allocator (Heap := Scripted) :=
  {| large_allocator := {| memory_provider := empty_provider; large_stack := ∅ |};
     global_pagemap := set_slab_super (cfg := example_config) (2 ^ 24) ∅;
     heap := example_heap;
     small_classes := ∅; medium_classes := ∅;
     super_available := []; super_only_short_available := [];
     remote := example_cache;
     stub := 64; public_state := 5;
     message_queue := []; posted := [] |}.

(** The same allocator with the first seven of those frees in its cache:
    224 bytes, less than [REMOTE_CACHE]. *)
Definition filling_state : Allocator (Heap := Scripted) :=
  with_remote
    (RemoteCache_dealloc_all (cfg := example_config) (take 7 example_frees)
       (RemoteCache_new (cfg := example_config)))
    posting_state.

(** A fresh allocator with three nodes in its mailbox, all for other
    allocators; the first two go to the same slot of the cache. *)
Definition mailbox_state : Allocator (Heap := Scripted) :=
  with_message_queue
    [ {| r_addr := 9 * 2 ^ 24 + 4096; r_target_id := 9; r_sizeclass := 1 |};
      {| r_addr := 13 * 2 ^ 24 + 4096; r_target_id := 13; r_sizeclass := 1 |};
      {| r_addr := 2 * 2 ^ 24 + 4096; r_target_id := 2; r_sizeclass := 1 |} ]
    (fresh_allocator example_heap empty_provider).

(** The cache of the allocator with id [5] among two allocators, after one
    free for the other, whose id is [69]. *)
Definition two_allocator_cache : RemoteCache :=
  RemoteCache_dealloc (cfg := example_config) 69 (69 * 2 ^ 24 + 4096) 1
    {| rc_size := 0; rc_list := replicate 4 [] |}.

(** A cache of the allocator with id [5] that holds a node for id [5]. *)
Definition self_addressed_cache : RemoteCache :=
  RemoteCache_dealloc (cfg := example_config) 5 (5 * 2 ^ 24 + 4096) 1
    {| rc_size := 0; rc_list := replicate 4 [] |}.

(** * Properties

    ** Machine arithmetic and the pagemap *)

Lemma wrap_small z : 0 ≤ z < 2 ^ 64 → wrap z = z.
Proof. intros. unfold wrap. apply Z.mod_small. lia. Qed.

Lemma u8_small z : 0 ≤ z < 256 → u8 z = z.
Proof. intros. unfold u8. apply Z.mod_small. lia. Qed.

Lemma shiftl_1 n : 0 ≤ n → 1 ≪ n = 2 ^ n.
Proof. intros. rewrite Z.shiftl_mul_pow2 by lia. lia. Qed.

Lemma pow2_le_mono a b : 0 ≤ a ≤ b → 2 ^ a ≤ 2 ^ b.
Proof. intros. apply Z.pow_le_mono_r; lia. Qed.

Lemma pow2_lt_mono a b : 0 ≤ a < b → 2 ^ a < 2 ^ b.
Proof. intros. apply Z.pow_lt_mono_r; lia. Qed.

Lemma pow2_pos a : 0 ≤ a → 0 < 2 ^ a.
Proof. intros. apply Z.pow_pos_nonneg; lia. Qed.

Lemma align_down_eq p b : 0 ≤ b → align_down p b = 2 ^ b * (p / 2 ^ b).
Proof.
  intros. unfold align_down.
  rewrite Z.shiftl_mul_pow2, Z.shiftr_div_pow2 by lia. lia.
Qed.

Section PagemapProperties.
Context {cfg : Config} {Heap : Type} {eng : SlabEngine Heap}.

Lemma Pagemap_index_div p :
  0 ≤ SUPERSLAB_BITS → Pagemap_index p = p / 2 ^ SUPERSLAB_BITS.
Proof. intros. unfold Pagemap_index. apply Z.shiftr_div_pow2. lia. Qed.

Lemma SUPERSLAB_SIZE_pow : 0 ≤ SUPERSLAB_BITS → SUPERSLAB_SIZE = 2 ^ SUPERSLAB_BITS.
Proof. intros. unfold SUPERSLAB_SIZE. apply shiftl_1. lia. Qed.

Lemma Pagemap_index_add p j :
  0 ≤ SUPERSLAB_BITS →
  Pagemap_index (p + j * SUPERSLAB_SIZE) = Pagemap_index p + j.
Proof.
  intros Hb. rewrite !Pagemap_index_div, SUPERSLAB_SIZE_pow by lia.
  apply Z.div_add. pose proof (pow2_pos SUPERSLAB_BITS Hb). lia.
Qed.

Lemma Pagemap_fill_lookup n index x (pm : gmap Z Z) j :
  Pagemap_fill n index x pm !! j =
  if decide (index ≤ j < index + Z.of_nat n) then Some x else pm !! j.
Proof.
  revert index pm. induction n as [|n IH]; intros index pm; simpl.
  - case_decide; [lia | done].
  - rewrite IH. repeat case_decide; try lia; try done.
    + assert (j = index) as -> by lia. by rewrite lookup_insert_eq.
    + rewrite lookup_insert_ne by lia. done.
Qed.

(** What the redirect loop leaves at index [j], when it starts at counter
    [i] with [n] iterations to go and [ss] at [2^i] superslabs after [p]. *)
Lemma redirect_slide_lookup n i ss p (pm : gmap Z Z) j :
  0 ≤ SUPERSLAB_BITS → 0 ≤ i → 0 ≤ p →
  (n ≠ O → ss = p + 2 ^ i * SUPERSLAB_SIZE) →
  p + 2 ^ (i + Z.of_nat n) * SUPERSLAB_SIZE ≤ 2 ^ 64 →
  SUPERSLAB_BITS + i + Z.of_nat n ≤ 64 →
  redirect_slide n i ss pm !! j =
  if decide (2 ^ i ≤ j - Pagemap_index p < 2 ^ (i + Z.of_nat n))
  then Some (64 + Z.log2 (j - Pagemap_index p) + SUPERSLAB_BITS)
  else pm !! j.
Proof.
  intros Hb. revert i ss pm.
  induction n as [|n IH]; intros i ss pm Hi Hp Hss Hfit Hk; simpl.
  - change (Z.of_nat 0) with 0. rewrite Z.add_0_r. case_decide; [lia | done].
  - assert (Hsz : 0 < 2 ^ SUPERSLAB_BITS) by (apply pow2_pos; lia).
    pose proof (pow2_pos i Hi) as Hi2.
    rewrite SUPERSLAB_SIZE_pow in * by lia.
    assert (Hrun : wrap (1 ≪ i) = 2 ^ i).
    { rewrite shiftl_1 by lia. apply wrap_small. split; [lia|].
      apply pow2_lt_mono. lia. }
    rewrite Hrun.
    assert (Hlt : 2 ^ i < 2 ^ (i + 1)) by (apply pow2_lt_mono; lia).
    assert (Hdbl : 2 ^ (i + 1) = 2 * 2 ^ i) by (rewrite Z.pow_add_r by lia; lia).
    assert (Hmono : 2 ^ (i + 1) ≤ 2 ^ (i + Z.of_nat (S n)))
      by (apply pow2_le_mono; lia).
    rewrite IH.
    + unfold Pagemap_set_range. rewrite Pagemap_fill_lookup.
      rewrite Z2Nat.id by lia.
      rewrite (Hss ltac:(done)).
      replace (p + 2 ^ i * 2 ^ SUPERSLAB_BITS) with (p + 2 ^ i * SUPERSLAB_SIZE)
        by (rewrite SUPERSLAB_SIZE_pow by lia; done).
      rewrite Pagemap_index_add by lia.
      replace (i + 1 + Z.of_nat n) with (i + Z.of_nat (S n)) by lia.
      repeat case_decide; try lia; try done.
      f_equal. rewrite u8_small by lia.
      rewrite (Z.log2_unique (j - Pagemap_index p) i); lia.
    + lia.
    + done.
    + intros Hn. rewrite (Hss ltac:(done)).
      assert (2 ^ (i + 1) < 2 ^ (i + Z.of_nat (S n))) by (apply pow2_lt_mono; lia).
      rewrite wrap_small; [lia|]. nia.
    + replace (i + 1 + Z.of_nat n) with (i + Z.of_nat (S n)) by lia. done.
    + lia.
Qed.

Lemma pow2_le_inv a b : 0 ≤ b → 2 ^ a ≤ 2 ^ b → a ≤ b.
Proof.
  intros Hb H. destruct (Z_lt_le_dec b a) as [Hlt|]; [|done].
  assert (2 ^ b < 2 ^ a) by (apply pow2_lt_mono; lia). lia.
Qed.

Lemma set_large_size_lookup p size (pm : gmap Z Z) j :
  0 ≤ SUPERSLAB_BITS ≤ next_pow2_bits size → 0 ≤ p →
  p + 2 ^ next_pow2_bits size ≤ 2 ^ 64 →
  set_large_size p size pm !! j =
  if decide (j = Pagemap_index p) then Some (next_pow2_bits size)
  else if decide (1 ≤ j - Pagemap_index p < 2 ^ (next_pow2_bits size - SUPERSLAB_BITS))
  then Some (64 + Z.log2 (j - Pagemap_index p) + SUPERSLAB_BITS)
  else pm !! j.
Proof.
  intros Hb Hp Hfit. unfold set_large_size.
  set (k := next_pow2_bits size) in *.
  assert (Hk : k ≤ 64).
  { apply pow2_le_inv; [lia|]. pose proof (pow2_pos k ltac:(lia)). lia. }
  assert (Hsz : 0 < 2 ^ SUPERSLAB_BITS) by (apply pow2_pos; lia).
  assert (Hsplit : 2 ^ k = 2 ^ (k - SUPERSLAB_BITS) * 2 ^ SUPERSLAB_BITS).
  { rewrite <- Z.pow_add_r by lia. f_equal. lia. }
  rewrite u8_small by lia. unfold Pagemap_set.
  case_decide as Hj.
  { subst j. by rewrite lookup_insert_eq. }
  rewrite lookup_insert_ne by done.
  rewrite (redirect_slide_lookup _ 0 _ p).
  - rewrite wrap_small by lia. rewrite Z2Nat.id by lia.
    replace (0 + (k - SUPERSLAB_BITS)) with (k - SUPERSLAB_BITS) by lia.
    change (2 ^ 0) with 1.
    repeat case_decide; try lia; try done.
    by rewrite lookup_insert_ne.
  - lia.
  - lia.
  - done.
  - intros Hn. rewrite SUPERSLAB_SIZE_pow by lia. change (2 ^ 0) with 1.
    assert (k - SUPERSLAB_BITS ≠ 0).
    { intros E. apply Hn. rewrite wrap_small by lia. rewrite E. done. }
    assert (2 ^ 1 ≤ 2 ^ (k - SUPERSLAB_BITS)) by (apply pow2_le_mono; lia).
    change (2 ^ 1) with 2 in *.
    rewrite wrap_small; [lia|nia].
  - rewrite wrap_small by lia. rewrite Z2Nat.id by lia.
    replace (0 + (k - SUPERSLAB_BITS)) with (k - SUPERSLAB_BITS) by lia.
    rewrite SUPERSLAB_SIZE_pow by lia. lia.
  - rewrite wrap_small by lia. rewrite Z2Nat.id by lia. lia.
Qed.

(** After [set_large_size] the pagemap holds the layout of a large object:
    the head and, behind it, the runs of redirects. *)
Lemma set_large_size_layout p size (pm : gmap Z Z) :
  0 ≤ SUPERSLAB_BITS ≤ next_pow2_bits size → 0 ≤ p →
  p + 2 ^ next_pow2_bits size ≤ 2 ^ 64 →
  large_layout (set_large_size p size pm) p (next_pow2_bits size).
Proof.
  intros Hb Hp Hfit. set (k := next_pow2_bits size) in *.
  unfold large_layout, Pagemap_get.
  assert (Hpos : 0 < 2 ^ (k - SUPERSLAB_BITS)) by (apply pow2_pos; lia).
  split.
  - rewrite set_large_size_lookup by done. by rewrite decide_True.
  - intros i j Hi Hj.
    assert (0 < 2 ^ i) by (apply pow2_pos; lia).
    assert (2 ^ (i + 1) ≤ 2 ^ (k - SUPERSLAB_BITS)) by (apply pow2_le_mono; lia).
    rewrite set_large_size_lookup by done.
    rewrite Pagemap_index_add by lia.
    rewrite decide_False by lia. rewrite decide_True by (fold k; lia).
    simpl. replace (Pagemap_index p + j - Pagemap_index p) with j by lia.
    rewrite (Z.log2_unique j i); lia.
Qed.

(** C1, as amended: for a large allocation of [size] bytes at head address
    [p], with [k = ⌈log₂ size⌉], [set_large_size p size] writes [k] at the
    pagemap index of [p], and for each [i] from [0] to
    [k − SUPERSLAB_BITS − 1] writes the redirect value
    [64 + i + SUPERSLAB_BITS] in the [2^i] consecutive slots that start [2^i]
    slots after the head; the slots outside the allocation keep their
    entries. *)
Theorem set_large_size_redirect_slide p size (pm : gmap Z Z) :
  let k := next_pow2_bits size in
  0 ≤ SUPERSLAB_BITS ≤ k → 0 ≤ p → p + 2 ^ k ≤ 2 ^ 64 →
  Pagemap_get (set_large_size p size pm) p = k ∧
  (∀ i j, 0 ≤ i < k - SUPERSLAB_BITS → 2 ^ i ≤ j < 2 ^ (i + 1) →
     Pagemap_get (set_large_size p size pm) (p + j * SUPERSLAB_SIZE)
     = 64 + i + SUPERSLAB_BITS) ∧
  (∀ q, Pagemap_index q < Pagemap_index p ∨
        Pagemap_index p + 2 ^ (k - SUPERSLAB_BITS) ≤ Pagemap_index q →
     Pagemap_get (set_large_size p size pm) q = Pagemap_get pm q).
Proof.
  intros k Hb Hp Hfit.
  assert (Hpos : 0 < 2 ^ (k - SUPERSLAB_BITS)) by (apply pow2_pos; lia).
  destruct (set_large_size_layout p size pm Hb Hp Hfit) as [Hhead Hslide].
  split; [done|]. split; [done|].
  intros q Hq. unfold Pagemap_get. rewrite set_large_size_lookup by done.
    rewrite decide_False by lia. rewrite decide_False by (fold k; lia). done.
Qed.
End PagemapProperties.

(** C1, the counterexample: after [set_large_size] for 64 MiB, no two
    consecutive slots behind the head hold [88], the value the specification
    gives for [i = 1]. *)
Lemma set_large_size_not_as_specified :
  ¬ slide_as_specified (cfg := example_config)
      (set_large_size (cfg := example_config) (2 ^ 30) (2 ^ 26) ∅) (2 ^ 30) (2 ^ 26).
Proof.
  intros [_ H]. destruct (H 1) as [s [Hs Hval]].
  { vm_compute. split; discriminate. }
  assert (Hidx : Pagemap_index (cfg := example_config) (2 ^ 30) = 64) by reflexivity.
  rewrite Hidx in Hs.
  pose proof (Hval 0 ltac:(lia)) as H0. pose proof (Hval 1 ltac:(lia)) as H1.
  rewrite (set_large_size_lookup (cfg := example_config)) in H0, H1
    by (vm_compute; try split; discriminate).
  rewrite Hidx in H0, H1.
  change (next_pow2_bits (2 ^ 26)) with 26 in H0, H1.
  change (@SUPERSLAB_BITS example_config) with 24 in H0, H1.
  change (2 ^ (26 - 24)) with 4 in H0, H1.
  repeat case_decide; simpl in *; try lia.
  all: try (rewrite lookup_empty in H0; simpl in H0; lia).
  all: assert (Hc : s = 65 ∨ s = 66 ∨ s = 67) by lia.
  all: destruct Hc as [-> | [-> | ->]]; vm_compute in H0, H1; congruence.
Qed.

(** ** [external_pointer] *)

Lemma wrap_wrap_add a b : wrap (wrap a + b) = wrap (a + b).
Proof. unfold wrap. apply Zplus_mod_idemp_l. Qed.

Lemma wrap_wrap_sub a b : wrap (wrap a - b) = wrap (a - b).
Proof. unfold wrap. apply Zminus_mod_idemp_l. Qed.

Lemma wrap_add_wrap a b : wrap (a + wrap b) = wrap (a + b).
Proof. unfold wrap. apply Zplus_mod_idemp_r. Qed.

Lemma wrap_sub_wrap a b : wrap (a - wrap b) = wrap (a - b).
Proof. unfold wrap. apply Zminus_mod_idemp_r. Qed.

Lemma wrap_sub1 x : 0 < x ≤ 2 ^ 64 → wrap (wrap x - 1) = x - 1.
Proof.
  intros Hx. destruct (Z.eq_dec x (2 ^ 64)) as [->|Hne]; [reflexivity|].
  rewrite (wrap_small x) by lia. apply wrap_small. lia.
Qed.

Lemma wrap_eq x y : x = y → 0 ≤ y < 2 ^ 64 → wrap x = y.
Proof. intros -> ?. by apply wrap_small. Qed.

Lemma align_down_same B q b :
  0 ≤ b → align_down B b ≤ q < align_down B b + 2 ^ b →
  q / 2 ^ b = B / 2 ^ b.
Proof.
  intros Hb. rewrite align_down_eq by done. intros Hq.
  assert (0 < 2 ^ b) by (apply pow2_pos; lia).
  symmetry. apply (Z.div_unique_pos q (2 ^ b) (B / 2 ^ b) (q - 2 ^ b * (B / 2 ^ b))); lia.
Qed.

Lemma div_pow2_coarser q B a b :
  0 ≤ a ≤ b → q / 2 ^ a = B / 2 ^ a → q / 2 ^ b = B / 2 ^ b.
Proof.
  intros Hab H.
  assert (0 < 2 ^ a) by (apply pow2_pos; lia).
  assert (0 < 2 ^ (b - a)) by (apply pow2_pos; lia).
  replace (2 ^ b) with (2 ^ a * 2 ^ (b - a))
    by (rewrite <- Z.pow_add_r by lia; f_equal; lia).
  rewrite <- !Z.div_div by lia. by rewrite H.
Qed.

Section ExternalPointerProperties.
Context {cfg : Config} {Heap : Type} {eng : SlabEngine Heap}.

Lemma redirect_walk_more_fuel n m (pm : gmap Z Z) ss size r :
  (n ≤ m)%nat → redirect_walk n pm ss size = Some r →
  redirect_walk m pm ss size = Some r.
Proof.
  revert m ss size. induction n as [|n IH]; intros m ss size Hm H.
  - destruct m; simpl in *; destruct (size >? 64); congruence.
  - destruct m as [|m]; [lia|]. simpl in *.
    destruct (size >? 64); [|done]. apply IH; [lia|done].
Qed.

(** An object's cell, found from any of its bytes by counting from the end
    [E] of the slab. *)
Lemma external_pointer_in_cell location B i sc E :
  0 < sizeclass_to_size sc → 0 ≤ B → E ≤ 2 ^ 64 →
  B + sizeclass_to_size sc ≤ E →
  (E - B) mod sizeclass_to_size sc = 0 →
  0 ≤ i < sizeclass_to_size sc →
  external_pointer_in location (B + i) sc (wrap (wrap E - 1)) =
  match location with Start => B | End_ => B + sizeclass_to_size sc - 1 end.
Proof.
  intros HS HB HE Hfit Hmod Hi. unfold external_pointer_in, round_by_sizeclass.
  set (S := sizeclass_to_size sc) in *.
  apply Z.div_exact in Hmod; [|lia].
  set (m := (E - B) / S) in *.
  assert (Hm : 1 ≤ m) by nia.
  rewrite wrap_sub1 by lia.
  assert (Hoff : wrap (E - 1 - (B + i)) = S * (m - 1) + (S - 1 - i)).
  { apply wrap_eq; nia. }
  rewrite Hoff.
  assert (Hdiv : (S * (m - 1) + (S - 1 - i)) / S = m - 1).
  { symmetry. apply (Z.div_unique_pos _ S (m - 1) (S - 1 - i)); lia. }
  rewrite Hdiv.
  destruct location.
  - rewrite wrap_wrap_add, wrap_wrap_sub. apply wrap_eq; nia.
  - apply wrap_eq; nia.
Qed.


Lemma SLAB_SIZE_pow : 0 ≤ SLAB_BITS → SLAB_SIZE = 2 ^ SLAB_BITS.
Proof. intros. unfold SLAB_SIZE. apply shiftl_1. lia. Qed.

(** Every slot of a large allocation leads back to its head. *)
Lemma redirect_walk_large (pm : gmap Z Z) B k :
  0 < SUPERSLAB_BITS → large_layout pm B k → SUPERSLAB_BITS ≤ k < 64 →
  0 ≤ B → B + 2 ^ k ≤ 2 ^ 64 →
  ∀ (n : nat) j, 0 ≤ j < 2 ^ Z.of_nat n → j < 2 ^ (k - SUPERSLAB_BITS) →
    redirect_walk n pm (B + j * SUPERSLAB_SIZE)
      (Pagemap_get pm (B + j * SUPERSLAB_SIZE)) = Some (B, k).
Proof.
  intros Hb [Hhead Hslide] Hk HB Hfit.
  assert (Hsz : 0 < 2 ^ SUPERSLAB_BITS) by (apply pow2_pos; lia).
  assert (Hsplit : 2 ^ k = 2 ^ (k - SUPERSLAB_BITS) * 2 ^ SUPERSLAB_BITS).
  { rewrite <- Z.pow_add_r by lia. f_equal. lia. }
  assert (Hat_head : ∀ n, redirect_walk n pm (B + 0 * SUPERSLAB_SIZE)
            (Pagemap_get pm (B + 0 * SUPERSLAB_SIZE)) = Some (B, k)).
  { intros n. replace (B + 0 * SUPERSLAB_SIZE) with B by lia. rewrite Hhead.
    destruct n; simpl; (destruct (k >? 64) eqn:E; [lia | done]). }
  induction n as [|n IH]; intros j Hj Hjk.
  - change (2 ^ Z.of_nat 0) with 1 in Hj. assert (j = 0) as -> by lia. apply Hat_head.
  - destruct (Z.eq_dec j 0) as [->|Hj0]; [apply Hat_head|].
    set (i := Z.log2 j).
    assert (Hi : 2 ^ i ≤ j < 2 ^ (i + 1)).
    { pose proof (Z.log2_spec j ltac:(lia)) as Hs. fold i in Hs.
      replace (Z.succ i) with (i + 1) in Hs by lia. done. }
    assert (Hi0 : 0 ≤ i) by apply Z.log2_nonneg.
    assert (Hik : i < k - SUPERSLAB_BITS).
    { apply Z.log2_lt_pow2; lia. }
    assert (Hin : i < Z.of_nat (S n)).
    { apply Z.log2_lt_pow2; lia. }
    rewrite (Hslide i j) by lia. simpl.
    destruct (64 + i + SUPERSLAB_BITS >? 64) eqn:E; [|lia].
    replace (64 + i + SUPERSLAB_BITS - 64) with (i + SUPERSLAB_BITS) by lia.
    assert (Hpow : wrap (1 ≪ (i + SUPERSLAB_BITS)) = 2 ^ i * 2 ^ SUPERSLAB_BITS).
    { rewrite shiftl_1 by lia. rewrite Z.pow_add_r by lia. apply wrap_small.
      rewrite <- Z.pow_add_r by lia. split; [apply Z.lt_le_incl, pow2_pos; lia|].
      apply pow2_lt_mono. lia. }
    rewrite Hpow.
    assert (H2n : 2 ^ i ≤ 2 ^ Z.of_nat n) by (apply pow2_le_mono; lia).
    assert (Hdbl : 2 ^ (i + 1) = 2 * 2 ^ i) by (rewrite Z.pow_add_r by lia; lia).
    assert (Hss : wrap (B + j * SUPERSLAB_SIZE - 2 ^ i * 2 ^ SUPERSLAB_BITS)
                  = B + (j - 2 ^ i) * SUPERSLAB_SIZE).
    { rewrite SUPERSLAB_SIZE_pow by lia. apply wrap_eq; nia. }
    rewrite Hss. apply IH; lia.
Qed.

Lemma Pagemap_get_same_index (pm : gmap Z Z) p q :
  Pagemap_index p = Pagemap_index q → Pagemap_get pm p = Pagemap_get pm q.
Proof. unfold Pagemap_get. by intros ->. Qed.

Lemma Superslab_get_eq p :
  0 ≤ SUPERSLAB_BITS → Superslab_get p = Pagemap_index p * SUPERSLAB_SIZE.
Proof.
  intros. unfold Superslab_get. rewrite align_down_eq, Pagemap_index_div by lia.
  rewrite SUPERSLAB_SIZE_pow by lia. lia.
Qed.

(** C4: for a live allocation at base address [B] of allocated size [S]
    (a cell of a slab, a cell of a medium slab, or a large object) and every
    offset [0 ≤ i < S], [external_pointer<Start>(B+i)] returns [B] and
    [external_pointer<End>(B+i)] returns [B+S-1].  The loop over the
    redirects exits within 64 steps. *)
Theorem external_pointer_boundary (pm : gmap Z Z) (h : Heap) B S i (fuel : nat) :
  2 < SUPERSLAB_BITS → 0 ≤ SLAB_BITS ≤ SUPERSLAB_BITS →
  live pm h B S → 0 ≤ i < S → (64 ≤ fuel)%nat →
  external_pointer Start fuel pm h (B + i) = Some B ∧
  external_pointer End_ fuel pm h (B + i) = Some (B + S - 1).
Proof.
  intros Hb Hsb Hlive Hi Hfuel.
  assert (Hsz : 0 < 2 ^ SUPERSLAB_BITS) by (apply pow2_pos; lia).
  assert (Hslab : 0 < 2 ^ SLAB_BITS) by (apply pow2_pos; lia).
  destruct Hlive as [B sc Htag Hsc HS HB HE Hfit Hmod
                    |B sc Htag Hsc HS HB HE Hfit Hmod
                    |B k Hlay Hk HB Hfit Halign].
  - (* a cell of a slab *)
    rewrite SLAB_SIZE_pow in * by lia.
    assert (Hlo : Slab_get B ≤ B).
    { unfold Slab_get. rewrite align_down_eq by lia.
      pose proof (Z.mul_div_le B (2 ^ SLAB_BITS) Hslab). lia. }
    assert (Hsame : (B + i) / 2 ^ SLAB_BITS = B / 2 ^ SLAB_BITS).
    { apply align_down_same; [lia|]. fold (Slab_get B). lia. }
    assert (Hslab_eq : Slab_get (B + i) = Slab_get B).
    { unfold Slab_get. rewrite !align_down_eq by lia. by rewrite Hsame. }
    assert (Hidx : Pagemap_index (B + i) = Pagemap_index B).
    { rewrite !Pagemap_index_div by lia.
      apply (div_pow2_coarser _ _ SLAB_BITS); [lia|done]. }
    assert (Hsuper_eq : Superslab_get (B + i) = Superslab_get B).
    { rewrite !Superslab_get_eq by lia. by rewrite Hidx. }
    unfold external_pointer.
    rewrite (Pagemap_get_same_index pm _ B Hidx), Htag. simpl.
    rewrite Hsuper_eq, Hslab_eq, Hsc, SLAB_SIZE_pow by lia.
    split; f_equal; apply external_pointer_in_cell; auto.
  - (* a cell of a medium slab *)
    rewrite SUPERSLAB_SIZE_pow in * by lia.
    assert (Hlo : Superslab_get B ≤ B).
    { unfold Superslab_get. rewrite align_down_eq by lia.
      pose proof (Z.mul_div_le B (2 ^ SUPERSLAB_BITS) Hsz). lia. }
    assert (Hidx : Pagemap_index (B + i) = Pagemap_index B).
    { rewrite !Pagemap_index_div by lia.
      apply align_down_same; [lia|]. fold (Superslab_get B). lia. }
    assert (Hsuper_eq : Superslab_get (B + i) = Superslab_get B).
    { rewrite !Superslab_get_eq by lia. by rewrite Hidx. }
    unfold external_pointer.
    rewrite (Pagemap_get_same_index pm _ B Hidx), Htag. simpl.
    rewrite Hsuper_eq, Hsc, SUPERSLAB_SIZE_pow by lia.
    split; f_equal; apply external_pointer_in_cell; auto.
  - (* a large object *)
    assert (Hsplit : 2 ^ k = 2 ^ (k - SUPERSLAB_BITS) * 2 ^ SUPERSLAB_BITS).
    { rewrite <- Z.pow_add_r by lia. f_equal. lia. }
    rewrite SUPERSLAB_SIZE_pow in Halign by lia.
    apply Z.div_exact in Halign; [|lia].
    set (j := i / 2 ^ SUPERSLAB_BITS).
    assert (Hj : 0 ≤ j < 2 ^ (k - SUPERSLAB_BITS)).
    { split; [apply Z.div_pos; lia|]. apply Z.div_lt_upper_bound; lia. }
    assert (Hidx : Pagemap_index (B + i) = Pagemap_index (B + j * SUPERSLAB_SIZE)).
    { rewrite Pagemap_index_add by lia. rewrite !Pagemap_index_div by lia.
      rewrite Halign at 1. rewrite (Z.mul_comm (2 ^ SUPERSLAB_BITS)).
      rewrite Z.add_comm, Z.div_add by lia. fold j. lia. }
    assert (Hsuper : Superslab_get (B + i) = B + j * SUPERSLAB_SIZE).
    { rewrite Superslab_get_eq, Hidx, Pagemap_index_add by lia.
      rewrite Pagemap_index_div, SUPERSLAB_SIZE_pow by lia. lia. }
    assert (Hwalk : redirect_walk fuel pm (B + j * SUPERSLAB_SIZE)
              (Pagemap_get pm (B + j * SUPERSLAB_SIZE)) = Some (B, k)).
    { apply (redirect_walk_more_fuel (Z.to_nat (k - SUPERSLAB_BITS))); [lia|].
      apply redirect_walk_large; auto; try lia.
      rewrite Z2Nat.id by lia. lia. }
    assert (Htag : Pagemap_get pm (B + j * SUPERSLAB_SIZE) ≠ 1 ∧
                   Pagemap_get pm (B + j * SUPERSLAB_SIZE) ≠ 2).
    { destruct Hlay as [Hhead Hslide].
      destruct (Z.eq_dec j 0) as [E|Hj0].
      - rewrite E. replace (B + 0 * SUPERSLAB_SIZE) with B by lia. lia.
      - pose proof (Z.log2_spec j ltac:(lia)) as Hs.
        replace (Z.succ (Z.log2 j)) with (Z.log2 j + 1) in Hs by lia.
        pose proof (Z.log2_nonneg j).
        rewrite (Hslide (Z.log2 j) j); [lia| |done].
        split; [done|]. apply Z.log2_lt_pow2; lia. }
    unfold external_pointer.
    rewrite (Pagemap_get_same_index pm _ _ Hidx), Hsuper.
    unfold PMSuperslab, PMMediumslab.
    destruct (Z.eqb_spec (Pagemap_get pm (B + j * SUPERSLAB_SIZE)) 1); [lia|].
    destruct (Z.eqb_spec (Pagemap_get pm (B + j * SUPERSLAB_SIZE)) 2); [lia|].
    rewrite Hwalk.
    destruct (Z.eqb_spec k 0); [lia|].
    split; [done|]. f_equal.
    rewrite shiftl_1 by lia.
    assert (0 < 2 ^ k) by (apply pow2_pos; lia).
    assert (2 ^ k < 2 ^ 64) by (apply pow2_lt_mono; lia).
    rewrite (wrap_small (2 ^ k)) by lia. apply wrap_sub1. lia.
Qed.

(** What [large_alloc] returns is a live large object, when the large
    allocator hands out a superslab-aligned block inside the address space. *)
Lemma large_alloc_live (zero_mem : ZeroMem) (allow_reserve : AllowReserve) size
    (st st' : Allocator (Heap := Heap)) p :
  large_alloc zero_mem allow_reserve size st = Ret (p, st') →
  SUPERSLAB_BITS ≤ next_pow2_bits size < 64 → 0 ≤ SUPERSLAB_BITS →
  0 ≤ p → p + 2 ^ next_pow2_bits size ≤ 2 ^ 64 → p mod SUPERSLAB_SIZE = 0 →
  live (global_pagemap st') (heap st') p (2 ^ next_pow2_bits size).
Proof.
  unfold large_alloc, bind, large_allocator_alloc, modify, ret.
  destruct (LargeAlloc_alloc allow_reserve _ size (large_allocator st)) as [q la].
  intros [= -> <-] Hk Hb Hp Hfit Halign. simpl.
  apply live_large; auto.
  apply set_large_size_layout; auto. lia.
Qed.

(** C8: when the pagemap walk from [p] ends at tag [0],
    [external_pointer<Start>(p)] returns [0] and [external_pointer<End>(p)]
    returns the all-ones pointer; no path of [external_pointer] aborts. *)
Theorem external_pointer_not_ours (pm : gmap Z Z) (h : Heap) p (fuel : nat) ss :
  redirect_walk fuel pm (Superslab_get p) (Pagemap_get pm p) = Some (ss, 0) →
  external_pointer Start fuel pm h p = Some 0 ∧
  external_pointer End_ fuel pm h p = Some MAX_PTR.
Proof.
  intros Hwalk. unfold external_pointer.
  unfold PMSuperslab, PMMediumslab.
  destruct (Z.eqb_spec (Pagemap_get pm p) 1) as [E|_].
  { rewrite E in Hwalk. destruct fuel; simpl in Hwalk; congruence. }
  destruct (Z.eqb_spec (Pagemap_get pm p) 2) as [E|_].
  { rewrite E in Hwalk. destruct fuel; simpl in Hwalk; congruence. }
  rewrite Hwalk. simpl. done.
Qed.

End ExternalPointerProperties.

(** ** [RemoteCache::post] *)

Lemma bucket_insert_nil (l : list RemoteList) (i j : nat) :
  bucket (<[i := []]> l) j = if decide (i = j) then [] else bucket l j.
Proof.
  unfold bucket. case_decide as E.
  - subst j. destruct (decide (i < length l)%nat).
    + by rewrite list_lookup_insert_eq.
    + rewrite list_insert_ge by lia. rewrite lookup_ge_None_2 by lia. done.
  - by rewrite list_lookup_insert_ne.
Qed.

Lemma bucket_append_slot_elem (l : list RemoteList) (i j : nat) (x r : Remote) :
  r ∈ bucket (append_slot i x l) j → r ∈ bucket l j ∨ (r = x ∧ i = j).
Proof.
  unfold append_slot, bucket. destruct (decide (i = j)) as [->|Hne].
  - destruct (decide (j < length l)%nat).
    + rewrite list_lookup_insert_eq by done. simpl.
      rewrite elem_of_app, list_elem_of_singleton. tauto.
    + rewrite list_insert_ge by lia. tauto.
  - rewrite list_lookup_insert_ne by done. tauto.
Qed.

Section RemoteCacheProperties.
Context {cfg : Config} {Heap : Type} {eng : SlabEngine Heap}.

Lemma post_resend_elem shift (chain : RemoteList) (l : list RemoteList) (j : nat) r :
  r ∈ bucket (post_resend shift chain l) j →
  r ∈ bucket l j ∨ (r ∈ chain ∧ slot_of (r_target_id r) shift = j).
Proof.
  unfold post_resend. revert l. induction chain as [|x chain IH]; intros l; simpl.
  - tauto.
  - intros H. apply IH in H. destruct H as [H|[H1 H2]].
    + apply bucket_append_slot_elem in H. destruct H as [H|[-> H]].
      * by left.
      * right. split; [by left|done].
    + right. split; [by right|done].
Qed.

Lemma post_flush_bucket (n i my_slot : nat) (h : Heap) (l : list RemoteList) out
    (j : nat) :
  bucket (post_flush n i my_slot h l out).1 j =
  if decide ((i ≤ j < i + n)%nat ∧ j ≠ my_slot) then [] else bucket l j.
Proof.
  revert i l out. induction n as [|n IH]; intros i l out; simpl.
  - case_decide; [lia|done].
  - destruct (decide (i = my_slot)) as [->|Hne].
    + rewrite IH. repeat case_decide; try lia; done.
    + destruct (bucket l i) as [|first rest] eqn:Hb.
      * rewrite IH. repeat case_decide; try lia; try done.
        assert (j = i) as -> by lia. done.
      * rewrite IH, bucket_insert_nil. repeat case_decide; try lia; done.
Qed.

Lemma post_loop_flushed (fuel : nat) id shift (h : Heap) (l : list RemoteList) out
    l' out' :
  post_loop fuel id shift h l out = Some (l', out') →
  ∀ j : nat, (j < Z.to_nat REMOTE_SLOTS)%nat → bucket l' j = [].
Proof.
  revert shift l out. induction fuel as [|fuel IH]; intros shift l out; simpl; [done|].
  unfold post_iteration.
  destruct (post_flush (Z.to_nat REMOTE_SLOTS) 0 (slot_of id shift) h l out)
    as [l1 out1] eqn:Hflush.
  destruct (bucket l1 (slot_of id shift)) as [|r rest] eqn:Hmine.
  - intros [= <- <-] j Hj.
    destruct (decide (j = slot_of id shift)) as [->|Hne]; [done|].
    replace l1 with (post_flush (Z.to_nat REMOTE_SLOTS) 0 (slot_of id shift) h l out).1
      by (by rewrite Hflush).
    rewrite post_flush_bucket. rewrite decide_True; [done|lia].
  - apply IH.
Qed.




Lemma REMOTE_MASK_ones : 0 ≤ REMOTE_SLOT_BITS → REMOTE_MASK = Z.ones REMOTE_SLOT_BITS.
Proof.
  intros. unfold REMOTE_MASK, REMOTE_SLOTS. rewrite shiftl_1 by lia.
  rewrite Z.ones_equiv. lia.
Qed.

Lemma slot_of_spec a shift :
  0 < REMOTE_SLOT_BITS → 0 ≤ shift →
  Z.of_nat (slot_of a shift) = (a / 2 ^ shift) mod 2 ^ REMOTE_SLOT_BITS.
Proof.
  intros Hs Hshift. unfold slot_of.
  rewrite REMOTE_MASK_ones, Z.land_ones, Z.shiftr_div_pow2 by lia.
  apply Z2Nat.id. apply Z.mod_pos_bound. apply pow2_pos. lia.
Qed.

(** Two ids with the same low [shift] bits and the same next slice have the
    same low [shift + REMOTE_SLOT_BITS] bits. *)
Lemma same_slice_more_bits a b shift :
  0 < REMOTE_SLOT_BITS → 0 ≤ shift →
  a mod 2 ^ shift = b mod 2 ^ shift →
  slot_of a shift = slot_of b shift →
  a mod 2 ^ (shift + REMOTE_SLOT_BITS) = b mod 2 ^ (shift + REMOTE_SLOT_BITS).
Proof.
  intros Hs Hshift Hlow Hslot.
  assert (Hz : Z.of_nat (slot_of a shift) = Z.of_nat (slot_of b shift))
    by (by rewrite Hslot).
  rewrite !slot_of_spec in Hz by done.
  assert (0 < 2 ^ shift) by (apply pow2_pos; lia).
  assert (0 < 2 ^ REMOTE_SLOT_BITS) by (apply pow2_pos; lia).
  rewrite Z.pow_add_r by lia.
  rewrite !Z.rem_mul_r by lia. by rewrite Hlow, Hz.
Qed.

(** Once the bits examined cover every id, no node can be left. *)
Lemma discriminated_exhausted id bits b N (l : list RemoteList) :
  discriminated id bits l → targets_below N l →
  0 ≤ id < N → N ≤ 2 ^ b → 0 ≤ b ≤ bits →
  ∀ j : nat, bucket l j = [].
Proof.
  intros Hd Hbelow Hid HN Hb j.
  destruct (bucket l j) as [|r rest] eqn:Hj; [done|].
  assert (Hin : r ∈ bucket l j) by (rewrite Hj; by left).
  destruct (Hd j r Hin) as (Hne & Hagree & _).
  pose proof (Hbelow j r Hin) as Hr.
  assert (2 ^ b ≤ 2 ^ bits) by (apply pow2_le_mono; lia).
  rewrite !Z.mod_small in Hagree by lia. done.
Qed.

(** What one iteration of the loop of [post] does to a cache whose nodes
    agree with [id] on the low [shift] bits. *)
Lemma post_iteration_progress id shift (h : Heap) (l : list RemoteList) out :
  0 < REMOTE_SLOT_BITS < 64 → 0 ≤ shift < 64 →
  discriminated id shift l →
  match post_iteration id shift h l out with
  | (l', _, None) => ∀ j : nat, bucket l' j = []
  | (l', _, Some shift') =>
      shift' = shift + REMOTE_SLOT_BITS ∧
      discriminated id shift' l' ∧
      (∀ (i : nat) r, r ∈ bucket l' i → r ∈ bucket l (slot_of id shift))
  end.
Proof.
  intros Hs Hshift Hd. unfold post_iteration.
  set (my_slot := slot_of id shift).
  destruct (post_flush (Z.to_nat REMOTE_SLOTS) 0 my_slot h l out) as [l1 out1] eqn:Hflush.
  assert (Hl1 : ∀ j : nat,
            bucket l1 j = if decide (j = my_slot) then bucket l j else []).
  { intros j.
    replace l1 with (post_flush (Z.to_nat REMOTE_SLOTS) 0 my_slot h l out).1
      by (by rewrite Hflush).
    rewrite post_flush_bucket. repeat case_decide; try done; try lia.
    destruct (bucket l j) as [|r rest] eqn:Hj; [done|].
    assert (Hin : r ∈ bucket l j) by (rewrite Hj; by left).
    destruct (Hd j r Hin) as (_ & _ & Hslot).
    assert (Hlt : Z.of_nat j < 2 ^ REMOTE_SLOT_BITS).
    { rewrite <- Hslot, slot_of_spec by lia. apply Z.mod_pos_bound, pow2_pos. lia. }
    assert (Z.to_nat REMOTE_SLOTS = Z.to_nat (2 ^ REMOTE_SLOT_BITS)) as Hn
      by (unfold REMOTE_SLOTS; rewrite shiftl_1 by lia; done).
    lia. }
  destruct (bucket l1 my_slot) as [|r rest] eqn:Hmine.
  - intros j. rewrite Hl1. case_decide as E; [|done]. subst j.
    rewrite Hl1, decide_True in Hmine by done. done.
  - rewrite wrap_small by lia. split; [done|].
    assert (Hcleared : ∀ j : nat, bucket (<[my_slot := []]> l1) j = []).
    { intros j. rewrite bucket_insert_nil, Hl1. by repeat case_decide. }
    assert (Hfrom : ∀ (i : nat) x,
              x ∈ bucket (post_resend (shift + REMOTE_SLOT_BITS) (r :: rest)
                            (<[my_slot := []]> l1)) i →
              x ∈ bucket l my_slot ∧
              slot_of (r_target_id x) (shift + REMOTE_SLOT_BITS) = i).
    { intros i x Hx. apply post_resend_elem in Hx. destruct Hx as [Hx|[Hx Hslot]].
      - rewrite Hcleared in Hx. by apply elem_of_nil in Hx.
      - split; [|done]. rewrite Hl1, decide_True in Hmine by done. by rewrite Hmine. }
    split.
    + intros i x Hx. destruct (Hfrom i x Hx) as [Hin Hslot].
      destruct (Hd my_slot x Hin) as (Hne & Hagree & Hmy).
      repeat split; [done| |done].
      apply same_slice_more_bits; [lia|lia|done|]. by rewrite Hmy.
    + intros i x Hx. by destruct (Hfrom i x Hx).
Qed.

Lemma post_iteration_break id shift (h : Heap) (l : list RemoteList) out :
  bucket l (slot_of id shift) = [] →
  ∃ l' out', post_iteration id shift h l out = (l', out', None).
Proof.
  intros Hmine. unfold post_iteration.
  destruct (post_flush (Z.to_nat REMOTE_SLOTS) 0 (slot_of id shift) h l out)
    as [l1 out1] eqn:Hflush.
  replace l1 with (post_flush (Z.to_nat REMOTE_SLOTS) 0 (slot_of id shift) h l out).1
    by (by rewrite Hflush).
  rewrite post_flush_bucket, decide_False by tauto.
  rewrite Hmine. eauto.
Qed.

(** When the next slice completes the bits of the ids, the list of the
    allocator's own slot holds nothing. *)
Lemma own_slot_exhausted id shift b N (l : list RemoteList) :
  0 < REMOTE_SLOT_BITS → 0 ≤ shift →
  discriminated id shift l → targets_below N l →
  0 ≤ id < N → N ≤ 2 ^ b → 0 ≤ b ≤ shift + REMOTE_SLOT_BITS →
  bucket l (slot_of id shift) = [].
Proof.
  intros Hs Hshift Hd Hbelow Hid HN Hb.
  destruct (bucket l (slot_of id shift)) as [|r rest] eqn:Hj; [done|].
  assert (Hin : r ∈ bucket l (slot_of id shift)) by (rewrite Hj; by left).
  destruct (Hd _ r Hin) as (Hne & Hagree & Hslot).
  pose proof (Hbelow _ r Hin) as Hr.
  pose proof (same_slice_more_bits _ _ shift Hs Hshift Hagree Hslot) as Hmore.
  assert (2 ^ b ≤ 2 ^ (shift + REMOTE_SLOT_BITS)) by (apply pow2_le_mono; lia).
  rewrite !Z.mod_small in Hmore by lia. done.
Qed.

Lemma post_loop_terminates (n : nat) id shift b N (h : Heap) (l : list RemoteList) out :
  0 < REMOTE_SLOT_BITS < 64 → 0 ≤ shift →
  0 ≤ id < N → N ≤ 2 ^ b → 0 ≤ b ≤ 64 →
  (1 ≤ n)%nat → b ≤ shift + Z.of_nat n * REMOTE_SLOT_BITS →
  discriminated id shift l → targets_below N l →
  ∃ l' out', post_loop n id shift h l out = Some (l', out') ∧
             ∀ j : nat, bucket l' j = [].
Proof.
  intros Hs. revert shift l out.
  induction n as [|n IH]; intros shift l out Hshift Hid HN Hb Hn Hcover Hd Hbelow; [lia|].
  simpl. destruct (Z_lt_le_dec (shift + REMOTE_SLOT_BITS) b) as [Hlt|Hge].
  - pose proof (post_iteration_progress id shift h l out Hs ltac:(lia) Hd) as Hstep.
    destruct (post_iteration id shift h l out) as [[l1 out1] [shift'|]]; [|eauto].
    destruct Hstep as (-> & Hd' & Hfrom).
    apply IH; auto; try lia.
    intros i r Hr. apply (Hbelow (slot_of id shift)). by apply (Hfrom i).
  - assert (Hmine : bucket l (slot_of id shift) = []).
    { apply (own_slot_exhausted id shift b N); auto; lia. }
    destruct (post_iteration_break id shift h l out Hmine) as (l1 & out1 & Hit).
    destruct (Z_lt_le_dec shift 64) as [H64|H64].
    + pose proof (post_iteration_progress id shift h l out Hs ltac:(lia) Hd) as Hstep.
      rewrite Hit in *. eauto.
    + assert (Hnone : ∀ j : nat, bucket l j = []).
      { apply (discriminated_exhausted id shift b N); auto. lia. }
      rewrite Hit. do 2 eexists. split; [done|].
      revert Hit. unfold post_iteration.
      destruct (post_flush (Z.to_nat REMOTE_SLOTS) 0 (slot_of id shift) h l out)
        as [l2 out2] eqn:Hflush.
      assert (Hl2 : ∀ j : nat, bucket l2 j = []).
      { intros j.
        replace l2
          with (post_flush (Z.to_nat REMOTE_SLOTS) 0 (slot_of id shift) h l out).1
          by (by rewrite Hflush).
        rewrite post_flush_bucket, Hnone. by case_decide. }
      rewrite Hl2. intros [= <- <-]. done.
Qed.

(** [RemoteCache::dealloc] keeps the cache in the state [post] starts from,
    when the node is for another allocator. *)
Lemma RemoteCache_dealloc_discriminated id target p sizeclass (rc : RemoteCache) :
  target ≠ id → discriminated id 0 (rc_list rc) →
  discriminated id 0 (rc_list (RemoteCache_dealloc target p sizeclass rc)).
Proof.
  intros Hne Hd i r Hr. simpl in Hr.
  apply bucket_append_slot_elem in Hr. destruct Hr as [Hr|[-> Hi]].
  - by apply Hd.
  - simpl. by rewrite !Z.mod_1_r.
Qed.

Lemma empty_cache_discriminated id (n : nat) :
  discriminated id 0 (replicate n []).
Proof.
  intros i r Hr. unfold bucket in Hr.
  destruct (replicate n [] !! i) as [l|] eqn:Hl; simpl in Hr.
  - apply lookup_replicate in Hl. destruct Hl as [-> _]. by apply elem_of_nil in Hr.
  - by apply elem_of_nil in Hr.
Qed.

(** C10: after [post(id)] returns, every outgoing list is empty and the
    byte count [size] is [0], whatever the cache held before; and on the
    caches the allocator builds, [post] does return. *)
Theorem post_leaves_cache_flushed id (h : Heap) (rc : RemoteCache) :
  (∀ (fuel : nat) rc' out,
     RemoteCache_post fuel id h rc = Some (rc', out) →
     rc_size rc' = 0 ∧
     ∀ j : nat, (j < Z.to_nat REMOTE_SLOTS)%nat → bucket (rc_list rc') j = []) ∧
  (∀ N, 0 < REMOTE_SLOT_BITS < 64 → 1 < N ≤ 2 ^ 64 → 0 ≤ id < N →
     discriminated id 0 (rc_list rc) → targets_below N (rc_list rc) →
     ∃ (fuel : nat) rc' out, RemoteCache_post fuel id h rc = Some (rc', out)).
Proof.
  split.
  - intros fuel rc' out. unfold RemoteCache_post.
    destruct (post_loop fuel id 0 h (rc_list rc) []) as [[l o]|] eqn:Hloop; [|done].
    intros [= <- <-]. simpl. split; [done|].
    eapply post_loop_flushed. exact Hloop.
  - intros N Hs HN Hid Hd Hbelow.
    assert (Hb : 2 ^ Z.pred (Z.log2_up N) < N ≤ 2 ^ Z.log2_up N)
      by (apply Z.log2_up_spec; lia).
    assert (Hb0 : 0 < Z.log2_up N) by (apply Z.log2_up_pos; lia).
    assert (Hb64 : Z.log2_up N ≤ 64).
    { destruct (Z_lt_le_dec 64 (Z.log2_up N)) as [Hgt|]; [|done].
      assert (2 ^ 64 ≤ 2 ^ Z.pred (Z.log2_up N)) by (apply pow2_le_mono; lia). lia. }
    destruct (post_loop_terminates 64 id 0 (Z.log2_up N) N h (rc_list rc) [])
      as (l' & out' & Hloop & _); auto; try lia.
    exists 64%nat. unfold RemoteCache_post. rewrite Hloop. eauto.
Qed.

(** C5: [post(id)] terminates.  Each iteration either ends the loop with
    every list empty, or goes on with [REMOTE_SLOT_BITS] more bits of the
    target ids examined: the nodes still held agree with [id] on all the
    bits examined so far.  With the ids below [N], the number of allocators,
    the loop exits within [⌈log₂ N / REMOTE_SLOT_BITS⌉] iterations, with
    the list of the allocator's own slot, like every other, empty. *)
Theorem post_terminates N id (h : Heap) (rc : RemoteCache) :
  0 < REMOTE_SLOT_BITS < 64 → 1 < N ≤ 2 ^ 64 → 0 ≤ id < N →
  discriminated id 0 (rc_list rc) → targets_below N (rc_list rc) →
  (∀ shift (l : list RemoteList) out, 0 ≤ shift < 64 → discriminated id shift l →
     match post_iteration id shift h l out with
     | (l', _, None) => ∀ j : nat, bucket l' j = []
     | (l', _, Some shift') =>
         shift' = shift + REMOTE_SLOT_BITS ∧ discriminated id shift' l'
     end) ∧
  ∃ rc' out,
    RemoteCache_post
      (Z.to_nat ((Z.log2_up N + REMOTE_SLOT_BITS - 1) / REMOTE_SLOT_BITS)) id h rc
    = Some (rc', out) ∧
    ∀ j : nat, bucket (rc_list rc') j = [].
Proof.
  intros Hs HN Hid Hd Hbelow. split.
  - intros shift l out Hshift Hdl.
    pose proof (post_iteration_progress id shift h l out Hs Hshift Hdl) as Hstep.
    destruct (post_iteration id shift h l out) as [[l1 out1] [shift'|]]; [|done].
    tauto.
  - set (b := Z.log2_up N). set (s := REMOTE_SLOT_BITS) in *.
    assert (Hb : 2 ^ Z.pred b < N ≤ 2 ^ b) by (apply Z.log2_up_spec; lia).
    assert (Hb0 : 0 < b) by (apply Z.log2_up_pos; lia).
    assert (Hb64 : b ≤ 64).
    { destruct (Z_lt_le_dec 64 b) as [Hgt|]; [|done].
      assert (2 ^ 64 ≤ 2 ^ Z.pred b) by (apply pow2_le_mono; lia). lia. }
    set (K := (b + s - 1) / s).
    assert (HK : b ≤ K * s).
    { pose proof (Z.mod_pos_bound (b + s - 1) s ltac:(lia)).
      pose proof (Z.div_mod (b + s - 1) s ltac:(lia)). fold K in H0. nia. }
    assert (HK1 : 1 ≤ K) by nia.
    destruct (post_loop_terminates (Z.to_nat K) id 0 b N h (rc_list rc) [])
      as (l' & out' & Hloop & Hempty); auto; try lia.
    unfold RemoteCache_post. rewrite Hloop. eauto.
Qed.
End RemoteCacheProperties.

(** ** [small_dealloc] and the mailbox *)

Lemma DLList_remove_not_in x (l : list Z) : x ∉ DLList_remove x l.
Proof.
  unfold DLList_remove. rewrite list_elem_of_In, filter_In.
  intros [_ H]. apply negb_true_iff, Z.eqb_neq in H. done.
Qed.

Section MailboxProperties.
Context {cfg : Config} {Heap : Type} {eng : SlabEngine Heap}.

(** C7: when [small_dealloc] changes the status of the superslab, the
    superslab moves to the list of its new status: put on [super_available]
    when it becomes [Available] (and taken off [super_only_short_available]
    if it was there), put on [super_only_short_available] when only the
    short slab is free; when it becomes [Empty] it is taken off the list of
    available superslabs, all but its first page is decommitted exactly when
    [decommit_strategy] is [DecommitSuper], its pagemap entry is cleared and
    it is pushed on class 0 of the large allocator.  [Full] cannot be the
    new status: the code stops with "Unreachable". *)
Theorem small_dealloc_repositions (st : Allocator (Heap := Heap)) super p sizeclass
    sc' h' mp' :
  Slab_dealloc (Slab_get p) super p (small_class sizeclass st) (heap st) (provider st)
    = (StatusChange, sc', h', mp') →
  let was_full := Superslab_is_full (heap st) super in
  match Superslab_get_status h' super with
  | Full => small_dealloc super p sizeclass st = Abort "Unreachable"
  | Available =>
      ∃ st', small_dealloc super p sizeclass st = Ret (tt, st') ∧
        super_available st' = DLList_insert super (super_available st) ∧
        super_only_short_available st' =
          (if was_full then super_only_short_available st
           else DLList_remove super (super_only_short_available st))
  | OnlyShortSlabAvailable =>
      ∃ st', small_dealloc super p sizeclass st = Ret (tt, st') ∧
        super_only_short_available st' =
          DLList_insert super (super_only_short_available st) ∧
        super_available st' = super_available st
  | Empty =>
      ∃ st', small_dealloc super p sizeclass st = Ret (tt, st') ∧
        super_available st' = DLList_remove super (super_available st) ∧
        (super ∉ super_available st') ∧
        super_only_short_available st' = super_only_short_available st ∧
        mp_not_using (provider st') =
          mp_not_using mp' ++
          (if DecommitStrategy_eqb decommit_strategy DecommitSuper
           then [(wrap (super + OS_PAGE_SIZE), wrap (SUPERSLAB_SIZE - OS_PAGE_SIZE))]
           else []) ∧
        Pagemap_get (global_pagemap st') super = PMNotOurs ∧
        default [] (large_stack (large_allocator st') !! 0) =
          super :: default [] (large_stack (large_allocator st) !! 0)
  end.
Proof.
  intros Hdealloc was_full.
  unfold small_dealloc, bind, gets, call_slab_dealloc. rewrite Hdealloc. simpl.
  destruct (Superslab_get_status h' super) eqn:Hstatus.
  - done.
  - fold was_full. destruct was_full; simpl.
    + eexists. split; [done|]. simpl. done.
    + eexists. split; [done|]. simpl. done.
  - eexists. split; [done|]. simpl. done.
  - unfold modify, provider_notify_not_using, modify, ret.
    destruct (DecommitStrategy_eqb decommit_strategy DecommitSuper); simpl.
    + eexists. split; [done|]. simpl.
      repeat split; try done.
      * apply DLList_remove_not_in.
      * unfold Pagemap_get, clear_slab, Pagemap_set. by rewrite lookup_insert_eq.
      * by rewrite lookup_insert_eq.
    + eexists. split; [done|]. simpl.
      repeat split; try done.
      * apply DLList_remove_not_in.
      * by rewrite app_nil_r.
      * unfold Pagemap_get, clear_slab, Pagemap_set. by rewrite lookup_insert_eq.
      * by rewrite lookup_insert_eq.
Qed.

Lemma with_message_queue_id (st : Allocator (Heap := Heap)) :
  with_message_queue (message_queue st) st = st.
Proof. by destruct st. Qed.

(** The handlers of a message leave the mailbox alone. *)
Lemma small_dealloc_frame super p sizeclass q (st : Allocator (Heap := Heap)) :
  small_dealloc super p sizeclass (with_message_queue q st) =
  outcome_map (with_message_queue q) (small_dealloc super p sizeclass st).
Proof.
  unfold small_dealloc, bind, gets, call_slab_dealloc, modify,
    provider_notify_not_using, modify, ret, error. simpl.
  change (small_class sizeclass (with_message_queue q st))
    with (small_class sizeclass st).
  change (provider (with_message_queue q st)) with (provider st).
  destruct (Slab_dealloc (Slab_get p) super p (small_class sizeclass st) (heap st)
              (provider st))
    as [[[a sc] h] mp]. simpl.
  destruct a; simpl; try done.
  destruct (Superslab_get_status h super); simpl; try done.
  - destruct (Superslab_is_full (heap st) super); done.
  - destruct (DecommitStrategy_eqb decommit_strategy DecommitSuper); done.
Qed.

Lemma medium_dealloc_frame slab p sizeclass q (st : Allocator (Heap := Heap)) :
  medium_dealloc slab p sizeclass (with_message_queue q st) =
  outcome_map (with_message_queue q) (medium_dealloc slab p sizeclass st).
Proof.
  unfold medium_dealloc, bind, gets, modify, provider_notify_not_using,
    modify, ret, error.
  simpl.
  change (provider (with_message_queue q st)) with (provider st).
  destruct (Mediumslab_dealloc slab p (heap st) (provider st))
    as [[was_full h] mp]. simpl.
  destruct SNMALLOC_SAFE_CLIENT; simpl;
    repeat match goal with
           | |- context [if ?b then _ else _] => destruct b; simpl
           end; done.
Qed.

Lemma dispatch_frame p q (st : Allocator (Heap := Heap)) :
  dispatch_as_specified p (with_message_queue q st) =
  outcome_map (with_message_queue q) (dispatch_as_specified p st).
Proof.
  unfold dispatch_as_specified. simpl.
  change (get_id (with_message_queue q st)) with (get_id st).
  destruct (r_addr p =? stub st); [done|].
  destruct (r_target_id p =? get_id st); [|done].
  destruct (r_sizeclass p <? NUM_SMALL_CLASSES).
  - apply small_dealloc_frame.
  - apply medium_dealloc_frame.
Qed.

(** [RemoteCache::dealloc] with the header of a node enqueues the node. *)
Lemma RemoteCache_dealloc_enqueues (p : Remote) (rc : RemoteCache) :
  RemoteCache_dealloc (r_target_id p) (r_addr p) (r_sizeclass p) rc
  = enqueue_as_specified p rc.
Proof.
  destruct p as [addr target sizeclass].
  unfold RemoteCache_dealloc, enqueue_as_specified, append_slot, slot_of, bucket.
  cbn [r_addr r_target_id r_sizeclass]. by rewrite Z.shiftr_0_r.
Qed.

Lemma enqueue_slot_lt (target : Z) :
  0 ≤ REMOTE_SLOT_BITS →
  (Z.to_nat (Z.land target REMOTE_MASK) < Z.to_nat REMOTE_SLOTS)%nat.
Proof.
  intros Hs. rewrite REMOTE_MASK_ones, Z.land_ones by lia.
  unfold REMOTE_SLOTS. rewrite shiftl_1 by lia.
  assert (0 < 2 ^ REMOTE_SLOT_BITS) by (apply pow2_pos; lia).
  pose proof (Z.mod_pos_bound target (2 ^ REMOTE_SLOT_BITS)). lia.
Qed.

Lemma handle_dealloc_remote_dispatch p (st : Allocator (Heap := Heap)) :
  handle_dealloc_remote p st = dispatch_as_specified p st.
Proof.
  unfold handle_dealloc_remote, dispatch_as_specified, bind, gets, modify, ret. simpl.
  destruct (r_addr p =? stub st); [done|]. simpl.
  destruct (r_target_id p =? get_id st).
  - by destruct (r_sizeclass p <? NUM_SMALL_CLASSES).
  - by rewrite RemoteCache_dealloc_enqueues.
Qed.

(** The loop pops the first [n] nodes, or all of them when there are fewer,
    and handles them in order. *)
Lemma handle_message_queue_loop_batch (n : nat) (st : Allocator (Heap := Heap)) :
  handle_message_queue_loop n st =
  dispatch_all (firstn n (message_queue st))
    (with_message_queue (skipn n (message_queue st)) st).
Proof.
  revert st. induction n as [|n IH]; intros st.
  - rewrite take_0, drop_0. cbn [handle_message_queue_loop dispatch_all].
    by rewrite with_message_queue_id.
  - cbn [handle_message_queue_loop]. unfold bind at 1. unfold message_queue_pop.
    destruct (message_queue st) as [|r rest] eqn:Hq.
    + rewrite take_nil, drop_nil. cbn [dispatch_all]. rewrite <- Hq.
      by rewrite with_message_queue_id.
    + rewrite firstn_cons, skipn_cons. cbn [dispatch_all]. unfold bind.
      rewrite handle_dealloc_remote_dispatch, !dispatch_frame.
      destruct (dispatch_as_specified r st) as [[[] st2]| | |]; simpl; try done.
      rewrite IH. done.
Qed.

Lemma dispatch_all_queue (nodes : list Remote) q (st st' : Allocator (Heap := Heap)) :
  dispatch_all nodes (with_message_queue q st) = Ret (tt, st') →
  message_queue st' = q.
Proof.
  revert st. induction nodes as [|p nodes IH]; intros st; cbn [dispatch_all].
  - intros [= <-]. done.
  - unfold bind. rewrite dispatch_frame.
    destruct (dispatch_as_specified p st) as [[[] st2]| | |]; simpl; try done.
    apply IH.
Qed.

Lemma remote_post_queue (fuel : nat) (st st' : Allocator (Heap := Heap)) :
  remote_post fuel st = Ret (tt, st') → message_queue st' = message_queue st.
Proof.
  unfold remote_post.
  destruct (RemoteCache_post fuel (get_id st) (heap st) (remote st)) as [[rc out]|];
    [|done].
  intros [= <-]. done.
Qed.

(** C6: [handle_message_queue] on a non-empty mailbox pops the first
    [REMOTE_BATCH] nodes (all of them when there are fewer), gives each node
    that is not the stub to [small_dealloc] or [medium_dealloc] by its size
    class when its target is this allocator and enqueues it in the outgoing
    cache otherwise, and then posts exactly when the size of the cache has
    reached [REMOTE_CACHE]: it is the function the specification
    describes, in which the enqueueing and the posting are written out.
    The mailbox afterwards is the old one without its first [REMOTE_BATCH]
    nodes.  And the handling of a node for another allocator does put it in
    the cache: the node becomes the last of the list
    [target_id & REMOTE_MASK], which held what it holds now in front of it,
    every other list is as before, the byte count has grown by the size of
    the node's class, and nothing but the cache has changed. *)
Theorem handle_message_queue_drains (fuel : nat) (st : Allocator (Heap := Heap)) :
  handle_message_queue fuel st = handle_message_queue_as_specified fuel st ∧
  (∀ st', handle_message_queue fuel st = Ret (tt, st') →
          message_queue st' = skipn (Z.to_nat REMOTE_BATCH) (message_queue st)) ∧
  (∀ (p : Remote) (s : Allocator (Heap := Heap)),
     r_addr p ≠ stub s → r_target_id p ≠ get_id s →
     0 ≤ REMOTE_SLOT_BITS →
     length (rc_list (remote s)) = Z.to_nat REMOTE_SLOTS →
     let slot := Z.to_nat (Z.land (r_target_id p) REMOTE_MASK) in
     ∃ s', handle_dealloc_remote p s = Ret (tt, s') ∧
       rc_list (remote s') !! slot
         = Some (default [] (rc_list (remote s) !! slot) ++ [p]) ∧
       (∀ j : nat, j ≠ slot → rc_list (remote s') !! j = rc_list (remote s) !! j) ∧
       rc_size (remote s')
         = wrap (rc_size (remote s) + sizeclass_to_size (r_sizeclass p)) ∧
       with_remote (remote s) s' = s).
Proof.
  assert (Heq : handle_message_queue fuel st = handle_message_queue_as_specified fuel st).
  { unfold handle_message_queue, handle_message_queue_as_specified, bind at 1, gets.
    destruct (message_queue st) as [|r rest] eqn:Hq; [done|].
    unfold handle_message_queue_inner, bind.
    rewrite handle_message_queue_loop_batch, Hq.
    destruct (dispatch_all _ _) as [[[] st']| | |]; try done.
    unfold gets, ret, remote_post. rewrite Z.ltb_antisym.
    by destruct (REMOTE_CACHE <=? rc_size (remote st')). }
  split; [exact Heq|]. split.
  - intros st'. rewrite Heq. unfold handle_message_queue_as_specified.
    destruct (message_queue st) as [|r rest] eqn:Hq.
    + intros [= <-]. rewrite Hq. by rewrite drop_nil.
    + destruct (dispatch_all _ _) as [[[] st1]| | |] eqn:Hall; try done.
      apply dispatch_all_queue in Hall.
      destruct (REMOTE_CACHE <=? rc_size (remote st1)); [|by intros [= <-]].
      destruct (RemoteCache_post _ _ _ _) as [[rc out]|]; [|done].
      by intros [= <-].
  - intros p s Hstub Htarget Hbits Hlen slot.
    exists (with_remote
              (RemoteCache_dealloc (r_target_id p) (r_addr p) (r_sizeclass p) (remote s))
              s).
    assert (Hslot : (slot < length (rc_list (remote s)))%nat)
      by (rewrite Hlen; by apply enqueue_slot_lt).
    split; [|split; [|split; [|split]]].
    + unfold handle_dealloc_remote, bind, gets, modify, ret.
      destruct (Z.eqb_spec (r_addr p) (stub s)); [done|]. cbn [negb].
      by destruct (Z.eqb_spec (r_target_id p) (get_id s)).
    + rewrite RemoteCache_dealloc_enqueues. cbn.
      by rewrite list_lookup_insert_eq.
    + intros j Hj. rewrite RemoteCache_dealloc_enqueues. cbn.
      by rewrite list_lookup_insert_ne.
    + done.
    + by destruct s.
Qed.

End MailboxProperties.

(** ** Null results and the checks of [dealloc] *)

Section AllocatorProperties.
Context {cfg : Config} {Heap : Type} {eng : SlabEngine Heap}.

Lemma large_dealloc_no_abort p size (st : Allocator (Heap := Heap)) msg :
  large_dealloc p size st ≠ Abort msg.
Proof.
  unfold large_dealloc, bind, modify, provider_notify_not_using, modify, ret, deref.
  simpl.
  destruct (negb (DecommitStrategy_eqb decommit_strategy DecommitNone)
            || (wrap (next_pow2_bits size - SUPERSLAB_BITS) >? 0)); simpl;
    destruct (p =? 0); done.
Qed.

Lemma medium_dealloc_abort slab p sizeclass (st : Allocator (Heap := Heap)) msg :
  medium_dealloc slab p sizeclass st = Abort msg →
  SNMALLOC_SAFE_CLIENT = false ∧
  is_multiple_of_sizeclass (sizeclass_to_size sizeclass)
    (wrap (wrap (slab + SUPERSLAB_SIZE) - p)) = false ∧
  msg = "Not deallocating start of an object"%string.
Proof.
  unfold medium_dealloc, bind, gets, modify, provider_notify_not_using,
    modify, ret, error.
  destruct (Mediumslab_dealloc slab p (heap st) (provider st))
    as [[was_full h] mp]. simpl.
  destruct SNMALLOC_SAFE_CLIENT eqn:Hsafe; simpl.
  - repeat match goal with
           | |- context [if ?b then _ else _] => destruct b; simpl
           end; discriminate.
  - destruct (is_multiple_of_sizeclass _ _) eqn:Hmul; simpl.
    + repeat match goal with
             | |- context [if ?b then _ else _] => destruct b; simpl
             end; discriminate.
    + intros [= <-]. done.
Qed.

(** C2, as amended: the "must be start of object" checks are compiled in
    when [SNMALLOC_SAFE_CLIENT] is not defined.  Then [dealloc(p)] on the
    large path is fatal when the pagemap entry is a redirect or [p] is not
    the start of its superslab, and [medium_dealloc] is fatal when the
    distance from [p] to the end of the slab is not a multiple of the class
    size.  When [SNMALLOC_SAFE_CLIENT] is defined neither check is made and
    neither call is fatal. *)
Theorem start_of_object_checks (fuel : nat) (st : Allocator (Heap := Heap)) p slab q
    sizeclass :
  let size := Pagemap_get (global_pagemap st) p in
  message_queue st = [] →
  size ≠ 0 → size ≠ PMSuperslab → size ≠ PMMediumslab →
  (SNMALLOC_SAFE_CLIENT = false →
     dealloc fuel p st =
       if (size >? 64) || negb (Superslab_get p =? p)
       then Abort "Not deallocating start of an object"
       else large_dealloc p (wrap (1 ≪ size)) st) ∧
  (SNMALLOC_SAFE_CLIENT = true →
     dealloc fuel p st = large_dealloc p (wrap (1 ≪ size)) st ∧
     ∀ msg, dealloc fuel p st ≠ Abort msg) ∧
  (SNMALLOC_SAFE_CLIENT = false →
     is_multiple_of_sizeclass (sizeclass_to_size sizeclass)
       (wrap (wrap (slab + SUPERSLAB_SIZE) - q)) = false →
     medium_dealloc slab q sizeclass st = Abort "Not deallocating start of an object") ∧
  (SNMALLOC_SAFE_CLIENT = true →
     ∀ msg, medium_dealloc slab q sizeclass st ≠ Abort msg).
Proof.
  intros size Hq H0 H1 H2.
  assert (Hdealloc : dealloc fuel p st =
    if negb SNMALLOC_SAFE_CLIENT then
      if (size >? 64) || negb (Superslab_get p =? p)
      then Abort "Not deallocating start of an object"
      else large_dealloc p (wrap (1 ≪ size)) st
    else large_dealloc p (wrap (1 ≪ size)) st).
  { unfold dealloc, bind at 1. unfold handle_message_queue, bind at 1, gets at 1.
    rewrite Hq. unfold ret at 1. unfold bind at 1, gets at 1. fold size.
    unfold bind at 1.
    destruct (Z.eqb_spec size 0); [done|]. unfold ret at 1.
    destruct (Z.eqb_spec size PMSuperslab); [done|].
    destruct (Z.eqb_spec size PMMediumslab); [done|].
    unfold bind at 1.
    destruct (negb SNMALLOC_SAFE_CLIENT); [|done].
    destruct ((size >? 64) || negb (Superslab_get p =? p)); done. }
  repeat split.
  - intros Hsafe. by rewrite Hdealloc, Hsafe.
  - rewrite Hdealloc, H. done.
  - intros msg. rewrite Hdealloc, H. apply large_dealloc_no_abort.
  - intros Hsafe Hmul.
    unfold medium_dealloc, bind, gets, modify, provider_notify_not_using,
    modify, ret, error.
    destruct (Mediumslab_dealloc slab q (heap st) (provider st)) as [[was_full h] mp].
    rewrite Hsafe. simpl. by rewrite Hmul.
  - intros Hsafe msg Habort. apply medium_dealloc_abort in Habort.
    destruct Habort as [Hfalse _]. congruence.
Qed.

Lemma with_large_allocator_id (st : Allocator (Heap := Heap)) :
  with_large_allocator (large_allocator st) st = st.
Proof. by destruct st. Qed.

Lemma get_superslab_no_reserve (st : Allocator (Heap := Heap)) :
  super_available st = [] →
  default [] (large_stack (large_allocator st) !! 0) = [] →
  get_superslab NoReserve st = Ret (0, st).
Proof.
  intros Hav Hstack.
  unfold get_superslab, bind, gets, large_allocator_alloc, LargeAlloc_alloc, ret.
  rewrite Hav. simpl. rewrite Hstack. simpl. by rewrite with_large_allocator_id.
Qed.

(** C3, as amended: with [NoReserve] and nothing cached, [get_superslab]
    returns null and leaves the allocator as it was, and [alloc] returns
    null without a call to the memory provider.  With [YesReserve] the code
    makes no null check: when the memory provider has nothing to give,
    [get_superslab] reaches through the null pointer. *)
Theorem no_reserve_returns_null (zero_mem : ZeroMem) (fuel : nat) size
    (st : Allocator (Heap := Heap)) :
  no_cached_memory st → message_queue st = [] →
  get_superslab NoReserve st = Ret (0, st) ∧
  (∃ st', alloc zero_mem NoReserve fuel size st = Ret (0, st') ∧
          mp_reserve_calls (provider st') = mp_reserve_calls (provider st)) ∧
  (mp_fresh (provider st) = [] → get_superslab YesReserve st = NullDeref).
Proof.
  intros (Hav & Hshort & Hsmall & Hmedium & Hlarge) Hq.
  split; [|split].
  - by apply get_superslab_no_reserve.
  - unfold alloc, bind at 1. unfold handle_message_queue, bind at 1, gets at 1.
    rewrite Hq. unfold ret at 1.
    destruct (size_to_sizeclass size <? NUM_SMALL_CLASSES).
    + unfold small_alloc, bind at 1, gets at 1. rewrite Hsmall.
      unfold alloc_slab.
      destruct (Superslab_is_short_sizeclass (size_to_sizeclass size)).
      * unfold bind, DLList_pop. rewrite Hshort. simpl.
        rewrite get_superslab_no_reserve by (simpl; auto). simpl.
        eexists. split; [done|]. done.
      * unfold bind. rewrite get_superslab_no_reserve by auto. simpl.
        eexists. split; [done|]. done.
    + destruct (size_to_sizeclass size <? NUM_SIZECLASSES).
      * unfold medium_alloc, bind, gets, large_allocator_alloc, LargeAlloc_alloc, ret.
        rewrite Hmedium. simpl. rewrite Hlarge. simpl.
        eexists. split; [done|]. done.
      * unfold large_alloc, bind, gets, large_allocator_alloc, LargeAlloc_alloc,
          modify, ret.
        rewrite Hlarge. simpl.
        eexists. split; [done|]. done.
  - intros Hfresh.
    unfold get_superslab, bind, gets, large_allocator_alloc, LargeAlloc_alloc, ret, deref.
    rewrite Hav. simpl. rewrite Hlarge. unfold reserve.
    unfold provider in Hfresh. rewrite Hfresh. simpl. done.
Qed.
End AllocatorProperties.

(** ** Size classes *)

Section SizeclassProperties.
Context {cfg : Config} {Heap : Type} {eng : SlabEngine Heap}.

(** On an increasing table the scan stops at the number of classes that are
    too small. *)
Lemma sizeclass_scan_rank n (t : list Z) c :
  StronglySorted Z.lt t →
  sizeclass_scan n t c = c + Z.of_nat (length (List.filter (fun sz => sz <? n) t)).
Proof.
  intros Hs. revert c. induction Hs as [|sz t Hs IH Hall]; intros c; simpl; [lia|].
  destruct (Z.leb_spec n sz) as [Hle|Hgt].
  - destruct (Z.ltb_spec sz n); [lia|].
    assert (Hnone : List.filter (fun sz => sz <? n) t = []).
    { clear IH Hs. induction t as [|x t IHt]; [done|]. simpl.
      inversion Hall as [|? ? Hx Ht]; subst.
      destruct (Z.ltb_spec x n); [lia|]. by apply IHt. }
    rewrite Hnone. simpl. lia.
  - destruct (Z.ltb_spec sz n); [|lia]. rewrite IH. simpl. lia.
Qed.

(** When some class is large enough, the scan stops at a class, and that
    class is large enough. *)
Lemma sizeclass_scan_fits n (t : list Z) c :
  (∃ sz, In sz t ∧ n ≤ sz) →
  ∃ (k : nat) sz, sizeclass_scan n t c = c + Z.of_nat k ∧
                  t !! k = Some sz ∧ n ≤ sz.
Proof.
  revert c. induction t as [|x t IH]; intros c [sz [Hin Hle]]; [done|]. simpl.
  destruct (Z.leb_spec n x) as [Hx|Hx].
  - exists O, x. split; [lia|]. done.
  - destruct Hin as [->|Hin]; [lia|].
    destruct (IH (c + 1) (ex_intro _ sz (conj Hin Hle))) as (k & sz' & Hscan & Hk & Hsz').
    exists (S k), sz'. split; [lia|]. done.
Qed.

(** Scanning for the size of a class stops at that class. *)
Lemma sizeclass_scan_class (t : list Z) (k : nat) sz c :
  StronglySorted Z.lt t → t !! k = Some sz →
  sizeclass_scan sz t c = c + Z.of_nat k.
Proof.
  intros Hs. revert k c. induction Hs as [|x t Hs IH Hall]; intros k c Hk; [done|].
  simpl. destruct k as [|k]; simpl in Hk.
  - injection Hk as ->. destruct (Z.leb_spec sz sz); lia.
  - assert (x < sz).
    { rewrite Forall_forall in Hall. apply Hall.
      apply list_elem_of_lookup. eauto. }
    destruct (Z.leb_spec sz x); [lia|]. rewrite (IH k) by done. lia.
Qed.

Lemma maxsize_in_table : sizeclass_table ≠ [] → In maxsize sizeclass_table.
Proof.
  unfold maxsize. intros Hne. destruct (exists_last Hne) as (t & x & ->).
  rewrite last_last. apply in_or_app. right. by left.
Qed.

(** C9: for every size [0 < s ≤ maxsize],
    [sizeclass_to_size (size_to_sizeclass s) ≥ s], the class of that size is
    the class of [s] again, and [size_to_sizeclass_const] agrees with
    [size_to_sizeclass] on [s]. *)
Theorem sizeclass_round_trip s :
  StronglySorted Z.lt sizeclass_table →
  (length sizeclass_table < 256)%nat →
  0 < s ≤ maxsize →
  s ≤ sizeclass_to_size (size_to_sizeclass s) ∧
  size_to_sizeclass (sizeclass_to_size (size_to_sizeclass s)) = size_to_sizeclass s ∧
  size_to_sizeclass_const s = size_to_sizeclass s.
Proof.
  intros Hsorted Hlen Hs.
  assert (Hne : sizeclass_table ≠ []).
  { intros E. unfold maxsize in Hs. rewrite E in Hs. simpl in Hs. lia. }
  destruct (sizeclass_scan_fits s sizeclass_table 0) as (k & sz & Hscan & Hk & Hsz).
  { exists maxsize. split; [by apply maxsize_in_table|lia]. }
  assert (Hklen : (k < length sizeclass_table)%nat) by (eapply lookup_lt_Some; eauto).
  assert (Hclass : size_to_sizeclass s = Z.of_nat k).
  { unfold size_to_sizeclass. rewrite Hscan. apply u8_small. lia. }
  assert (Hsize : sizeclass_to_size (Z.of_nat k) = sz).
  { unfold sizeclass_to_size. rewrite Nat2Z.id, Hk. done. }
  split; [|split].
  - rewrite Hclass, Hsize. done.
  - rewrite Hclass, Hsize. unfold size_to_sizeclass.
    rewrite (sizeclass_scan_class _ k) by done. apply u8_small. lia.
  - unfold size_to_sizeclass_const, size_to_sizeclass.
    rewrite sizeclass_scan_rank by done. done.
Qed.

(** The loop of the constructor finds nothing to report on an increasing
    table whose classes above [NUM_SMALL_CLASSES] are multiples of the page
    size. *)
Lemma constructor_sizeclass_check_passes :
  StronglySorted Z.lt sizeclass_table →
  (length sizeclass_table < 256)%nat →
  (∀ (k : nat) sz, NUM_SMALL_CLASSES < Z.of_nat k →
     sizeclass_table !! k = Some sz → sz mod OS_PAGE_SIZE = 0) →
  constructor_sizeclass_check = true.
Proof.
  intros Hsorted Hlen Hpages. unfold constructor_sizeclass_check.
  apply forallb_forall. intros i Hi.
  apply in_map_iff in Hi. destruct Hi as (k & <- & Hk).
  apply in_seq in Hk.
  destruct (lookup_lt_is_Some_2 sizeclass_table k ltac:(lia)) as [sz Hsz].
  assert (Hsize : sizeclass_to_size (Z.of_nat k) = sz).
  { unfold sizeclass_to_size. rewrite Nat2Z.id, Hsz. done. }
  assert (Hclass : size_to_sizeclass sz = Z.of_nat k).
  { unfold size_to_sizeclass. rewrite (sizeclass_scan_class _ k) by done.
    apply u8_small. lia. }
  assert (Hconst : size_to_sizeclass_const sz = Z.of_nat k).
  { rewrite <- Hclass. unfold size_to_sizeclass_const, size_to_sizeclass.
    rewrite sizeclass_scan_rank by done. done. }
  cbv zeta. rewrite Hsize, Hclass, Hconst, Hsize.
  rewrite !Z.eqb_refl, !andb_true_r.
  destruct (Z.gtb_spec (Z.of_nat k) NUM_SMALL_CLASSES) as [Hmedium|_]; [|done].
  unfold is_aligned_block. rewrite Zmod_0_l, (Hpages k sz) by (lia || done).
  done.
Qed.

(** On the table of [example_config] the loop passes; on a table whose last
    class is not a multiple of the page size its first assertion fails. *)
Example constructor_sizeclass_check_pages :
  constructor_sizeclass_check (cfg := example_config) = true ∧
  constructor_sizeclass_check (cfg := unaligned_config) = false.
Proof. split; reflexivity. Qed.

End SizeclassProperties.

(** * The theorems on concrete states *)

(** The pagemap after [set_large_size] for 64 MiB at [2^30], from the slot
    before the head to the slot after the last. *)
Example set_large_size_64MiB :
  map (fun j => Pagemap_get (cfg := example_config)
                  (set_large_size (cfg := example_config) (2 ^ 30) (2 ^ 26) ∅)
                  (2 ^ 30 + j * 2 ^ 24))
      [-1; 0; 1; 2; 3; 4]
  = [0; 26; 88; 89; 89; 0].
Proof. reflexivity. Qed.

(** The 17 MiB object: its size as [alloc_size] reports it. *)
Example alloc_size_17MiB :
  alloc_size (cfg := example_config) (eng := scripted_engine)
    (global_pagemap large_object_state) example_heap (2 ^ 30)
  = Ret (32 * 2 ^ 20).
Proof. reflexivity. Qed.

(** A 48-byte cell, the third from the end of the slab at [2^24 + 2^16]: it
    is live, and [external_pointer] finds its two ends from its last byte. *)
Example external_pointer_small_cell :
  let pm := set_slab_super (cfg := example_config) (2 ^ 24) ∅ in
  let B := 2 ^ 24 + 2 * 2 ^ 16 - 3 * 48 in
  live (cfg := example_config) (eng := scripted_engine) pm example_heap B 48 ∧
  external_pointer (cfg := example_config) (eng := scripted_engine)
    Start 0 pm example_heap (B + 47) = Some B ∧
  external_pointer (cfg := example_config) (eng := scripted_engine)
    End_ 0 pm example_heap (B + 47) = Some (B + 47).
Proof.
  split; [|split; reflexivity].
  apply (live_small (cfg := example_config) (eng := scripted_engine) _ _ _ 2);
    vm_compute; congruence.
Qed.

(** A 4 KiB cell of the medium slab at [2^25], the second from its end. *)
Example external_pointer_medium_cell :
  let pm := set_slab_medium (cfg := example_config) (2 ^ 25) ∅ in
  let h := Scripted_medium_used 2
             {| s_owner := 4096; s_sizeclass := 4; s_status := Available;
                s_next := (NoSlabReturn, Available); s_cell := 0;
                s_medium_used := 0; s_medium_cells := 4 |} in
  let B := 2 ^ 25 + 2 ^ 24 - 2 * 4096 in
  live (cfg := example_config) (eng := scripted_engine) pm h B 4096 ∧
  external_pointer (cfg := example_config) (eng := scripted_engine)
    Start 0 pm h (B + 100) = Some B ∧
  external_pointer (cfg := example_config) (eng := scripted_engine)
    End_ 0 pm h (B + 100) = Some (B + 4095).
Proof.
  split; [|split; reflexivity].
  apply (live_medium (cfg := example_config) (eng := scripted_engine) _ _ _ 4);
    vm_compute; congruence.
Qed.

(** [post] on [example_cache], for the allocator with id [5]: the targets of
    the chains pushed, in the order of the pushes, over three iterations. *)
Example post_example_cache :
  match RemoteCache_post (cfg := example_config) (eng := scripted_engine)
          3 5 example_heap example_cache with
  | Some (rc, out) =>
      rc = {| rc_size := 0; rc_list := [[]; []; []; []] |} ∧
      map (fun chain => map r_target_id chain.2) out
      = [[4]; [2; 6]; [3; 7]; [1]; [9]; [13]; [21]; [37]]
  | None => False
  end.
Proof. vm_compute. split; reflexivity. Qed.

(** Two iterations are not enough for it. *)
Example post_example_cache_two_iterations :
  RemoteCache_post (cfg := example_config) (eng := scripted_engine)
    2 5 example_heap example_cache = None.
Proof. reflexivity. Qed.

(** C1 at 64 MiB: the slot three superslabs after the head holds [89]. *)
Lemma set_large_size_redirect_slide_witness :
  (0 ≤ 24 ≤ 26 ∧ 0 ≤ 2 ^ 30 ∧ 2 ^ 30 + 2 ^ 26 ≤ 2 ^ 64) ∧
  Pagemap_get (cfg := example_config)
    (set_large_size (cfg := example_config) (2 ^ 30) (2 ^ 26) ∅) (2 ^ 30 + 3 * 2 ^ 24)
  = 64 + 1 + 24.
Proof.
  split; [lia|].
  apply (set_large_size_redirect_slide (cfg := example_config) (2 ^ 30) (2 ^ 26) ∅);
    vm_compute; try split; congruence.
Defined.

(** C4 on the 17 MiB object: from 20 MiB inside it, the start is its base
    and the end is the last byte of its 32 MiB. *)
Lemma external_pointer_boundary_witness :
  live (cfg := example_config) (eng := scripted_engine)
    (global_pagemap large_object_state) example_heap (2 ^ 30) (2 ^ 25) ∧
  external_pointer (cfg := example_config) (eng := scripted_engine) Start 64
    (global_pagemap large_object_state) example_heap (2 ^ 30 + 20 * 2 ^ 20)
  = Some (2 ^ 30) ∧
  external_pointer (cfg := example_config) (eng := scripted_engine) End_ 64
    (global_pagemap large_object_state) example_heap (2 ^ 30 + 20 * 2 ^ 20)
  = Some (2 ^ 30 + 2 ^ 25 - 1).
Proof.
  assert (Hlive : live (cfg := example_config) (eng := scripted_engine)
            (global_pagemap large_object_state) example_heap (2 ^ 30) (2 ^ 25)).
  { apply (live_large (cfg := example_config) _ _ (2 ^ 30) 25).
    - apply (set_large_size_layout (cfg := example_config) (2 ^ 30) (17 * 2 ^ 20) ∅);
        vm_compute; try split; congruence.
    - vm_compute. split; congruence.
    - lia.
    - lia.
    - reflexivity. }
  split; [exact Hlive|].
  apply (external_pointer_boundary (cfg := example_config) (eng := scripted_engine)
           _ _ (2 ^ 30) (2 ^ 25) (20 * 2 ^ 20) 64%nat).
  - vm_compute. reflexivity.
  - vm_compute. split; congruence.
  - exact Hlive.
  - lia.
  - lia.
Defined.

(** C8 on an empty pagemap. *)
Lemma external_pointer_not_ours_witness :
  redirect_walk (cfg := example_config) 0 ∅
    (Superslab_get (cfg := example_config) 123456789)
    (Pagemap_get (cfg := example_config) ∅ 123456789)
  = Some (117440512, 0) ∧
  external_pointer (cfg := example_config) (eng := scripted_engine) Start 0 ∅
    example_heap 123456789 = Some 0 ∧
  external_pointer (cfg := example_config) (eng := scripted_engine) End_ 0 ∅
    example_heap 123456789 = Some MAX_PTR.
Proof.
  split; [reflexivity|].
  apply (external_pointer_not_ours (cfg := example_config) (eng := scripted_engine)
           ∅ example_heap 123456789 0%nat 117440512).
  reflexivity.
Defined.

(** The nodes of [example_cache], list by list. *)
Lemma example_cache_nodes (i : nat) (r : Remote) :
  r ∈ bucket (rc_list example_cache) i →
  In (i, r_target_id r)
    [(0%nat, 4); (1%nat, 1); (1%nat, 9); (1%nat, 13); (1%nat, 21); (1%nat, 37);
     (2%nat, 2); (2%nat, 6); (3%nat, 3); (3%nat, 7)].
Proof.
  intros Hr. apply list_elem_of_In in Hr.
  do 4 (destruct i as [|i];
        [vm_compute in Hr; repeat (destruct Hr as [<-|Hr]; [vm_compute; tauto|]); done|]).
  vm_compute in Hr. done.
Qed.

Lemma example_cache_discriminated :
  discriminated (cfg := example_config) 5 0 (rc_list example_cache).
Proof.
  intros i r Hr. apply example_cache_nodes in Hr. simpl in Hr.
  repeat (destruct Hr as [[= <- Ht]|Hr];
          [rewrite <- Ht; vm_compute; repeat split; congruence|]).
  done.
Qed.

Lemma example_cache_targets : targets_below 64 (rc_list example_cache).
Proof.
  intros i r Hr. apply example_cache_nodes in Hr. simpl in Hr.
  repeat (destruct Hr as [[= <- Ht]|Hr]; [lia|]).
  done.
Qed.

(** C5 on [example_cache]: 64 ids, two bits a slot, three iterations. *)
Lemma post_terminates_witness :
  (0 < 2 < 64 ∧ 1 < 64 ≤ 2 ^ 64 ∧ 0 ≤ 5 < 64) ∧
  ∃ rc' out,
    RemoteCache_post (cfg := example_config) (eng := scripted_engine)
      3 5 example_heap example_cache = Some (rc', out) ∧
    ∀ j : nat, bucket (rc_list rc') j = [].
Proof.
  split; [lia|].
  apply (post_terminates (cfg := example_config) (eng := scripted_engine)
           64 5 example_heap example_cache).
  - vm_compute. split; reflexivity.
  - lia.
  - lia.
  - exact example_cache_discriminated.
  - exact example_cache_targets.
Defined.

(** With the four slots of [example_config], a slot index is below [4]. *)
Lemma example_slot_lt a shift : (slot_of (cfg := example_config) a shift < 4)%nat.
Proof.
  unfold slot_of. change (REMOTE_MASK (cfg := example_config)) with (Z.ones 2).
  rewrite Z.land_ones by lia.
  pose proof (Z.mod_pos_bound (a ≫ shift) (2 ^ 2)). lia.
Qed.

(** A node for the posting allocator is in the allocator's own slot at every
    shift: an iteration of [post] pushes nothing and files it there again. *)
Lemma self_addressed_iteration shift out :
  post_iteration (cfg := example_config) (eng := scripted_engine) 5 shift example_heap
    (<[slot_of (cfg := example_config) 5 shift :=
         [{| r_addr := 5 * 2 ^ 24 + 4096; r_target_id := 5; r_sizeclass := 1 |}]]>
       (replicate 4 [])) out
  = (<[slot_of (cfg := example_config) 5 (wrap (shift + 2)) :=
         [{| r_addr := 5 * 2 ^ 24 + 4096; r_target_id := 5; r_sizeclass := 1 |}]]>
       (replicate 4 []), out, Some (wrap (shift + 2))).
Proof.
  unfold post_iteration.
  change (REMOTE_SLOT_BITS (Config := example_config)) with 2.
  change (Z.to_nat (REMOTE_SLOTS (cfg := example_config))) with 4%nat.
  generalize (wrap (shift + 2)). intros shift'.
  pose proof (example_slot_lt 5 shift) as Hk.
  set (node := {| r_addr := 5 * 2 ^ 24 + 4096; r_target_id := 5; r_sizeclass := 1 |}).
  assert (Hflush : ∀ k : nat, (k < 4)%nat →
            post_flush (cfg := example_config) (eng := scripted_engine) 4 0 k
              example_heap (<[k := [node]]> (replicate 4 [])) out
            = (<[k := [node]]> (replicate 4 []), out)
            ∧ bucket (<[k := [node]]> (replicate 4 [])) k = [node]
            ∧ <[k := []]> (<[k := [node]]> (replicate 4 ([] : RemoteList)))
              = replicate 4 []).
  { intros [|[|[|[|k]]]] Hlt; try lia; vm_compute; repeat split; reflexivity. }
  destruct (Hflush _ Hk) as (-> & -> & ->).
  unfold post_resend. cbn [fold_left r_target_id node].
  pose proof (example_slot_lt 5 shift') as Hk'.
  destruct (slot_of 5 shift') as [|[|[|[|k']]]]; try lia; reflexivity.
Qed.

Lemma self_addressed_loop (fuel : nat) shift out :
  post_loop (cfg := example_config) (eng := scripted_engine) fuel 5 shift example_heap
    (<[slot_of (cfg := example_config) 5 shift :=
         [{| r_addr := 5 * 2 ^ 24 + 4096; r_target_id := 5; r_sizeclass := 1 |}]]>
       (replicate 4 [])) out
  = None.
Proof.
  revert shift out. induction fuel as [|fuel IH]; intros shift out; [done|].
  cbn [post_loop]. rewrite self_addressed_iteration. apply IH.
Qed.

(** C5, the counterexample.  Among two allocators, with ids [5] and [69],
    the bound [⌈log₂ 2 / REMOTE_SLOT_BITS⌉] is one iteration, and [post]
    needs four: the ids agree on their six low bits.  And on a cache that
    holds a node for the posting allocator itself, [post] does not return,
    whatever the number of iterations: the node stays in the allocator's own
    slot. *)
Lemma post_not_on_every_cache :
  (Z.to_nat ((Z.log2_up 2 + REMOTE_SLOT_BITS (Config := example_config) - 1)
             / REMOTE_SLOT_BITS (Config := example_config)) = 1%nat ∧
   map (fun fuel =>
          match RemoteCache_post (cfg := example_config) (eng := scripted_engine)
                  fuel 5 example_heap two_allocator_cache with
          | Some _ => true
          | None => false
          end) [1; 2; 3; 4]%nat
   = [false; false; false; true]) ∧
  ∀ fuel : nat,
    RemoteCache_post (cfg := example_config) (eng := scripted_engine)
      fuel 5 example_heap self_addressed_cache = None.
Proof.
  split; [split; reflexivity|].
  intros fuel. unfold RemoteCache_post.
  change (rc_list self_addressed_cache)
    with (<[slot_of (cfg := example_config) 5 0 :=
              [{| r_addr := 5 * 2 ^ 24 + 4096; r_target_id := 5; r_sizeclass := 1 |}]]>
            (replicate 4 ([] : RemoteList))).
  by rewrite self_addressed_loop.
Qed.

(** C10 on [example_cache]. *)
Lemma post_leaves_cache_flushed_witness :
  ∃ rc' out,
    RemoteCache_post (cfg := example_config) (eng := scripted_engine)
      3 5 example_heap example_cache = Some (rc', out) ∧
    rc_size rc' = 0 ∧
    ∀ j : nat, (j < 4)%nat → bucket (rc_list rc') j = [].
Proof.
  destruct (RemoteCache_post (cfg := example_config) (eng := scripted_engine)
              3 5 example_heap example_cache) as [[rc' out]|] eqn:Hpost;
    [|vm_compute in Hpost; discriminate].
  exists rc', out. split; [reflexivity|].
  exact (proj1 (post_leaves_cache_flushed (cfg := example_config) (eng := scripted_engine)
                  5 example_heap example_cache) 3%nat rc' out Hpost).
Defined.

(** C6 on [mailbox_state]: two nodes are popped and enqueued, in order, in
    list [1] of the cache; the third stays in the mailbox; 64 bytes do not
    reach [REMOTE_CACHE], and nothing is posted. *)
Lemma handle_message_queue_drains_witness :
  ∃ st',
    handle_message_queue (cfg := example_config) (eng := scripted_engine) 0
      mailbox_state = Ret (tt, st') ∧
    message_queue st'
      = [ {| r_addr := 2 * 2 ^ 24 + 4096; r_target_id := 2; r_sizeclass := 1 |} ] ∧
    rc_list (remote st') !! 1%nat
      = Some [ {| r_addr := 9 * 2 ^ 24 + 4096; r_target_id := 9; r_sizeclass := 1 |};
               {| r_addr := 13 * 2 ^ 24 + 4096; r_target_id := 13; r_sizeclass := 1 |} ] ∧
    rc_size (remote st') = 64 ∧ posted st' = [].
Proof.
  assert (Hrun : ∃ st',
    handle_message_queue_as_specified (cfg := example_config) (eng := scripted_engine)
      0 mailbox_state = Ret (tt, st') ∧
    rc_list (remote st') !! 1%nat
      = Some [ {| r_addr := 9 * 2 ^ 24 + 4096; r_target_id := 9; r_sizeclass := 1 |};
               {| r_addr := 13 * 2 ^ 24 + 4096; r_target_id := 13; r_sizeclass := 1 |} ] ∧
    rc_size (remote st') = 64 ∧ posted st' = []).
  { eexists. vm_compute. repeat split; reflexivity. }
  destruct Hrun as (st' & Hrun & Hlist & Hsize & Hposted).
  destruct (handle_message_queue_drains (cfg := example_config) (eng := scripted_engine)
              0 mailbox_state) as (Heq & Hqueue & _).
  rewrite <- Heq in Hrun.
  exists st'. split; [exact Hrun|]. split; [exact (Hqueue st' Hrun)|].
  split; [exact Hlist|]. split; [exact Hsize|exact Hposted].
Defined.

(** C7 on a superslab that the free empties. *)
Lemma small_dealloc_repositions_witness :
  Slab_dealloc (SlabEngine := scripted_engine)
    (Slab_get (cfg := example_config) (2 ^ 24 + 65536 + 96))
    (2 ^ 24) (2 ^ 24 + 65536 + 96)
    (small_class 2 one_superslab_state) (heap one_superslab_state)
    (provider one_superslab_state)
  = (StatusChange, [], Scripted_status Empty example_heap, empty_provider) ∧
  ∃ st',
    small_dealloc (cfg := example_config) (eng := scripted_engine)
      (2 ^ 24) (2 ^ 24 + 65536 + 96) 2 one_superslab_state = Ret (tt, st') ∧
    super_available st' = [] ∧
    mp_not_using (provider st') = [(2 ^ 24 + 4096, 2 ^ 24 - 4096)] ∧
    Pagemap_get (cfg := example_config) (global_pagemap st') (2 ^ 24) = PMNotOurs ∧
    default [] (large_stack (large_allocator st') !! 0) = [2 ^ 24].
Proof.
  split; [reflexivity|].
  destruct (small_dealloc_repositions (cfg := example_config) (eng := scripted_engine)
              one_superslab_state (2 ^ 24) (2 ^ 24 + 65536 + 96) 2
              [] (Scripted_status Empty example_heap) empty_provider eq_refl)
    as (st' & Hrun & Hav & _ & _ & Hmp & Hpm & Hstack).
  exists st'. repeat split; assumption.
Defined.

(** C2 on the 17 MiB object, freed eight bytes past its start. *)
Lemma start_of_object_checks_witness :
  (message_queue large_object_state = [] ∧
   Pagemap_get (cfg := example_config) (global_pagemap large_object_state)
     (2 ^ 30 + 8) = 25) ∧
  dealloc (cfg := example_config) (eng := scripted_engine) 0 (2 ^ 30 + 8)
    large_object_state
  = Abort "Not deallocating start of an object".
Proof.
  split; [split; reflexivity|].
  apply (start_of_object_checks (cfg := example_config) (eng := scripted_engine)
           0 large_object_state (2 ^ 30 + 8) 0 0 0); vm_compute; congruence.
Defined.

(** C3 on a fresh allocator. *)
Lemma no_reserve_returns_null_witness :
  no_cached_memory (cfg := example_config) (eng := scripted_engine)
    (fresh_allocator example_heap empty_provider) ∧
  get_superslab (cfg := example_config) (eng := scripted_engine) NoReserve
    (fresh_allocator example_heap empty_provider)
  = Ret (0, fresh_allocator example_heap empty_provider).
Proof.
  assert (Hnone : no_cached_memory (cfg := example_config) (eng := scripted_engine)
            (fresh_allocator example_heap empty_provider)).
  { repeat split; reflexivity. }
  split; [exact Hnone|].
  apply (no_reserve_returns_null (cfg := example_config) (eng := scripted_engine)
           NoZero 0 48 (fresh_allocator example_heap empty_provider) Hnone eq_refl).
Defined.

(** C9 at 33 bytes. *)
Lemma sizeclass_round_trip_witness :
  (StronglySorted Z.lt (sizeclass_table (Config := example_config)) ∧
   (length (sizeclass_table (Config := example_config)) < 256)%nat ∧
   0 < 33 ≤ maxsize (cfg := example_config)) ∧
  33 ≤ sizeclass_to_size (cfg := example_config)
         (size_to_sizeclass (cfg := example_config) 33) ∧
  size_to_sizeclass (cfg := example_config)
    (sizeclass_to_size (cfg := example_config)
       (size_to_sizeclass (cfg := example_config) 33))
  = size_to_sizeclass (cfg := example_config) 33 ∧
  size_to_sizeclass_const (cfg := example_config) 33
  = size_to_sizeclass (cfg := example_config) 33.
Proof.
  assert (Hsorted : StronglySorted Z.lt (sizeclass_table (Config := example_config))).
  { repeat constructor. }
  split.
  - split; [exact Hsorted|]. split; [simpl; lia|]. vm_compute. split; congruence.
  - apply (sizeclass_round_trip (cfg := example_config) 33 Hsorted).
    + simpl. lia.
    + vm_compute. split; congruence.
Defined.

(** C2, the counterexample.  With [SNMALLOC_SAFE_CLIENT] defined, freeing
    an address eight bytes into a large object goes through; without it, the
    same call is fatal. *)
Lemma safe_client_skips_the_checks :
  (∃ st', dealloc (cfg := example_config_safe_client) (eng := scripted_engine)
            0 (2 ^ 30 + 8) large_object_state = Ret (tt, st')) ∧
  dealloc (cfg := example_config) (eng := scripted_engine)
    0 (2 ^ 30 + 8) large_object_state
  = Abort "Not deallocating start of an object".
Proof.
  split.
  - eexists. vm_compute. reflexivity.
  - vm_compute. reflexivity.
Qed.

(** C3, the counterexample.  A null from the large allocator:
    [get_superslab<YesReserve>] reaches through it, and [large_alloc] files
    it in the pagemap. *)
Lemma null_is_used_further :
  get_superslab (cfg := example_config) (eng := scripted_engine) YesReserve
    (fresh_allocator example_heap empty_provider) = NullDeref ∧
  ∃ st',
    large_alloc (cfg := example_config) NoZero NoReserve
      (2 ^ 25) (fresh_allocator example_heap empty_provider) = Ret (0, st') ∧
    Pagemap_get (cfg := example_config)
      (global_pagemap (fresh_allocator example_heap empty_provider)) 0 = 0 ∧
    Pagemap_get (cfg := example_config) (global_pagemap st') 0 = 25.
Proof.
  split; [reflexivity|].
  eexists. split; [vm_compute; reflexivity|]. split; reflexivity.
Qed.

(** * Further properties of the allocator

    What the code does beyond the statements above: the order of remote
    frees through [post], the life of large objects, the release and reuse
    of slabs, and what every operation keeps invariant. *)




Section RemoteCacheOrder.
Context {cfg : Config} {Heap : Type} {eng : SlabEngine Heap}.


















End RemoteCacheOrder.

Section LargeObjects.
Context {cfg : Config} {Heap : Type} {eng : SlabEngine Heap}.

Lemma next_pow2_bits_pow2 k : 0 ≤ k → next_pow2_bits (2 ^ k) = k.
Proof. intros. unfold next_pow2_bits. by apply Z.log2_up_pow2. Qed.

Lemma pow2_wrap k : 0 ≤ k < 64 → wrap (1 ≪ k) = 2 ^ k.
Proof.
  intros. rewrite shiftl_1 by lia. apply wrap_small.
  split; [apply Z.lt_le_incl, pow2_pos; lia|apply pow2_lt_mono; lia].
Qed.

Lemma clear_large_size_lookup p size (pm : gmap Z Z) j :
  0 ≤ SUPERSLAB_BITS ≤ next_pow2_bits size → next_pow2_bits size < 64 →
  clear_large_size p size pm !! j =
  if decide (Pagemap_index p ≤ j
             < Pagemap_index p + 2 ^ (next_pow2_bits size - SUPERSLAB_BITS))
  then Some PMNotOurs else pm !! j.
Proof.
  intros Hb Hk. unfold clear_large_size, Pagemap_set_range, next_pow2.
  rewrite Pagemap_fill_lookup, pow2_wrap by lia.
  rewrite Z.shiftr_div_pow2 by lia.
  assert (Hdiv : 2 ^ next_pow2_bits size / 2 ^ SUPERSLAB_BITS
                 = 2 ^ (next_pow2_bits size - SUPERSLAB_BITS)).
  { rewrite <- Z.pow_sub_r; [done|lia|lia]. }
  rewrite Hdiv, Z2Nat.id; [done|]. apply Z.lt_le_incl, pow2_pos. lia.
Qed.

(** X2: [clear_large_size] undoes [set_large_size].  After both, for the
    same address and size, every address in the [2^(k - SUPERSLAB_BITS)]
    superslabs of the allocation reads as not ours, the redirects of the
    slide included, and every other entry of the pagemap is what it was
    before the two calls. *)
Theorem clear_large_size_undoes_set_large_size p size (pm : gmap Z Z) q :
  let k := next_pow2_bits size in
  0 ≤ SUPERSLAB_BITS ≤ k → k < 64 → 0 ≤ p → p + 2 ^ k ≤ 2 ^ 64 →
  Pagemap_get (clear_large_size p size (set_large_size p size pm)) q =
  if decide (Pagemap_index p ≤ Pagemap_index q
             < Pagemap_index p + 2 ^ (k - SUPERSLAB_BITS))
  then PMNotOurs else Pagemap_get pm q.
Proof.
  intros k Hb Hk Hp Hfit. unfold Pagemap_get.
  rewrite clear_large_size_lookup by (fold k; lia). fold k.
  case_decide as Hin; [done|].
  rewrite set_large_size_lookup by (fold k; lia). fold k.
  rewrite decide_False by lia. rewrite decide_False by lia. done.
Qed.

(** X3: [alloc_size] on what [large_alloc] returned is [2^k] for
    [k = next_pow2_bits(size)], the size [large_alloc] rounds the request up
    to; it is never less than the size asked for. *)
Theorem alloc_size_of_large_alloc (zero_mem : ZeroMem) (allow_reserve : AllowReserve)
    size (st st' : Allocator (Heap := Heap)) p :
  large_alloc zero_mem allow_reserve size st = Ret (p, st') →
  2 < next_pow2_bits size < 64 → 0 ≤ SUPERSLAB_BITS ≤ next_pow2_bits size →
  0 ≤ p → p + 2 ^ next_pow2_bits size ≤ 2 ^ 64 →
  alloc_size (global_pagemap st') (heap st') p = Ret (2 ^ next_pow2_bits size) ∧
  size ≤ 2 ^ next_pow2_bits size.
Proof.
  unfold large_alloc, bind, large_allocator_alloc, modify, ret.
  destruct (LargeAlloc_alloc allow_reserve _ size (large_allocator st)) as [q la].
  intros [= -> <-] Hk Hb Hp Hfit. simpl. split.
  - unfold alloc_size, Pagemap_get.
    rewrite set_large_size_lookup, decide_True by (done || lia). simpl.
    unfold PMSuperslab, PMMediumslab.
    destruct (Z.eqb_spec (next_pow2_bits size) 0); [lia|].
    destruct (Z.eqb_spec (next_pow2_bits size) 1); [lia|].
    destruct (Z.eqb_spec (next_pow2_bits size) 2); [lia|].
    by rewrite pow2_wrap by lia.
  - unfold next_pow2_bits in *.
    destruct (Z_le_gt_dec size 1) as [Hle|Hgt].
    + assert (0 < 2 ^ Z.log2_up size) by (apply pow2_pos; lia). lia.
    + apply Z.log2_up_spec. lia.
Qed.

End LargeObjects.

Section FreeingLargeObjects.
Context {cfg : Config} {Heap : Type} {eng : SlabEngine Heap}.

Lemma handle_message_queue_empty (fuel : nat) (st : Allocator (Heap := Heap)) :
  message_queue st = [] → handle_message_queue fuel st = Ret (tt, st).
Proof. intros Hq. unfold handle_message_queue, bind, gets. by rewrite Hq. Qed.

Lemma Superslab_get_aligned p :
  0 ≤ SUPERSLAB_BITS → p mod SUPERSLAB_SIZE = 0 → Superslab_get p = p.
Proof.
  intros Hb Hal. unfold Superslab_get. rewrite align_down_eq by done.
  rewrite SUPERSLAB_SIZE_pow in Hal by done.
  assert (0 < 2 ^ SUPERSLAB_BITS) by (apply pow2_pos; lia).
  apply Z.div_exact in Hal; lia.
Qed.

(** [dealloc(p)] at the head of a large object, under either setting of
    [SNMALLOC_SAFE_CLIENT]. *)
Lemma dealloc_large_head (fuel : nat) (st : Allocator (Heap := Heap)) p :
  let size := Pagemap_get (global_pagemap st) p in
  message_queue st = [] → 2 < size ≤ 64 → Superslab_get p = p →
  dealloc fuel p st = large_dealloc p (wrap (1 ≪ size)) st.
Proof.
  intros size Hq Hsize Hhead.
  unfold dealloc, bind at 1. rewrite handle_message_queue_empty by done.
  unfold bind at 1, gets at 1. fold size. unfold bind at 1.
  unfold PMSuperslab, PMMediumslab.
  destruct (Z.eqb_spec size 0); [lia|]. unfold ret at 1.
  destruct (Z.eqb_spec size 1); [lia|].
  destruct (Z.eqb_spec size 2); [lia|].
  unfold bind at 1. rewrite Hhead, Z.eqb_refl.
  destruct (Z.gtb_spec size 64); [lia|].
  by destruct (negb SNMALLOC_SAFE_CLIENT).
Qed.

(** What [large_dealloc] leaves, for a block that is not null. *)
Lemma large_dealloc_returns p size (st : Allocator (Heap := Heap)) :
  p ≠ 0 →
  ∃ st', large_dealloc p size st = Ret (tt, st') ∧
    global_pagemap st' = clear_large_size p size (global_pagemap st) ∧
    message_queue st' = message_queue st ∧
    mp_reserve_calls (provider st') = mp_reserve_calls (provider st) ∧
    large_stack (large_allocator st') =
      <[wrap (next_pow2_bits size - SUPERSLAB_BITS) :=
          p :: default [] (large_stack (large_allocator st)
                             !! wrap (next_pow2_bits size - SUPERSLAB_BITS))]>
        (large_stack (large_allocator st)).
Proof.
  intros Hp. unfold large_dealloc, bind, modify, provider_notify_not_using, modify,
    ret, deref.
  destruct (negb (DecommitStrategy_eqb decommit_strategy DecommitNone)
            || (wrap (next_pow2_bits size - SUPERSLAB_BITS) >? 0)); simpl;
    (destruct (Z.eqb_spec p 0); [done|]); eexists; (split; [done|]); done.
Qed.

(** X4: a large object freed twice.  The first [dealloc(p)] of a block
    that [large_alloc] returned goes through; the second stops the process
    with the message of a pointer that is not ours, and so does
    [alloc_size(p)].  After the first free every address of the block, not
    only its head, is outside every allocation for [external_pointer]: it
    returns [0] for [Start] and the all-ones pointer for [End]. *)
Theorem large_object_double_free (zero_mem : ZeroMem) (allow_reserve : AllowReserve)
    (fuel : nat) size (st st1 : Allocator (Heap := Heap)) p :
  let k := next_pow2_bits size in
  large_alloc zero_mem allow_reserve size st = Ret (p, st1) →
  message_queue st = [] →
  2 < SUPERSLAB_BITS ≤ k → k < 64 →
  0 < p → p + 2 ^ k ≤ 2 ^ 64 → p mod SUPERSLAB_SIZE = 0 →
  ∃ st2,
    dealloc fuel p st1 = Ret (tt, st2) ∧
    dealloc fuel p st2 = Abort "Not allocated by this allocator" ∧
    alloc_size (global_pagemap st2) (heap st2) p
      = Abort "Not allocated by this allocator" ∧
    ∀ i (n : nat), 0 ≤ i < 2 ^ k →
      external_pointer Start n (global_pagemap st2) (heap st2) (p + i) = Some 0 ∧
      external_pointer End_ n (global_pagemap st2) (heap st2) (p + i) = Some MAX_PTR.
Proof.
  intros k Halloc Hq Hb Hk Hp Hfit Hal.
  assert (Hst1 : global_pagemap st1 = set_large_size p size (global_pagemap st) ∧
                 message_queue st1 = message_queue st).
  { revert Halloc. unfold large_alloc, bind, large_allocator_alloc, modify, ret.
    destruct (LargeAlloc_alloc allow_reserve _ size (large_allocator st)) as [q la].
    intros [= -> <-]. done. }
  destruct Hst1 as [Hpm1 Hq1].
  assert (Htag : Pagemap_get (global_pagemap st1) p = k).
  { rewrite Hpm1. unfold Pagemap_get.
    rewrite set_large_size_lookup, decide_True by (done || fold k; lia). done. }
  assert (Hhead : Superslab_get p = p) by (apply Superslab_get_aligned; [lia|done]).
  destruct (large_dealloc_returns p (wrap (1 ≪ k)) st1 ltac:(lia))
    as (st2 & Hfree & Hpm2 & Hq2 & _ & _).
  rewrite pow2_wrap in * by lia.
  assert (Hcleared : ∀ q, Pagemap_index p ≤ Pagemap_index q
                          < Pagemap_index p + 2 ^ (k - SUPERSLAB_BITS) →
                     Pagemap_get (global_pagemap st2) q = 0).
  { intros q Hin. rewrite Hpm2. unfold Pagemap_get.
    rewrite clear_large_size_lookup; rewrite next_pow2_bits_pow2 by lia; try lia.
    by rewrite decide_True. }
  assert (Hpos : 0 < 2 ^ (k - SUPERSLAB_BITS)) by (apply pow2_pos; lia).
  exists st2. split; [|split; [|split]].
  - rewrite dealloc_large_head; rewrite ?Htag; try done; try lia; try congruence.
    by rewrite pow2_wrap by lia.
  - unfold dealloc, bind at 1.
    rewrite handle_message_queue_empty by congruence.
    unfold bind at 1, gets at 1. rewrite Hcleared by lia. done.
  - unfold alloc_size. rewrite Hcleared by lia. done.
  - intros i n Hi.
    assert (Hin : Pagemap_index p ≤ Pagemap_index (p + i)
                  < Pagemap_index p + 2 ^ (k - SUPERSLAB_BITS)).
    { rewrite !Pagemap_index_div by lia.
      assert (Hsz : 0 < 2 ^ SUPERSLAB_BITS) by (apply pow2_pos; lia).
      rewrite SUPERSLAB_SIZE_pow in Hal by lia.
      apply Z.div_exact in Hal; [|lia].
      assert (Hsplit : 2 ^ k = 2 ^ (k - SUPERSLAB_BITS) * 2 ^ SUPERSLAB_BITS).
      { rewrite <- Z.pow_add_r by lia. f_equal. lia. }
      split.
      - apply Z.div_le_mono; lia.
      - apply Z.div_lt_upper_bound; [lia|]. nia. }
    unfold external_pointer. rewrite (Hcleared _ Hin). simpl.
    by destruct n.
Qed.

End FreeingLargeObjects.

Section DeallocForms.
Context {cfg : Config} {Heap : Type} {eng : SlabEngine Heap}.

(** X5: a large block freed with [dealloc(p, size)] is what the next
    [alloc] of that size returns.  Under the conditions [clear_large_size]
    and [large_dealloc] assert (the pagemap entry of [p] is the exponent of
    the size, and the size is at least a superslab), the free returns, the
    allocation that follows returns the same address [p] without a call to
    the memory provider, even with [NoReserve], the stack of the size's
    large class is left as it was before the free, and the pagemap entries
    of the block are written anew. *)
Theorem large_block_reused (zero_mem : ZeroMem) (allow_reserve : AllowReserve)
    (fuel : nat) p size (st : Allocator (Heap := Heap)) :
  let large_class := wrap (next_pow2_bits size - SUPERSLAB_BITS) in
  message_queue st = [] → p ≠ 0 →
  Pagemap_get (global_pagemap st) p = next_pow2_bits size →
  SUPERSLAB_BITS ≤ next_pow2_bits size < 64 →
  NUM_SMALL_CLASSES ≤ size_to_sizeclass size →
  NUM_SIZECLASSES ≤ size_to_sizeclass size →
  ∃ st1 st2,
    dealloc_sized fuel p size st = Ret (tt, st1) ∧
    alloc zero_mem allow_reserve fuel size st1 = Ret (p, st2) ∧
    mp_reserve_calls (provider st2) = mp_reserve_calls (provider st) ∧
    default [] (large_stack (large_allocator st2) !! large_class)
      = default [] (large_stack (large_allocator st) !! large_class) ∧
    global_pagemap st2
      = set_large_size p size (clear_large_size p size (global_pagemap st)).
Proof.
  intros large_class Hq Hp _ _ Hsmall Hmedium.
  destruct (large_dealloc_returns p size st Hp) as (st1 & Hfree & Hpm & Hq1 & Hcalls & Hstack).
  assert (Hpath : ∀ A (a b c : A),
            (if size_to_sizeclass size <? NUM_SMALL_CLASSES then a
             else if size_to_sizeclass size <? NUM_SIZECLASSES then b else c) = c).
  { intros A a b c.
    destruct (Z.ltb_spec (size_to_sizeclass size) NUM_SMALL_CLASSES); [lia|].
    destruct (Z.ltb_spec (size_to_sizeclass size) NUM_SIZECLASSES); [lia|]. done. }
  exists st1.
  assert (Halloc : ∃ st2, large_alloc zero_mem allow_reserve size st1 = Ret (p, st2) ∧
            mp_reserve_calls (provider st2) = mp_reserve_calls (provider st1) ∧
            default [] (large_stack (large_allocator st2) !! large_class)
              = default [] (large_stack (large_allocator st) !! large_class) ∧
            global_pagemap st2 = set_large_size p size (global_pagemap st1)).
  { unfold large_alloc, bind, large_allocator_alloc, LargeAlloc_alloc, modify, ret.
    fold large_class in Hstack |- *.
    rewrite Hstack, lookup_insert_eq. simpl.
    eexists. split; [done|]. simpl. split; [done|]. split; [|done].
    by rewrite lookup_insert_eq. }
  destruct Halloc as (st2 & Halloc & Hcalls2 & Hstack2 & Hpm2).
  exists st2. split; [|split; [|split; [|split]]].
  - unfold dealloc_sized, bind at 1. rewrite handle_message_queue_empty by done.
    by rewrite Hpath.
  - unfold alloc, bind at 1. rewrite handle_message_queue_empty by congruence.
    by rewrite Hpath.
  - congruence.
  - done.
  - congruence.
Qed.

Lemma large_dealloc_rounded p size (st : Allocator (Heap := Heap)) :
  0 ≤ next_pow2_bits size < 64 →
  large_dealloc p (wrap (1 ≪ next_pow2_bits size)) st = large_dealloc p size st.
Proof.
  intros Hk. unfold large_dealloc, clear_large_size, next_pow2.
  rewrite (pow2_wrap (next_pow2_bits size)) by done.
  rewrite next_pow2_bits_pow2 by lia.
  by rewrite (pow2_wrap (next_pow2_bits size)) by done.
Qed.

(** X6: the two dynamic forms of [dealloc] agree.  On an empty mailbox,
    [dealloc(p)], which reads the kind of [p] from the pagemap and the size
    class from the slab header, does what [dealloc(p, size)] does, which
    computes the size class from [size]: for a small object when the slab's
    class is the class of [size], for a medium object likewise, and for the
    head of a large object when its pagemap entry is the exponent of
    [size]. *)
Theorem dealloc_forms_agree (fuel : nat) p size (st : Allocator (Heap := Heap)) :
  let sc := size_to_sizeclass size in
  let tag := Pagemap_get (global_pagemap st) p in
  message_queue st = [] →
  (tag = PMSuperslab → sc < NUM_SMALL_CLASSES →
   meta_sizeclass (heap st) (Superslab_get p) (Slab_get p) = sc →
   dealloc fuel p st = dealloc_sized fuel p size st) ∧
  (tag = PMMediumslab → NUM_SMALL_CLASSES ≤ sc < NUM_SIZECLASSES →
   Mediumslab_get_sizeclass (heap st) (Superslab_get p) = sc →
   dealloc fuel p st = dealloc_sized fuel p size st) ∧
  (tag = next_pow2_bits size → 2 < tag < 64 →
   NUM_SMALL_CLASSES ≤ sc → NUM_SIZECLASSES ≤ sc → Superslab_get p = p →
   dealloc fuel p st = dealloc_sized fuel p size st).
Proof.
  intros sc tag Hq.
  assert (Hsized : dealloc_sized fuel p size st =
    if sc <? NUM_SMALL_CLASSES then
      if get_allocator (heap st) (Superslab_get p) =? public_state st
      then small_dealloc (Superslab_get p) p sc st
      else remote_dealloc fuel (get_allocator (heap st) (Superslab_get p)) p sc st
    else if sc <? NUM_SIZECLASSES then
      if get_allocator (heap st) (Mediumslab_get p) =? public_state st
      then medium_dealloc (Mediumslab_get p) p sc st
      else remote_dealloc fuel (get_allocator (heap st) (Mediumslab_get p)) p sc st
    else large_dealloc p size st).
  { unfold dealloc_sized, bind at 1. rewrite handle_message_queue_empty by done.
    fold sc. unfold bind, gets.
    by repeat match goal with |- context [if ?b then _ else _] => destruct b end. }
  assert (Hany : dealloc fuel p st =
    if tag =? 0 then Abort "Not allocated by this allocator"
    else if tag =? PMSuperslab then
      if get_allocator (heap st) (Superslab_get p) =? public_state st
      then small_dealloc (Superslab_get p) p
             (meta_sizeclass (heap st) (Superslab_get p) (Slab_get p)) st
      else remote_dealloc fuel (get_allocator (heap st) (Superslab_get p)) p
             (meta_sizeclass (heap st) (Superslab_get p) (Slab_get p)) st
    else if tag =? PMMediumslab then
      if get_allocator (heap st) (Superslab_get p) =? public_state st
      then medium_dealloc (Superslab_get p) p
             (Mediumslab_get_sizeclass (heap st) (Superslab_get p)) st
      else remote_dealloc fuel (get_allocator (heap st) (Superslab_get p)) p
             (Mediumslab_get_sizeclass (heap st) (Superslab_get p)) st
    else if negb SNMALLOC_SAFE_CLIENT then
      if (tag >? 64) || negb (Superslab_get p =? p)
      then Abort "Not deallocating start of an object"
      else large_dealloc p (wrap (1 ≪ tag)) st
    else large_dealloc p (wrap (1 ≪ tag)) st).
  { unfold dealloc, bind at 1. rewrite handle_message_queue_empty by done.
    unfold bind, gets, error, ret. fold tag.
    by repeat match goal with |- context [if ?b then _ else _] => destruct b end. }
  rewrite Hany, Hsized. unfold PMSuperslab, PMMediumslab, Mediumslab_get.
  split; [|split].
  - intros -> Hsc ->. simpl.
    destruct (Z.ltb_spec sc NUM_SMALL_CLASSES); [done|lia].
  - intros -> Hsc ->. simpl.
    destruct (Z.ltb_spec sc NUM_SMALL_CLASSES); [lia|].
    destruct (Z.ltb_spec sc NUM_SIZECLASSES); [done|lia].
  - intros Htag Hrange Hsmall Hmedium Hhead.
    destruct (Z.eqb_spec tag 0); [lia|].
    destruct (Z.eqb_spec tag 1); [lia|].
    destruct (Z.eqb_spec tag 2); [lia|].
    destruct (Z.ltb_spec sc NUM_SMALL_CLASSES); [lia|].
    destruct (Z.ltb_spec sc NUM_SIZECLASSES); [lia|].
    rewrite Hhead, Z.eqb_refl.
    destruct (Z.gtb_spec tag 64); [lia|]. cbn [orb negb].
    rewrite Htag. rewrite large_dealloc_rounded by lia.
    by destruct (negb SNMALLOC_SAFE_CLIENT).
Qed.

End DeallocForms.

Section FrameCombinators.
Context {cfg : Config} {Heap : Type} {eng : SlabEngine Heap}.

Lemma keeps_ret {A : Type} (a : A) : stays_local (Heap := Heap) (ret a).
Proof. intros st. split; [done|]. by intros x st' [= _ <-]. Qed.

Lemma keeps_gets {A : Type} (f : Allocator (Heap := Heap) → A) :
  stays_local (Heap := Heap) (gets f).
Proof. intros st. split; [done|]. by intros x st' [= _ <-]. Qed.

Lemma keeps_error {A : Type} msg :
  stays_local (Heap := Heap) (error (A := A) msg).
Proof. intros st. split; [done|]. by intros x st' [=]. Qed.

Lemma keeps_deref p : stays_local (Heap := Heap) (deref p).
Proof.
  intros st. unfold deref. destruct (p =? 0); [done|].
  split; [done|]. by intros x st' [= _ <-].
Qed.

Lemma keeps_modify (f : Allocator (Heap := Heap) → Allocator) :
  (∀ st, remote (f st) = remote st ∧ public_state (f st) = public_state st ∧
         message_queue (f st) = message_queue st) →
  stays_local (Heap := Heap) (modify f).
Proof. intros Hf st. split; [done|]. intros x st' [= _ <-]. apply Hf. Qed.

Lemma keeps_bind {A B : Type} (m : M (Allocator (Heap := Heap)) A)
    (k : A → M (Allocator (Heap := Heap)) B) :
  stays_local m → (∀ a, stays_local (Heap := Heap) (k a)) → stays_local (Heap := Heap) (bind m k).
Proof.
  intros Hm Hk st. unfold bind. destruct (Hm st) as [Hfuel Hst].
  destruct (m st) as [[a st1]| | |]; try done.
  destruct (Hk a st1) as [Hfuel1 Hst1]. split; [done|].
  intros x st' Hrun. destruct (Hst _ _ eq_refl) as (Hr & Hp & Hq).
  apply Hst1 in Hrun as (Hr1 & Hp1 & Hq1). repeat split; congruence.
Qed.

End FrameCombinators.

Ltac keeps_step :=
  first
    [ apply keeps_ret | apply keeps_gets | apply keeps_error | apply keeps_deref
    | apply keeps_modify; intros; repeat case_match; done
    | apply keeps_bind; [|intros ?]
    | match goal with
      | |- stays_local (if ?c then _ else _) => destruct c
      | |- stays_local (match ?x with _ => _ end) => destruct x
      end ].

Section OutgoingCacheBound.
Context {cfg : Config} {Heap : Type} {eng : SlabEngine Heap}.

Lemma keeps_large_allocator_alloc r c size :
  stays_local (Heap := Heap) (large_allocator_alloc r c size).
Proof.
  intros st. unfold large_allocator_alloc.
  destruct (LargeAlloc_alloc r c size (large_allocator st)) as [p la].
  split; [done|]. by intros x st' [= _ <-].
Qed.

Lemma keeps_provider_notify_not_using p size :
  stays_local (Heap := Heap) (provider_notify_not_using p size).
Proof. unfold provider_notify_not_using. keeps_step. Qed.

Lemma keeps_get_superslab r : stays_local (Heap := Heap) (get_superslab r).
Proof.
  unfold get_superslab. repeat keeps_step.
  apply keeps_large_allocator_alloc.
Qed.

Lemma keeps_reposition_superslab super : stays_local (Heap := Heap) (reposition_superslab super).
Proof. unfold reposition_superslab. repeat keeps_step. Qed.

Lemma keeps_call_alloc_short_slab super sizeclass :
  stays_local (Heap := Heap) (call_alloc_short_slab super sizeclass).
Proof.
  unfold call_alloc_short_slab. repeat keeps_step.
  intros st. destruct (Superslab_alloc_short_slab _ _ _ _) as [[slab h] mp].
  split; [done|]. by intros x st' [= _ <-].
Qed.

Lemma keeps_call_alloc_slab super sizeclass :
  stays_local (Heap := Heap) (call_alloc_slab super sizeclass).
Proof.
  unfold call_alloc_slab. repeat keeps_step.
  intros st. destruct (Superslab_alloc_slab _ _ _ _) as [[slab h] mp].
  split; [done|]. by intros x st' [= _ <-].
Qed.

Lemma keeps_alloc_slab r sizeclass : stays_local (Heap := Heap) (alloc_slab r sizeclass).
Proof.
  unfold alloc_slab.
  repeat first
    [ apply keeps_get_superslab | apply keeps_reposition_superslab
    | apply keeps_call_alloc_short_slab | apply keeps_call_alloc_slab
    | keeps_step ].
  intros st. destruct (DLList_pop _) as [super l].
  split; [done|]. by intros x st' [= _ <-].
Qed.

Lemma keeps_call_slab_alloc z slab sizeclass rsize :
  stays_local (Heap := Heap) (call_slab_alloc z slab sizeclass rsize).
Proof.
  unfold call_slab_alloc. repeat keeps_step.
  intros st. destruct (Slab_alloc _ _ _ _ _ _) as [[[q sc] h] mp].
  split; [done|]. by intros x st' [= _ <-].
Qed.

Lemma keeps_small_alloc z r sizeclass rsize :
  stays_local (Heap := Heap) (small_alloc z r sizeclass rsize).
Proof.
  unfold small_alloc.
  repeat first [ apply keeps_alloc_slab | apply keeps_call_slab_alloc | keeps_step ].
Qed.

Lemma keeps_call_medium_alloc z slab size :
  stays_local (Heap := Heap) (call_medium_alloc z slab size).
Proof.
  unfold call_medium_alloc. repeat keeps_step.
  intros st. destruct (Mediumslab_alloc _ _ _ _ _) as [[q h] mp].
  split; [done|]. by intros x st' [= _ <-].
Qed.

Lemma keeps_medium_alloc z r sizeclass rsize size :
  stays_local (Heap := Heap) (medium_alloc z r sizeclass rsize size).
Proof.
  unfold medium_alloc.
  repeat first
    [ apply keeps_large_allocator_alloc | apply keeps_call_medium_alloc | keeps_step ].
Qed.

Lemma keeps_large_alloc z r size : stays_local (Heap := Heap) (large_alloc z r size).
Proof.
  unfold large_alloc. repeat first [ apply keeps_large_allocator_alloc | keeps_step ].
Qed.

Lemma keeps_small_dealloc super p sizeclass :
  stays_local (Heap := Heap) (small_dealloc super p sizeclass).
Proof.
  unfold small_dealloc.
  repeat first [ apply keeps_provider_notify_not_using | keeps_step ].
  intros st. unfold call_slab_dealloc.
  destruct (Slab_dealloc _ _ _ _ _ _) as [[[act sc] h] mp].
  split; [done|]. by intros x st' [= _ <-].
Qed.

Lemma keeps_medium_dealloc slab p sizeclass :
  stays_local (Heap := Heap) (medium_dealloc slab p sizeclass).
Proof.
  unfold medium_dealloc.
  repeat first [ apply keeps_provider_notify_not_using | keeps_step ].
  intros st. destruct (Mediumslab_dealloc _ _ _ _) as [[was_full h] mp].
  split; [done|]. by intros x st' [= _ <-].
Qed.

Lemma keeps_large_dealloc p size : stays_local (Heap := Heap) (large_dealloc p size).
Proof.
  unfold large_dealloc.
  repeat first [ apply keeps_provider_notify_not_using | keeps_step ].
Qed.

(** The test that ends [remote_dealloc] and [handle_message_queue_inner]. *)
Lemma bounds_threshold (fuel : nat) :
  0 < REMOTE_CACHE →
  bounds_remote
    (let* size := gets (fun st => rc_size (remote st)) in
     if size <? REMOTE_CACHE then ret tt else remote_post fuel).
Proof.
  intros Hpos st x st'. unfold bind, gets, ret, remote_post.
  destruct (Z.ltb_spec (rc_size (remote st)) REMOTE_CACHE).
  - intros H'. by injection H' as _ <-.
  - unfold RemoteCache_post.
    destruct (post_loop _ _ _ _ _ _) as [[l out]|]; [|discriminate].
    intros H'. by injection H' as _ <-.
Qed.

Lemma bounds_bind {A B : Type} (m : M (Allocator (Heap := Heap)) A)
    (k : A → M (Allocator (Heap := Heap)) B) :
  (∀ a, bounds_remote (Heap := Heap) (k a)) → bounds_remote (Heap := Heap) (bind m k).
Proof.
  intros Hk st x st'. unfold bind.
  destruct (m st) as [[a st1]| | |] eqn:Hst; try discriminate.
  apply Hk.
Qed.

Lemma bounds_remote_dealloc fuel target p sizeclass :
  0 < REMOTE_CACHE → bounds_remote (Heap := Heap) (remote_dealloc fuel target p sizeclass).
Proof.
  intros Hpos. unfold remote_dealloc. apply bounds_bind. intros _.
  by apply bounds_threshold.
Qed.

Lemma handle_message_queue_bounded fuel (st st' : Allocator (Heap := Heap)) x :
  0 < REMOTE_CACHE → rc_size (remote st) < REMOTE_CACHE →
  handle_message_queue fuel st = Ret (x, st') →
  rc_size (remote st') < REMOTE_CACHE.
Proof.
  intros Hpos Hst. unfold handle_message_queue, bind at 1, gets at 1.
  destruct (message_queue st).
  - intros H. by injection H as _ <-.
  - unfold handle_message_queue_inner. apply bounds_bind. intros _.
    by apply bounds_threshold.
Qed.

Lemma bounded_then_keeps {A : Type} fuel (m : M (Allocator (Heap := Heap)) A)
    (st st' : Allocator (Heap := Heap)) x :
  0 < REMOTE_CACHE → rc_size (remote st) < REMOTE_CACHE →
  (∀ st1 x1 st2, rc_size (remote st1) < REMOTE_CACHE → m st1 = Ret (x1, st2) →
     rc_size (remote st2) < REMOTE_CACHE) →
  (handle_message_queue fuel ;; m) st = Ret (x, st') →
  rc_size (remote st') < REMOTE_CACHE.
Proof.
  intros Hpos Hst Hm. unfold bind.
  destruct (handle_message_queue fuel st) as [[[] st1]| | |] eqn:Hq; try discriminate.
  apply Hm. by eapply handle_message_queue_bounded.
Qed.

(** X7: between operations the outgoing cache holds less than
    [REMOTE_CACHE] bytes.  If it does before [alloc], [dealloc(p)] or
    [dealloc(p, size)], it does after the call returns: only
    [remote_dealloc] and the drain of the mailbox add to the cache, and both
    end with the test that posts. *)
Theorem outgoing_cache_bounded (zero_mem : ZeroMem) (allow_reserve : AllowReserve)
    (fuel : nat) p size (st : Allocator (Heap := Heap)) :
  0 < REMOTE_CACHE → rc_size (remote st) < REMOTE_CACHE →
  (∀ q st', alloc zero_mem allow_reserve fuel size st = Ret (q, st') →
     rc_size (remote st') < REMOTE_CACHE) ∧
  (∀ st', dealloc fuel p st = Ret (tt, st') → rc_size (remote st') < REMOTE_CACHE) ∧
  (∀ st', dealloc_sized fuel p size st = Ret (tt, st') →
     rc_size (remote st') < REMOTE_CACHE).
Proof.
  intros Hpos Hst.
  assert (Hkeep : ∀ A (m : M (Allocator (Heap := Heap)) A) st1 x1 st2, stays_local m →
            rc_size (remote st1) < REMOTE_CACHE → m st1 = Ret (x1, st2) →
            rc_size (remote st2) < REMOTE_CACHE).
  { intros A m st1 x1 st2 Hm H1 Hrun.
    destruct (proj2 (Hm st1) _ _ Hrun) as [-> _]. done. }
  assert (Hlocal : ∀ target me (a b : M (Allocator (Heap := Heap)) unit) st1 x1 st2,
            stays_local a → bounds_remote b →
            rc_size (remote st1) < REMOTE_CACHE →
            (if target =? me then a else b) st1 = Ret (x1, st2) →
            rc_size (remote st2) < REMOTE_CACHE).
  { intros target me a b st1 x1 st2 Ha Hb H1.
    destruct (target =? me); [by apply Hkeep|apply Hb]. }
  split; [|split].
  - intros q st'. apply bounded_then_keeps; try done.
    intros st1 x1 st2. apply Hkeep. cbv zeta.
    repeat first [ apply keeps_small_alloc | apply keeps_medium_alloc
                 | apply keeps_large_alloc | keeps_step ].
  - intros st'. apply bounded_then_keeps; try done.
    intros st1 x1 st2 H1. unfold bind at 1, gets at 1. unfold bind at 1.
    destruct (Pagemap_get (global_pagemap st1) p =? 0); [discriminate|].
    unfold ret at 1.
    destruct (Pagemap_get (global_pagemap st1) p =? PMSuperslab).
    { unfold bind, gets. apply Hlocal; try done.
      - apply keeps_small_dealloc.
      - by apply bounds_remote_dealloc. }
    destruct (Pagemap_get (global_pagemap st1) p =? PMMediumslab).
    { unfold bind, gets. apply Hlocal; try done.
      - apply keeps_medium_dealloc.
      - by apply bounds_remote_dealloc. }
    apply Hkeep; [|done].
    repeat first [ apply keeps_large_dealloc | keeps_step ].
  - intros st'. apply bounded_then_keeps; try done.
    intros st1 x1 st2 H1. cbv zeta.
    destruct (size_to_sizeclass size <? NUM_SMALL_CLASSES).
    { unfold bind, gets. apply Hlocal; try done.
      - apply keeps_small_dealloc.
      - by apply bounds_remote_dealloc. }
    destruct (size_to_sizeclass size <? NUM_SIZECLASSES).
    { unfold bind, gets. apply Hlocal; try done.
      - apply keeps_medium_dealloc.
      - by apply bounds_remote_dealloc. }
    apply Hkeep; [apply keeps_large_dealloc|done].
Qed.

End OutgoingCacheBound.

Section SlabRelease.
Context {cfg : Config} {Heap : Type} {eng : SlabEngine Heap}.

Lemma Pagemap_index_Superslab_get p :
  0 ≤ SUPERSLAB_BITS → Pagemap_index (Superslab_get p) = Pagemap_index p.
Proof.
  intros Hb. unfold Superslab_get. rewrite !Pagemap_index_div, align_down_eq by done.
  assert (0 < 2 ^ SUPERSLAB_BITS) by (apply pow2_pos; lia).
  rewrite Z.mul_comm. apply Z.div_mul. lia.
Qed.

Lemma same_superslab_same_index p q :
  0 ≤ SUPERSLAB_BITS → Superslab_get q = Superslab_get p →
  Pagemap_index q = Pagemap_index p.
Proof.
  intros Hb Heq.
  by rewrite <- (Pagemap_index_Superslab_get q), Heq, Pagemap_index_Superslab_get.
Qed.

Lemma clear_slab_lookup (pm : gmap Z Z) slab q :
  0 ≤ SUPERSLAB_BITS →
  Pagemap_get (clear_slab slab pm) q =
  if decide (Superslab_get q = Superslab_get slab) then PMNotOurs
  else Pagemap_get pm q.
Proof.
  intros Hb. unfold clear_slab, Pagemap_set, Pagemap_get.
  case_decide as Hq.
  - by rewrite (same_superslab_same_index _ _ Hb Hq), lookup_insert_eq.
  - rewrite lookup_insert_ne; [done|]. intros Heq. apply Hq.
    by rewrite !Superslab_get_eq, Heq by done.
Qed.

Lemma not_ours_is_fatal fuel q (st : Allocator (Heap := Heap)) :
  message_queue st = [] → Pagemap_get (global_pagemap st) q = PMNotOurs →
  dealloc fuel q st = Abort "Not allocated by this allocator" ∧
  alloc_size (global_pagemap st) (heap st) q = Abort "Not allocated by this allocator".
Proof.
  intros Hq Htag. split.
  - unfold dealloc, bind at 1. rewrite handle_message_queue_empty by done.
    unfold bind, gets. by rewrite Htag.
  - unfold alloc_size. by rewrite Htag.
Qed.

Lemma start_check_passes (slab p sizeclass : Z) (s : Allocator (Heap := Heap)) :
  SNMALLOC_SAFE_CLIENT = true ∨
    is_multiple_of_sizeclass (sizeclass_to_size sizeclass)
      (wrap (wrap (slab + SUPERSLAB_SIZE) - p)) = true →
  (if negb SNMALLOC_SAFE_CLIENT then
     if negb (is_multiple_of_sizeclass (sizeclass_to_size sizeclass)
                (wrap (wrap (slab + SUPERSLAB_SIZE) - p)))
     then error "Not deallocating start of an object"
     else ret tt
   else ret tt) s = Ret (tt, s).
Proof.
  intros [-> | ->]; [done|]. by destruct (negb SNMALLOC_SAFE_CLIENT).
Qed.

Lemma medium_dealloc_empty (st : Allocator (Heap := Heap)) slab p sizeclass
    was_full h' mp' :
  Mediumslab_dealloc slab p (heap st) (provider st) = (was_full, h', mp') →
  SNMALLOC_SAFE_CLIENT = true ∨
    is_multiple_of_sizeclass (sizeclass_to_size sizeclass)
      (wrap (wrap (slab + SUPERSLAB_SIZE) - p)) = true →
  Mediumslab_empty h' slab = true →
  ∃ st', medium_dealloc slab p sizeclass st = Ret (tt, st') ∧
    message_queue st' = message_queue st ∧
    global_pagemap st' = clear_slab slab (global_pagemap st) ∧
    default [] (large_stack (large_allocator st') !! 0) =
      slab :: default [] (large_stack (large_allocator st) !! 0).
Proof.
  intros Hdealloc Hstart Hempty.
  unfold medium_dealloc. unfold bind at 1. rewrite Hdealloc.
  unfold bind at 1. rewrite start_check_passes by done.
  unfold bind at 1, gets at 1.
  cbn [heap with_heap_provider with_heap]. rewrite Hempty.
  unfold bind, modify, provider_notify_not_using, modify, ret.
  destruct was_full, (DecommitStrategy_eqb decommit_strategy DecommitSuper);
    cbn [negb]; (eexists; split; [done|]); simpl;
    rewrite ?lookup_insert_eq; done.
Qed.

(** X8: what [medium_dealloc] does with the slab, when the free passes the
    start-of-object check.  If the slab has become empty it is taken off the
    list of its class unless it was full (a full slab is on no list), all
    but its first page is handed to [notify_not_using] exactly when
    [decommit_strategy] is [DecommitSuper], its pagemap entry is cleared and
    it is pushed on class 0 of the large allocator.  If it is not empty it
    is put on the list of its class exactly when it was full, and the
    pagemap and the large allocator are left alone. *)
Theorem medium_dealloc_recycles (st : Allocator (Heap := Heap)) slab p sizeclass
    was_full h' mp' :
  Mediumslab_dealloc slab p (heap st) (provider st) = (was_full, h', mp') →
  SNMALLOC_SAFE_CLIENT = true ∨
    is_multiple_of_sizeclass (sizeclass_to_size sizeclass)
      (wrap (wrap (slab + SUPERSLAB_SIZE) - p)) = true →
  let medium_class := u8 (sizeclass - NUM_SMALL_CLASSES) in
  ∃ st', medium_dealloc slab p sizeclass st = Ret (tt, st') ∧
    heap st' = h' ∧ message_queue st' = message_queue st ∧
    if Mediumslab_empty h' slab then
      medium_class_list medium_class st' =
        (if was_full then medium_class_list medium_class st
         else DLList_remove slab (medium_class_list medium_class st)) ∧
      mp_not_using (provider st') =
        mp_not_using mp' ++
        (if DecommitStrategy_eqb decommit_strategy DecommitSuper
         then [(wrap (slab + OS_PAGE_SIZE), wrap (SUPERSLAB_SIZE - OS_PAGE_SIZE))]
         else []) ∧
      global_pagemap st' = clear_slab slab (global_pagemap st) ∧
      default [] (large_stack (large_allocator st') !! 0) =
        slab :: default [] (large_stack (large_allocator st) !! 0)
    else
      medium_class_list medium_class st' =
        (if was_full then DLList_insert slab (medium_class_list medium_class st)
         else medium_class_list medium_class st) ∧
      mp_not_using (provider st') = mp_not_using mp' ∧
      global_pagemap st' = global_pagemap st ∧
      large_stack (large_allocator st') = large_stack (large_allocator st).
Proof.
  intros Hdealloc Hstart medium_class.
  unfold medium_dealloc. unfold bind at 1. rewrite Hdealloc.
  unfold bind at 1. rewrite start_check_passes by done.
  unfold bind at 1, gets at 1.
  cbn [heap with_heap_provider with_heap]. fold medium_class.
  destruct (Mediumslab_empty h' slab).
  - unfold bind, modify, provider_notify_not_using, modify, ret.
    destruct was_full, (DecommitStrategy_eqb decommit_strategy DecommitSuper);
      cbn [negb]; (eexists; split; [done|]); simpl;
      unfold medium_class_list; simpl;
      rewrite ?lookup_insert_eq, ?app_nil_r; done.
  - destruct was_full.
    + unfold modify. eexists; split; [done|]. simpl.
      unfold medium_class_list; simpl. by rewrite lookup_insert_eq.
    + unfold ret. eexists; split; [done|]. done.
Qed.

(** X9: freeing the last object of a medium slab with [dealloc(p)] gives
    the slab back: it is the top of class 0 of the large allocator, and from
    then on every pointer [q] into the slab is a pointer that is not ours:
    [dealloc(q)] and [alloc_size(q)] stop with that message, and
    [external_pointer] returns [0] and the all-ones pointer. *)
Theorem medium_slab_released (fuel n : nat) p (st : Allocator (Heap := Heap))
    was_full h' mp' :
  let slab := Superslab_get p in
  0 ≤ SUPERSLAB_BITS → message_queue st = [] →
  Pagemap_get (global_pagemap st) p = PMMediumslab →
  get_allocator (heap st) slab = public_state st →
  Mediumslab_dealloc slab p (heap st) (provider st) = (was_full, h', mp') →
  Mediumslab_empty h' slab = true →
  SNMALLOC_SAFE_CLIENT = true ∨
    is_multiple_of_sizeclass
      (sizeclass_to_size (Mediumslab_get_sizeclass (heap st) slab))
      (wrap (wrap (slab + SUPERSLAB_SIZE) - p)) = true →
  ∃ st', dealloc fuel p st = Ret (tt, st') ∧
    hd 0 (default [] (large_stack (large_allocator st') !! 0)) = slab ∧
    ∀ q, Superslab_get q = slab →
      dealloc fuel q st' = Abort "Not allocated by this allocator" ∧
      alloc_size (global_pagemap st') (heap st') q
        = Abort "Not allocated by this allocator" ∧
      external_pointer Start n (global_pagemap st') (heap st') q = Some 0 ∧
      external_pointer End_ n (global_pagemap st') (heap st') q = Some MAX_PTR.
Proof.
  intros slab Hb Hq Htag Howner Hdealloc Hempty Hstart.
  destruct (medium_dealloc_empty st slab p
              (Mediumslab_get_sizeclass (heap st) slab) was_full h' mp'
              Hdealloc Hstart Hempty)
    as (st' & Hrun & Hq' & Hpm & Hstack).
  exists st'. split; [|split].
  - unfold dealloc, bind at 1. rewrite handle_message_queue_empty by done.
    unfold bind, gets. rewrite Htag. simpl. fold slab. rewrite Howner, Z.eqb_refl.
    exact Hrun.
  - by rewrite Hstack.
  - intros q Hsame.
    assert (Hnot : Pagemap_get (global_pagemap st') q = PMNotOurs).
    { rewrite Hpm, clear_slab_lookup by done.
      rewrite decide_True; [done|].
      rewrite Hsame. unfold slab, Superslab_get.
      rewrite !align_down_eq by done.
      assert (0 < 2 ^ SUPERSLAB_BITS) by (apply pow2_pos; lia).
      rewrite (Z.mul_comm _ (p / _)), Z.div_mul by lia. lia. }
    destruct (not_ours_is_fatal fuel q st') as [Hfree Hsize]; [congruence|done|].
    split; [done|]. split; [done|].
    unfold external_pointer. rewrite Hnot. simpl. by destruct n.
Qed.

End SlabRelease.

Section SuperslabRelease.
Context {cfg : Config} {Heap : Type} {eng : SlabEngine Heap}.

Lemma small_dealloc_empty (st : Allocator (Heap := Heap)) super p sizeclass
    sc' h' mp' :
  Slab_dealloc (Slab_get p) super p (small_class sizeclass st) (heap st) (provider st)
    = (StatusChange, sc', h', mp') →
  Superslab_get_status h' super = Empty →
  ∃ st', small_dealloc super p sizeclass st = Ret (tt, st') ∧
    message_queue st' = message_queue st ∧
    super_available st' = DLList_remove super (super_available st) ∧
    global_pagemap st' = clear_slab super (global_pagemap st) ∧
    default [] (large_stack (large_allocator st') !! 0) =
      super :: default [] (large_stack (large_allocator st) !! 0).
Proof.
  intros Hdealloc Hstatus.
  unfold small_dealloc, bind, gets, call_slab_dealloc. rewrite Hdealloc. simpl.
  rewrite Hstatus.
  unfold modify, provider_notify_not_using, modify, ret.
  destruct (DecommitStrategy_eqb decommit_strategy DecommitSuper);
    (eexists; split; [done|]); simpl; rewrite ?lookup_insert_eq; done.
Qed.

(** X10: the same for a superslab.  When the free of a small object with
    [dealloc(p)] leaves the superslab [Empty], the superslab is the top of
    class 0 of the large allocator and not on [super_available], and every
    pointer into it is a pointer that is not ours from then on. *)
Theorem superslab_released (fuel n : nat) p (st : Allocator (Heap := Heap))
    sc' h' mp' :
  let super := Superslab_get p in
  let sizeclass := meta_sizeclass (heap st) super (Slab_get p) in
  0 ≤ SUPERSLAB_BITS → message_queue st = [] →
  Pagemap_get (global_pagemap st) p = PMSuperslab →
  get_allocator (heap st) super = public_state st →
  Slab_dealloc (Slab_get p) super p (small_class sizeclass st) (heap st) (provider st)
    = (StatusChange, sc', h', mp') →
  Superslab_get_status h' super = Empty →
  ∃ st', dealloc fuel p st = Ret (tt, st') ∧
    hd 0 (default [] (large_stack (large_allocator st') !! 0)) = super ∧
    (super ∉ super_available st') ∧
    ∀ q, Superslab_get q = super →
      dealloc fuel q st' = Abort "Not allocated by this allocator" ∧
      alloc_size (global_pagemap st') (heap st') q
        = Abort "Not allocated by this allocator" ∧
      external_pointer Start n (global_pagemap st') (heap st') q = Some 0 ∧
      external_pointer End_ n (global_pagemap st') (heap st') q = Some MAX_PTR.
Proof.
  intros super sizeclass Hb Hq Htag Howner Hdealloc Hstatus.
  destruct (small_dealloc_empty st super p sizeclass sc' h' mp' Hdealloc Hstatus)
    as (st' & Hrun & Hq' & Hav & Hpm & Hstack).
  exists st'. split; [|split; [|split]].
  - unfold dealloc, bind at 1. rewrite handle_message_queue_empty by done.
    unfold bind, gets. rewrite Htag. simpl. fold super. rewrite Howner, Z.eqb_refl.
    exact Hrun.
  - by rewrite Hstack.
  - rewrite Hav. apply DLList_remove_not_in.
  - intros q Hsame.
    assert (Hnot : Pagemap_get (global_pagemap st') q = PMNotOurs).
    { rewrite Hpm, clear_slab_lookup by done.
      rewrite decide_True; [done|].
      rewrite Hsame. unfold super, Superslab_get.
      rewrite !align_down_eq by done.
      assert (0 < 2 ^ SUPERSLAB_BITS) by (apply pow2_pos; lia).
      rewrite (Z.mul_comm _ (p / _)), Z.div_mul by lia. lia. }
    destruct (not_ours_is_fatal fuel q st') as [Hfree Hsize]; [congruence|done|].
    split; [done|]. split; [done|].
    unfold external_pointer. rewrite Hnot. simpl. by destruct n.
Qed.

(** X11: a superslab that [get_superslab] returns is the head of
    [super_available], so that a second call returns the same superslab and
    changes nothing.  When the list had no head the superslab is new: it is
    put on the list and marked as a superslab in the pagemap; otherwise the
    call changes nothing at all. *)
Theorem get_superslab_head (allow_reserve : AllowReserve)
    (st st' : Allocator (Heap := Heap)) super :
  get_superslab allow_reserve st = Ret (super, st') → super ≠ 0 →
  DLList_get_head (super_available st') = super ∧
  (∀ again, get_superslab again st' = Ret (super, st')) ∧
  if DLList_get_head (super_available st) =? 0 then
    super_available st' = super :: super_available st ∧
    global_pagemap st' = set_slab_super super (global_pagemap st) ∧
    Pagemap_get (global_pagemap st') super = PMSuperslab
  else st' = st.
Proof.
  intros Hrun Hsuper.
  assert (Hhead : ∀ (s : Allocator (Heap := Heap)) again,
            DLList_get_head (super_available s) = super →
            get_superslab again s = Ret (super, s)).
  { intros s again Hs. unfold get_superslab, bind at 1, gets at 1. rewrite Hs.
    destruct (Z.eqb_spec super 0); [done|]. done. }
  revert Hrun. unfold get_superslab, bind at 1, gets at 1.
  destruct (Z.eqb_spec (DLList_get_head (super_available st)) 0) as [Hnone|Hsome].
  - cbn [negb]. unfold bind at 1, large_allocator_alloc.
    destruct (LargeAlloc_alloc allow_reserve 0 SUPERSLAB_SIZE (large_allocator st))
      as [q la].
    destruct (AllowReserve_eqb allow_reserve NoReserve && (q =? 0)) eqn:Hnull.
    { intros [= -> <-]. apply andb_prop in Hnull as [_ Hnull]. lia. }
    unfold bind, deref, modify, ret. destruct (Z.eqb_spec q 0); [done|].
    cbn [heap public_state with_large_allocator provider large_allocator].
    destruct (Superslab_init q _ _ _) as [h mp].
    intros [= -> <-]. split; [done|]. split; [intros; by apply Hhead|].
    split; [done|]. split; [done|]. cbn [global_pagemap with_super_available with_pagemap].
    unfold Pagemap_get, set_slab_super, Pagemap_set. by rewrite lookup_insert_eq.
  - cbn [negb]. intros [= Hs <-]. split; [done|]. split; [|done].
    intros. by apply Hhead.
Qed.

End SuperslabRelease.

Section Recycling.
Context {cfg : Config} {Heap : Type} {eng : SlabEngine Heap}.

Lemma large_allocator_alloc_cached allow_reserve c size (st : Allocator (Heap := Heap))
    q rest :
  default [] (large_stack (large_allocator st) !! c) = q :: rest →
  large_allocator_alloc allow_reserve c size st =
    Ret (q, with_large_allocator
              {| memory_provider := provider st;
                 large_stack := <[c := rest]> (large_stack (large_allocator st)) |} st).
Proof.
  intros Hstack. unfold large_allocator_alloc, LargeAlloc_alloc. by rewrite Hstack.
Qed.

(** X12: the memory of a superslab that a free has emptied is used again,
    as either kind of slab.  Let [small_dealloc] release the superslab, and
    let no other superslab be at the head of [super_available] once it is
    taken off.  Then [get_superslab] takes it back from class 0 of the large
    allocator, with [NoReserve] too, and marks it as a superslab again; and
    [medium_alloc], for a class whose list has no head, takes the same
    block as a medium slab and marks it so.  Either way class 0 is left as
    it was before the free. *)
Theorem released_superslab_reused (zero_mem : ZeroMem) (allow_reserve : AllowReserve)
    (st : Allocator (Heap := Heap)) super p sizeclass sc' h' mp'
    medium_sizeclass rsize size :
  let medium_class := u8 (medium_sizeclass - NUM_SMALL_CLASSES) in
  super ≠ 0 →
  Slab_dealloc (Slab_get p) super p (small_class sizeclass st) (heap st) (provider st)
    = (StatusChange, sc', h', mp') →
  Superslab_get_status h' super = Empty →
  DLList_get_head (DLList_remove super (super_available st)) = 0 →
  DLList_get_head (medium_class_list medium_class st) = 0 →
  ∃ st1, small_dealloc super p sizeclass st = Ret (tt, st1) ∧
    Pagemap_get (global_pagemap st1) super = PMNotOurs ∧
    (∃ st2, get_superslab allow_reserve st1 = Ret (super, st2) ∧
       Pagemap_get (global_pagemap st2) super = PMSuperslab ∧
       super_available st2 = super :: DLList_remove super (super_available st) ∧
       default [] (large_stack (large_allocator st2) !! 0) =
         default [] (large_stack (large_allocator st) !! 0)) ∧
    (∃ q st2, medium_alloc zero_mem allow_reserve medium_sizeclass rsize size st1
              = Ret (q, st2) ∧
       Pagemap_get (global_pagemap st2) super = PMMediumslab ∧
       default [] (large_stack (large_allocator st2) !! 0) =
         default [] (large_stack (large_allocator st) !! 0)).
Proof.
  intros medium_class Hsuper Hdealloc Hstatus Hav Hmed.
  destruct (small_dealloc_empty st super p sizeclass sc' h' mp' Hdealloc Hstatus)
    as (st1 & Hrun & Hq1 & Hav1 & Hpm1 & Hstack1).
  assert (Hmed1 : medium_classes st1 = medium_classes st).
  { revert Hrun. unfold small_dealloc, bind, gets, call_slab_dealloc.
    rewrite Hdealloc. simpl. rewrite Hstatus.
    unfold modify, provider_notify_not_using, modify, ret.
    by destruct (DecommitStrategy_eqb decommit_strategy DecommitSuper);
      intros [= <-]. }
  assert (Hne : (super =? 0) = false) by lia.
  exists st1. split; [done|]. split; [|split].
  - rewrite Hpm1. unfold Pagemap_get, clear_slab, Pagemap_set.
    by rewrite lookup_insert_eq.
  - unfold get_superslab, bind at 1, gets at 1. rewrite Hav1, Hav.
    cbn [Z.eqb negb]. unfold bind at 1.
    rewrite (large_allocator_alloc_cached _ _ _ _ _ _ Hstack1), Hne, andb_false_r.
    unfold bind, deref, modify, ret. rewrite Hne.
    cbn [heap public_state with_large_allocator provider large_allocator memory_provider].
    destruct (Superslab_init super _ _ _) as [h mp] eqn:Hinit.
    eexists. split; [done|]. simpl.
    split; [|split].
    + unfold Pagemap_get, set_slab_super, Pagemap_set. by rewrite lookup_insert_eq.
    + by rewrite Hav1.
    + by rewrite lookup_insert_eq.
  - unfold medium_alloc, bind at 1, gets at 1.
    unfold medium_class_list at 1. rewrite Hmed1. fold medium_class.
    fold (medium_class_list medium_class st). rewrite Hmed.
    cbn [Z.eqb negb]. unfold bind at 1.
    rewrite (large_allocator_alloc_cached _ _ _ _ _ _ Hstack1), Hne, andb_false_r.
    unfold bind, deref, modify, ret, call_medium_alloc, bind, deref, gets. rewrite Hne.
    cbn [heap public_state with_large_allocator provider large_allocator memory_provider
         with_heap with_pagemap].
    destruct (Mediumslab_alloc zero_mem super size _ _) as [[q h] mp].
    cbn [heap with_heap_provider with_heap].
    destruct (negb (Mediumslab_full h super)).
    + eexists _, _. split; [done|]. simpl. split.
      * unfold Pagemap_get, set_slab_medium, Pagemap_set. by rewrite lookup_insert_eq.
      * by rewrite lookup_insert_eq.
    + eexists _, _. split; [done|]. simpl. split.
      * unfold Pagemap_get, set_slab_medium, Pagemap_set. by rewrite lookup_insert_eq.
      * by rewrite lookup_insert_eq.
Qed.

(** X13: the list of a medium class after [medium_alloc].  The slab the
    object came from is the head of the list when there is one, else a new
    slab that is marked in the pagemap.  Afterwards a slab that is full is
    not kept: the head is popped, and a new slab is not inserted; a slab
    with room left stays, or is inserted when it is new.  ([medium_alloc]
    with [NoReserve] may return null for lack of memory; that case is set
    aside.) *)
Theorem medium_alloc_list_discipline (zero_mem : ZeroMem) (allow_reserve : AllowReserve)
    (st st' : Allocator (Heap := Heap)) sizeclass rsize size p :
  let medium_class := u8 (sizeclass - NUM_SMALL_CLASSES) in
  let cached := DLList_get_head (medium_class_list medium_class st) in
  medium_alloc zero_mem allow_reserve sizeclass rsize size st = Ret (p, st') →
  (cached = 0 → allow_reserve = NoReserve → p ≠ 0) →
  ∃ slab, slab ≠ 0 ∧
    (cached ≠ 0 → slab = cached ∧ global_pagemap st' = global_pagemap st) ∧
    (cached = 0 →
       global_pagemap st' = set_slab_medium slab (global_pagemap st)) ∧
    medium_class_list medium_class st' =
      if Mediumslab_full (heap st') slab then
        (if cached =? 0 then medium_class_list medium_class st
         else tl (medium_class_list medium_class st))
      else
        (if cached =? 0 then slab :: medium_class_list medium_class st
         else medium_class_list medium_class st).
Proof.
  intros medium_class cached. unfold medium_alloc, bind at 1, gets at 1.
  fold medium_class. fold cached.
  destruct (Z.eqb_spec cached 0) as [Hnone|Hsome]; cbn [negb].
  - unfold bind at 1, large_allocator_alloc.
    destruct (LargeAlloc_alloc allow_reserve 0 SUPERSLAB_SIZE (large_allocator st))
      as [slab la].
    destruct (AllowReserve_eqb allow_reserve NoReserve && (slab =? 0)) eqn:Hnull.
    { intros [= <- <-] Hp. apply andb_prop in Hnull as [Hr _].
      destruct allow_reserve; [|done]. by destruct Hp. }
    unfold bind, deref, modify, ret, call_medium_alloc, bind, deref, gets.
    destruct (Z.eqb_spec slab 0); [done|].
    cbn [heap public_state with_large_allocator provider large_allocator memory_provider
         with_heap with_pagemap].
    destruct (Mediumslab_alloc zero_mem slab size _ _) as [[q h] mp].
    cbn [heap with_heap_provider with_heap].
    destruct (Mediumslab_full h slab) eqn:Hfull; cbn [negb];
      intros [= <- <-] _; exists slab; simpl; rewrite Hfull;
      (split; [done|]); (split; [done|]); (split; [done|]);
      unfold medium_class_list; simpl; rewrite ?lookup_insert_eq; done.
  - unfold bind, deref, modify, ret, call_medium_alloc, bind, deref, gets.
    destruct (Z.eqb_spec cached 0); [done|].
    destruct (Mediumslab_alloc zero_mem cached size _ _) as [[q h] mp].
    cbn [heap with_heap_provider with_heap].
    destruct (Mediumslab_full h cached) eqn:Hfull;
      intros [= <- <-] _; exists cached; simpl; rewrite Hfull;
      (split; [done|]); (split; [done|]); (split; [done|]);
      unfold medium_class_list; simpl; rewrite ?lookup_insert_eq; done.
Qed.

End Recycling.

Section SuperslabLists.
Context {cfg : Config} {Heap : Type} {eng : SlabEngine Heap}.

Lemma get_superslab_cases (allow_reserve : AllowReserve)
    (st st' : Allocator (Heap := Heap)) super :
  get_superslab allow_reserve st = Ret (super, st') →
  super_only_short_available st' = super_only_short_available st ∧
  ((super = 0 ∧ allow_reserve = NoReserve) ∨
   (super ≠ 0 ∧ DLList_get_head (super_available st') = super)).
Proof.
  unfold get_superslab, bind at 1, gets at 1.
  destruct (Z.eqb_spec (DLList_get_head (super_available st)) 0) as [Hnone|Hsome].
  - cbn [negb]. unfold bind at 1, large_allocator_alloc.
    destruct (LargeAlloc_alloc allow_reserve 0 SUPERSLAB_SIZE (large_allocator st))
      as [q la].
    destruct (AllowReserve_eqb allow_reserve NoReserve && (q =? 0)) eqn:Hnull.
    { intros [= -> <-]. apply andb_prop in Hnull as [Hr Hnull]. split; [done|].
      left. split; [lia|]. by destruct allow_reserve. }
    unfold bind, deref, modify, ret. destruct (Z.eqb_spec q 0); [done|].
    cbn [heap public_state with_large_allocator provider large_allocator].
    destruct (Superslab_init q _ _ _) as [h mp].
    intros [= -> <-]. split; [done|]. by right.
  - cbn [negb]. intros [= Hs <-]. split; [done|]. right. split; [lia|done].
Qed.

Lemma reposition_superslab_listed (st st' : Allocator (Heap := Heap)) super :
  DLList_get_head (super_available st) = super →
  reposition_superslab super st = Ret (tt, st') →
  listed_by_status st' super.
Proof.
  intros Hhead. unfold reposition_superslab, listed_by_status, bind at 1, gets at 1.
  destruct (Superslab_get_status (heap st) super) eqn:Hstatus.
  - intros [= <-]. cbn [heap with_super_available]. rewrite Hstatus.
    apply DLList_remove_not_in.
  - intros [= <-]. by rewrite Hstatus.
  - unfold bind, modify. intros [= <-]. simpl. rewrite Hstatus.
    split; [apply DLList_remove_not_in|done].
  - done.
Qed.

(** X14: where [alloc_slab] leaves the superslab it took the slab from.  A
    superslab popped from [super_only_short_available] is off that list, and
    [super_available] is untouched.  Otherwise the superslab is the one
    [get_superslab] returns (in the state after the pop of an empty short
    list, for a short class).  If that is null, which happens with
    [NoReserve] only, [alloc_slab] returns null in the state [get_superslab]
    left.  If not, this very superslab ends on the list of its status: the
    head of [super_available] when [Available], off it when [Full], off it
    and the head of [super_only_short_available] when only the short slab is
    left; and [alloc_slab] never returns with it [Empty]. *)
Theorem alloc_slab_repositions (allow_reserve : AllowReserve) sizeclass
    (st st' : Allocator (Heap := Heap)) slab :
  let short := Superslab_is_short_sizeclass sizeclass in
  let popped :=
    if short then DLList_get_head (super_only_short_available st) else 0 in
  let after_pop :=
    if short
    then with_super_only_short_available (tl (super_only_short_available st)) st
    else st in
  alloc_slab allow_reserve sizeclass st = Ret (slab, st') →
  if popped =? 0 then
    ∃ super st1,
      get_superslab allow_reserve after_pop = Ret (super, st1) ∧
      if super =? 0 then allow_reserve = NoReserve ∧ slab = 0 ∧ st' = st1
      else listed_by_status st' super
  else
    super_only_short_available st' = tl (super_only_short_available st) ∧
    super_available st' = super_available st.
Proof.
  intros short popped after_pop. unfold alloc_slab.
  assert (Hfresh : ∀ (call : Z → Z → M (Allocator (Heap := Heap)) Z) s,
    (∀ super s1 x s2, call super sizeclass s1 = Ret (x, s2) →
       super_available s2 = super_available s1) →
    (let* super := get_superslab allow_reserve in
     if AllowReserve_eqb allow_reserve NoReserve && (super =? 0) then ret 0
     else
       let* slab := call super sizeclass in
       reposition_superslab super ;; ret slab) s = Ret (slab, st') →
    ∃ super st1,
      get_superslab allow_reserve s = Ret (super, st1) ∧
      if super =? 0 then allow_reserve = NoReserve ∧ slab = 0 ∧ st' = st1
      else listed_by_status st' super).
  { intros call s Hcall. unfold bind at 1.
    destruct (get_superslab allow_reserve s) as [[super s1]| | |] eqn:Hget;
      try discriminate.
    intros Hrun. exists super, s1. split; [done|]. revert Hrun.
    destruct (get_superslab_cases _ _ _ _ Hget) as [_ [[-> ->]|[Hsuper Hhead]]].
    { cbn. by intros [= <- <-]. }
    assert ((super =? 0) = false) as -> by lia. rewrite andb_false_r.
    unfold bind at 1.
    destruct (call super sizeclass s1) as [[x s2]| | |] eqn:Hx; try discriminate.
    unfold bind, ret.
    destruct (reposition_superslab super s2) as [[[] s3]| | |] eqn:Hrepos;
      try discriminate.
    intros [= <- <-].
    eapply reposition_superslab_listed; [|done].
    by rewrite (Hcall _ _ _ _ Hx). }
  assert (Hshort : ∀ super s1 x s2,
            call_alloc_short_slab super sizeclass s1 = Ret (x, s2) →
            super_available s2 = super_available s1 ∧
            super_only_short_available s2 = super_only_short_available s1).
  { intros super s1 x s2. unfold call_alloc_short_slab, bind, deref.
    destruct (super =? 0); [done|].
    destruct (Superslab_alloc_short_slab _ _ _ _) as [[y h] mp].
    by intros [= _ <-]. }
  assert (Hslab : ∀ super s1 x s2,
            call_alloc_slab super sizeclass s1 = Ret (x, s2) →
            super_available s2 = super_available s1).
  { intros super s1 x s2. unfold call_alloc_slab, bind, deref.
    destruct (super =? 0); [done|].
    destruct (Superslab_alloc_slab _ _ _ _) as [[y h] mp].
    by intros [= _ <-]. }
  subst short popped after_pop. destruct (Superslab_is_short_sizeclass sizeclass).
  - unfold bind at 1. unfold DLList_pop. fold (DLList_get_head (super_only_short_available st)).
    destruct (Z.eqb_spec (DLList_get_head (super_only_short_available st)) 0)
      as [Hnone|Hsome]; cbn [negb].
    + apply Hfresh. intros super s1 x s2 Hx. by apply Hshort in Hx as [? _].
    + intros Hx. apply Hshort in Hx as [Hav Hshortav]. by rewrite Hav, Hshortav.
  - cbn [Z.eqb]. apply Hfresh. done.
Qed.

End SuperslabLists.

Section PostsEnd.
Context {cfg : Config} {Heap : Type} {eng : SlabEngine Heap}.
Variables (N : Z) (fuel : nat).
Hypothesis slot_bits : 0 < REMOTE_SLOT_BITS < 64.
Hypothesis allocators : 1 < N ≤ 2 ^ 64.
Hypothesis enough_fuel : Z.log2_up N ≤ Z.of_nat fuel * REMOTE_SLOT_BITS.
Hypothesis owners_below :
  ∀ (h : Heap) slab, 0 ≤ RemoteAllocator_id (get_allocator h slab) < N.
Hypothesis ids_differ : ∀ a b, RemoteAllocator_id a = RemoteAllocator_id b → a = b.

Lemma local_posts_safely {A : Type} (m : M (Allocator (Heap := Heap)) A) :
  stays_local m → posts_safely N m.
Proof.
  intros Hm st (Hid & Hd & Hbelow & Hq). destruct (Hm st) as [Hfuel Hst].
  split; [done|]. intros x st' Hrun.
  destruct (Hst _ _ Hrun) as (Hr & Hp & Hmq).
  unfold cache_invariant, get_id. by rewrite Hr, Hp, Hmq.
Qed.

Lemma posts_safely_gets {A B : Type} (f : Allocator (Heap := Heap) → A)
    (k : A → M (Allocator (Heap := Heap)) B) :
  (∀ st, posts_safely N (k (f st))) → posts_safely N (bind (gets f) k).
Proof. intros Hk st Hinv. by apply (Hk st st). Qed.

Lemma posts_safely_bind {A B : Type} (m : M (Allocator (Heap := Heap)) A) (k : A → M (Allocator (Heap := Heap)) B) :
  posts_safely N m → (∀ a, posts_safely N (k a)) → posts_safely N (bind m k).
Proof.
  intros Hm Hk st Hinv. unfold bind. destruct (Hm st Hinv) as [Hfuel Hst].
  destruct (m st) as [[a st1]| | |]; try done.
  apply Hk. by eapply Hst.
Qed.

Lemma remote_post_safely : posts_safely N (remote_post fuel).
Proof.
  intros st (Hid & Hd & Hbelow & Hq). unfold remote_post, RemoteCache_post.
  assert (Hb : 2 ^ Z.pred (Z.log2_up N) < N ≤ 2 ^ Z.log2_up N)
    by (apply Z.log2_up_spec; lia).
  assert (Hb0 : 0 < Z.log2_up N) by (apply Z.log2_up_pos; lia).
  assert (Hb64 : Z.log2_up N ≤ 64).
  { destruct (Z_lt_le_dec 64 (Z.log2_up N)) as [Hgt|]; [|done].
    assert (2 ^ 64 ≤ 2 ^ Z.pred (Z.log2_up N)) by (apply pow2_le_mono; lia). lia. }
  destruct (post_loop_terminates fuel (get_id st) 0 (Z.log2_up N) N (heap st)
              (rc_list (remote st)) [])
    as (l' & out' & -> & Hempty); auto; try lia.
  cbv beta iota. split; [done|]. intros x st' [= _ <-].
  split; [|split; [|split]].
  - done.
  - intros i r Hr. cbn in Hr. rewrite Hempty in Hr. by apply elem_of_nil in Hr.
  - intros i r Hr. cbn in Hr. rewrite Hempty in Hr. by apply elem_of_nil in Hr.
  - done.
Qed.

Lemma threshold_posts_safely :
  posts_safely N
    (let* size := gets (fun st => rc_size (remote st)) in
     if size <? REMOTE_CACHE then ret tt else remote_post fuel).
Proof.
  apply posts_safely_bind; [apply local_posts_safely, keeps_gets|]. intros size.
  destruct (size <? REMOTE_CACHE); [apply local_posts_safely, keeps_ret|].
  apply remote_post_safely.
Qed.

Lemma file_keeps_invariant target p sizeclass (st : Allocator (Heap := Heap)) :
  cache_invariant N st → target ≠ get_id st → 0 ≤ target < N →
  cache_invariant N
    (with_remote (RemoteCache_dealloc target p sizeclass (remote st)) st).
Proof.
  intros (Hid & Hd & Hbelow & Hq) Hne Hrange. split; [|split; [|split]].
  - done.
  - by apply RemoteCache_dealloc_discriminated.
  - intros i r Hr. cbn in Hr. apply bucket_append_slot_elem in Hr.
    destruct Hr as [Hr|[-> _]]; [by eapply Hbelow|done].
  - done.
Qed.

Lemma remote_dealloc_safely target p sizeclass (st : Allocator (Heap := Heap)) :
  cache_invariant N st → target ≠ public_state st →
  0 ≤ RemoteAllocator_id target < N →
  remote_dealloc fuel target p sizeclass st ≠ OutOfFuel ∧
  ∀ x st', remote_dealloc fuel target p sizeclass st = Ret (x, st') →
    cache_invariant N st'.
Proof.
  intros Hinv Hne Hrange. unfold remote_dealloc, bind at 1, modify at 1.
  apply threshold_posts_safely. apply file_keeps_invariant; [done| |done].
  unfold get_id. intros Heq. by apply ids_differ in Heq.
Qed.

Lemma handle_dealloc_remote_safely (r : Remote) :
  0 ≤ r_target_id r < N → posts_safely N (handle_dealloc_remote r).
Proof.
  intros Hr st Hinv. rewrite handle_dealloc_remote_dispatch.
  unfold dispatch_as_specified.
  destruct (r_addr r =? stub st); [by split; [|intros x st' [= _ <-]]|].
  destruct (Z.eqb_spec (r_target_id r) (get_id st)) as [Hme|Hother].
  - destruct (r_sizeclass r <? NUM_SMALL_CLASSES).
    + apply local_posts_safely; [apply keeps_small_dealloc|done].
    + apply local_posts_safely; [apply keeps_medium_dealloc|done].
  - split; [done|]. intros x st' [= _ <-].
    rewrite <- RemoteCache_dealloc_enqueues. by apply file_keeps_invariant.
Qed.

Lemma handle_message_queue_loop_safely (n : nat) :
  posts_safely N (handle_message_queue_loop n).
Proof.
  induction n as [|n IH]; [apply local_posts_safely, keeps_ret|].
  intros st Hinv.
  assert (Hstep : handle_message_queue_loop (S n) st =
            match message_queue st with
            | [] => Ret (tt, st)
            | r :: rest =>
                (handle_dealloc_remote r ;; handle_message_queue_loop n)
                  (with_message_queue rest st)
            end).
  { cbn [handle_message_queue_loop]. unfold bind at 1, message_queue_pop.
    by destruct (message_queue st). }
  rewrite Hstep. clear Hstep.
  destruct (message_queue st) as [|r rest] eqn:Hmq.
  - by split; [|intros x st' [= _ <-]].
  - destruct Hinv as (Hid & Hd & Hbelow & Hq).
    apply posts_safely_bind; [|intros _; apply IH|].
    + apply handle_dealloc_remote_safely. apply Hq. rewrite Hmq. by left.
    + split; [done|]. split; [done|]. split; [done|].
      intros r' Hr'. apply Hq. rewrite Hmq. by right.
Qed.

Lemma handle_message_queue_safely : posts_safely N (handle_message_queue fuel).
Proof.
  intros st Hinv.
  assert (Hstep : handle_message_queue fuel st =
            match message_queue st with
            | [] => Ret (tt, st)
            | _ :: _ => handle_message_queue_inner fuel st
            end).
  { unfold handle_message_queue, bind at 1, gets at 1.
    by destruct (message_queue st). }
  rewrite Hstep. clear Hstep.
  destruct (message_queue st).
  - by split; [|intros x st' [= _ <-]].
  - unfold handle_message_queue_inner.
    apply posts_safely_bind; [apply handle_message_queue_loop_safely| |done].
    intros _. apply threshold_posts_safely.
Qed.

Lemma owner_posts_safely target p sizeclass (m : M (Allocator (Heap := Heap)) unit) :
  0 ≤ RemoteAllocator_id target < N → stays_local m →
  posts_safely N
    (let* me := gets public_state in
     if target =? me then m else remote_dealloc fuel target p sizeclass).
Proof.
  intros Hrange Hm st Hinv.
  assert (Hstep :
    (let* me := gets public_state in
     if target =? me then m else remote_dealloc fuel target p sizeclass) st =
    (if target =? public_state st then m else remote_dealloc fuel target p sizeclass) st)
    by done.
  rewrite Hstep. clear Hstep.
  destruct (Z.eqb_spec target (public_state st)).
  - by apply local_posts_safely.
  - by apply remote_dealloc_safely.
Qed.

(** X15: no operation of an allocator is stuck in [post].  Let the ids of
    allocators be unique, the owners recorded in slab headers have ids
    below [N], and the fuel cover [⌈log₂ N / REMOTE_SLOT_BITS⌉] iterations.
    Then [alloc], [dealloc(p)] and [dealloc(p, size)], started where
    [cache_invariant] holds, never run out of fuel, whatever the mailbox
    delivers and however often they post, and [cache_invariant] holds again
    when they return. *)
Theorem operations_post_safely (zero_mem : ZeroMem) (allow_reserve : AllowReserve)
    p size :
  posts_safely N (alloc zero_mem allow_reserve fuel size) ∧
  posts_safely N (dealloc fuel p) ∧
  posts_safely N (dealloc_sized fuel p size).
Proof.
  split; [|split].
  - unfold alloc. apply posts_safely_bind; [apply handle_message_queue_safely|].
    intros _. cbv zeta. apply local_posts_safely.
    repeat first [ apply keeps_small_alloc | apply keeps_medium_alloc
                 | apply keeps_large_alloc | keeps_step ].
  - unfold dealloc. apply posts_safely_bind; [apply handle_message_queue_safely|].
    intros _. apply posts_safely_bind; [apply local_posts_safely, keeps_gets|].
    intros tag.
    apply posts_safely_bind;
      [apply local_posts_safely; destruct (tag =? 0);
         [apply keeps_error|apply keeps_ret]|].
    intros _. cbv zeta.
    destruct (tag =? PMSuperslab).
    { apply posts_safely_gets. intros st0.
      apply posts_safely_bind; [apply local_posts_safely, keeps_gets|]. intros sc.
      apply owner_posts_safely; [apply owners_below|apply keeps_small_dealloc]. }
    destruct (tag =? PMMediumslab).
    { apply posts_safely_gets. intros st0.
      apply posts_safely_bind; [apply local_posts_safely, keeps_gets|]. intros sc.
      apply owner_posts_safely; [apply owners_below|apply keeps_medium_dealloc]. }
    apply local_posts_safely.
    repeat first [ apply keeps_large_dealloc | keeps_step ].
  - unfold dealloc_sized.
    apply posts_safely_bind; [apply handle_message_queue_safely|].
    intros _. cbv zeta.
    destruct (size_to_sizeclass size <? NUM_SMALL_CLASSES).
    { apply posts_safely_gets. intros st0.
      apply owner_posts_safely; [apply owners_below|apply keeps_small_dealloc]. }
    destruct (size_to_sizeclass size <? NUM_SIZECLASSES).
    { apply posts_safely_gets. intros st0.
      apply owner_posts_safely; [apply owners_below|apply keeps_medium_dealloc]. }
    apply local_posts_safely, keeps_large_dealloc.
Qed.

End PostsEnd.

(** * The further properties on concrete states *)



(** X2 on the 64 MiB object at [2^30], read at its third superslab. *)
Lemma clear_large_size_undoes_set_large_size_witness :
  (0 ≤ 24 ≤ 26 ∧ 26 < 64 ∧ 0 ≤ 2 ^ 30 ∧ 2 ^ 30 + 2 ^ 26 ≤ 2 ^ 64) ∧
  Pagemap_get (cfg := example_config)
    (clear_large_size (cfg := example_config) (2 ^ 30) (2 ^ 26)
       (set_large_size (cfg := example_config) (2 ^ 30) (2 ^ 26) ∅))
    (2 ^ 30 + 2 * 2 ^ 24 + 100) = PMNotOurs.
Proof.
  split; [lia|].
  apply (clear_large_size_undoes_set_large_size (cfg := example_config)
           (2 ^ 30) (2 ^ 26) ∅ (2 ^ 30 + 2 * 2 ^ 24 + 100)).
  - vm_compute. split; discriminate.
  - reflexivity.
  - lia.
  - vm_compute. discriminate.
Defined.

Lemma large_alloc_one_block :
  ∃ st1,
    large_alloc (cfg := example_config) NoZero YesReserve (17 * 2 ^ 20)
      (fresh_allocator example_heap one_block_provider) = Ret (2 ^ 30, st1).
Proof. eexists. vm_compute. reflexivity. Qed.

(** X3 on a 17 MiB request served from the block at [2^30]. *)
Lemma alloc_size_of_large_alloc_witness :
  ∃ st1,
    large_alloc (cfg := example_config) NoZero YesReserve (17 * 2 ^ 20)
      (fresh_allocator example_heap one_block_provider) = Ret (2 ^ 30, st1) ∧
    alloc_size (cfg := example_config) (eng := scripted_engine)
      (global_pagemap st1) (heap st1) (2 ^ 30) = Ret (2 ^ 25) ∧
    17 * 2 ^ 20 ≤ 2 ^ 25.
Proof.
  destruct large_alloc_one_block as [st1 Halloc]. exists st1. split; [exact Halloc|].
  apply (alloc_size_of_large_alloc (cfg := example_config) (eng := scripted_engine)
           NoZero YesReserve (17 * 2 ^ 20)
           (fresh_allocator example_heap one_block_provider) st1 (2 ^ 30) Halloc).
  - vm_compute. split; reflexivity.
  - vm_compute. split; discriminate.
  - lia.
  - vm_compute. discriminate.
Defined.

(** X4 on the same object, freed twice. *)
Lemma large_object_double_free_witness :
  ∃ st1 st2,
    large_alloc (cfg := example_config) NoZero YesReserve (17 * 2 ^ 20)
      (fresh_allocator example_heap one_block_provider) = Ret (2 ^ 30, st1) ∧
    dealloc (cfg := example_config) (eng := scripted_engine) 0 (2 ^ 30) st1
      = Ret (tt, st2) ∧
    dealloc (cfg := example_config) (eng := scripted_engine) 0 (2 ^ 30) st2
      = Abort "Not allocated by this allocator" ∧
    external_pointer (cfg := example_config) (eng := scripted_engine) Start 0
      (global_pagemap st2) (heap st2) (2 ^ 30 + 2 ^ 24) = Some 0.
Proof.
  destruct large_alloc_one_block as [st1 Halloc].
  destruct (large_object_double_free (cfg := example_config) (eng := scripted_engine)
              NoZero YesReserve 0 (17 * 2 ^ 20)
              (fresh_allocator example_heap one_block_provider) st1 (2 ^ 30) Halloc)
    as (st2 & Hfree & Hagain & _ & Hext).
  - reflexivity.
  - vm_compute. split; [reflexivity|discriminate].
  - reflexivity.
  - lia.
  - vm_compute. discriminate.
  - reflexivity.
  - exists st1, st2. split; [exact Halloc|]. split; [exact Hfree|].
    split; [exact Hagain|].
    apply (Hext (2 ^ 24) 0%nat). vm_compute. split; [discriminate|reflexivity].
Defined.

(** X5 on the 17 MiB object of [large_object_state]. *)
Lemma large_block_reused_witness :
  (message_queue large_object_state = [] ∧ 2 ^ 30 ≠ 0 ∧
   Pagemap_get (cfg := example_config) (global_pagemap large_object_state) (2 ^ 30)
     = 25 ∧ 24 ≤ 25 < 64) ∧
  ∃ st1 st2,
    dealloc_sized (cfg := example_config) (eng := scripted_engine) 0 (2 ^ 30)
      (17 * 2 ^ 20) large_object_state = Ret (tt, st1) ∧
    alloc (cfg := example_config) (eng := scripted_engine) NoZero NoReserve 0
      (17 * 2 ^ 20) st1 = Ret (2 ^ 30, st2) ∧
    mp_reserve_calls (provider st2) = mp_reserve_calls (provider large_object_state).
Proof.
  split; [split; [reflexivity|split; [lia|split; [reflexivity|lia]]]|].
  destruct (large_block_reused (cfg := example_config) (eng := scripted_engine)
              NoZero NoReserve 0 (2 ^ 30) (17 * 2 ^ 20) large_object_state)
    as (st1 & st2 & Hfree & Halloc & Hcalls & _).
  - reflexivity.
  - lia.
  - reflexivity.
  - vm_compute. split; [discriminate|reflexivity].
  - vm_compute. discriminate.
  - vm_compute. discriminate.
  - exists st1, st2. split; [exact Hfree|]. split; [exact Halloc|exact Hcalls].
Defined.

(** X6 on the 17 MiB object: both forms of [dealloc] take the large path. *)
Lemma dealloc_forms_agree_witness :
  message_queue large_object_state = [] ∧
  dealloc (cfg := example_config) (eng := scripted_engine) 0 (2 ^ 30)
    large_object_state =
  dealloc_sized (cfg := example_config) (eng := scripted_engine) 0 (2 ^ 30)
    (17 * 2 ^ 20) large_object_state.
Proof.
  split; [reflexivity|].
  apply (dealloc_forms_agree (cfg := example_config) (eng := scripted_engine)
           0 (2 ^ 30) (17 * 2 ^ 20) large_object_state eq_refl).
  - reflexivity.
  - vm_compute. split; reflexivity.
  - vm_compute. discriminate.
  - vm_compute. discriminate.
  - reflexivity.
Defined.

(** X7 on [filling_state], whose cache holds 224 bytes: the free of a
    48-byte object of allocator [0] takes the cache past [REMOTE_CACHE], and
    [remote_dealloc] posts it. *)
Lemma outgoing_cache_bounded_witness :
  (0 < 256 ∧ rc_size (remote filling_state) = 224) ∧
  ∃ st',
    dealloc (cfg := example_config) (eng := owners_engine) 3 (2 ^ 24 + 65536 + 96)
      filling_state = Ret (tt, st') ∧
    posted st' ≠ [] ∧
    rc_size (remote st') < 256.
Proof.
  split; [split; [lia|reflexivity]|].
  assert (Hrun : ∃ st',
    dealloc (cfg := example_config) (eng := owners_engine) 3 (2 ^ 24 + 65536 + 96)
      filling_state = Ret (tt, st') ∧ posted st' ≠ []).
  { eexists. vm_compute. split; [reflexivity|discriminate]. }
  destruct Hrun as (st' & Hrun & Hposted). exists st'.
  split; [exact Hrun|]. split; [exact Hposted|].
  destruct (outgoing_cache_bounded (cfg := example_config) (eng := owners_engine)
              NoZero YesReserve 3 (2 ^ 24 + 65536 + 96) 0 filling_state)
    as (_ & Hdealloc & _).
  - reflexivity.
  - reflexivity.
  - exact (Hdealloc st' Hrun).
Defined.

(** X8 on the last cell in use of the medium slab at [2^25]. *)
Lemma medium_dealloc_recycles_witness :
  ∃ st',
    medium_dealloc (cfg := example_config) (eng := scripted_engine)
      (2 ^ 25) (2 ^ 25 + 2 ^ 24 - 8192) 4 one_mediumslab_state = Ret (tt, st') ∧
    medium_class_list 0 st' = [] ∧
    global_pagemap st' =
      clear_slab (cfg := example_config) (2 ^ 25) (global_pagemap one_mediumslab_state) ∧
    default [] (large_stack (large_allocator st') !! 0) = [2 ^ 25].
Proof.
  destruct (medium_dealloc_recycles (cfg := example_config) (eng := scripted_engine)
              one_mediumslab_state (2 ^ 25) (2 ^ 25 + 2 ^ 24 - 8192) 4
              false (Scripted_medium_used 0 medium_heap) empty_provider eq_refl)
    as (st' & Hrun & _ & _ & Hlist & _ & Hpm & Hstack).
  - right. reflexivity.
  - exists st'. split; [exact Hrun|]. split; [exact Hlist|].
    split; [exact Hpm|exact Hstack].
Defined.

(** X9 on the same free, through [dealloc], and a second free of the cell. *)
Lemma medium_slab_released_witness :
  ∃ st',
    dealloc (cfg := example_config) (eng := scripted_engine) 0
      (2 ^ 25 + 2 ^ 24 - 8192) one_mediumslab_state = Ret (tt, st') ∧
    hd 0 (default [] (large_stack (large_allocator st') !! 0)) = 2 ^ 25 ∧
    dealloc (cfg := example_config) (eng := scripted_engine) 0
      (2 ^ 25 + 2 ^ 24 - 8192) st' = Abort "Not allocated by this allocator".
Proof.
  destruct (medium_slab_released (cfg := example_config) (eng := scripted_engine)
              0 0 (2 ^ 25 + 2 ^ 24 - 8192) one_mediumslab_state
              false (Scripted_medium_used 0 medium_heap) empty_provider)
    as (st' & Hrun & Hstack & Hagain).
  - vm_compute. discriminate.
  - reflexivity.
  - reflexivity.
  - reflexivity.
  - reflexivity.
  - reflexivity.
  - right. reflexivity.
  - exists st'. split; [exact Hrun|]. split; [exact Hstack|].
    exact (proj1 (Hagain (2 ^ 25 + 2 ^ 24 - 8192) eq_refl)).
Defined.

(** X10 on the superslab at [2^24], emptied by the free. *)
Lemma superslab_released_witness :
  ∃ st',
    dealloc (cfg := example_config) (eng := scripted_engine) 0
      (2 ^ 24 + 65536 + 96) one_superslab_state = Ret (tt, st') ∧
    hd 0 (default [] (large_stack (large_allocator st') !! 0)) = 2 ^ 24 ∧
    dealloc (cfg := example_config) (eng := scripted_engine) 0
      (2 ^ 24 + 65536 + 96) st' = Abort "Not allocated by this allocator".
Proof.
  destruct (superslab_released (cfg := example_config) (eng := scripted_engine)
              0 0 (2 ^ 24 + 65536 + 96) one_superslab_state
              [] (Scripted_status Empty example_heap) empty_provider)
    as (st' & Hrun & Hstack & _ & Hagain).
  - vm_compute. discriminate.
  - reflexivity.
  - reflexivity.
  - reflexivity.
  - reflexivity.
  - reflexivity.
  - exists st'. split; [exact Hrun|]. split; [exact Hstack|].
    exact (proj1 (Hagain (2 ^ 24 + 65536 + 96) eq_refl)).
Defined.

(** X11 on a fresh allocator: the block at [2^30] becomes its superslab. *)
Lemma get_superslab_head_witness :
  ∃ st',
    get_superslab (cfg := example_config) (eng := scripted_engine) YesReserve
      (fresh_allocator example_heap one_block_provider) = Ret (2 ^ 30, st') ∧
    DLList_get_head (super_available st') = 2 ^ 30 ∧
    get_superslab (cfg := example_config) (eng := scripted_engine) NoReserve st'
      = Ret (2 ^ 30, st') ∧
    Pagemap_get (cfg := example_config) (global_pagemap st') (2 ^ 30) = PMSuperslab.
Proof.
  assert (Hrun : ∃ st',
    get_superslab (cfg := example_config) (eng := scripted_engine) YesReserve
      (fresh_allocator example_heap one_block_provider) = Ret (2 ^ 30, st')).
  { eexists. vm_compute. reflexivity. }
  destruct Hrun as [st' Hrun]. exists st'. split; [exact Hrun|].
  destruct (get_superslab_head (cfg := example_config) (eng := scripted_engine)
              YesReserve (fresh_allocator example_heap one_block_provider) st'
              (2 ^ 30) Hrun)
    as (Hhead & Hagain & _ & _ & Htag).
  - lia.
  - split; [exact Hhead|]. split; [exact (Hagain NoReserve)|exact Htag].
Defined.

(** X12 on the superslab at [2^24]: released by a free, then handed out
    again as a superslab or as a medium slab. *)
Lemma released_superslab_reused_witness :
  ∃ st1,
    small_dealloc (cfg := example_config) (eng := scripted_engine)
      (2 ^ 24) (2 ^ 24 + 65536 + 96) 2 one_superslab_state = Ret (tt, st1) ∧
    (∃ st2, get_superslab (cfg := example_config) (eng := scripted_engine)
              NoReserve st1 = Ret (2 ^ 24, st2) ∧
       Pagemap_get (cfg := example_config) (global_pagemap st2) (2 ^ 24)
         = PMSuperslab) ∧
    (∃ q st2, medium_alloc (cfg := example_config) (eng := scripted_engine)
                NoZero NoReserve 4 4096 4096 st1 = Ret (q, st2) ∧
       Pagemap_get (cfg := example_config) (global_pagemap st2) (2 ^ 24)
         = PMMediumslab).
Proof.
  destruct (released_superslab_reused (cfg := example_config) (eng := scripted_engine)
              NoZero NoReserve one_superslab_state (2 ^ 24) (2 ^ 24 + 65536 + 96) 2
              [] (Scripted_status Empty example_heap) empty_provider 4 4096 4096)
    as (st1 & Hrun & _ & (st2 & Hsuper & Htag & _) & (q & st3 & Hmedium & Htag3 & _)).
  - lia.
  - reflexivity.
  - reflexivity.
  - reflexivity.
  - reflexivity.
  - exists st1. split; [exact Hrun|]. split.
    + exists st2. split; [exact Hsuper|exact Htag].
    + exists q, st3. split; [exact Hmedium|exact Htag3].
Defined.

(** X13 on the medium slab at [2^25], which has room for the request. *)
Lemma medium_alloc_list_discipline_witness :
  ∃ p st',
    medium_alloc (cfg := example_config) (eng := scripted_engine)
      NoZero YesReserve 4 4096 4096 one_mediumslab_state = Ret (p, st') ∧
    medium_class_list 0 st' = [2 ^ 25] ∧
    global_pagemap st' = global_pagemap one_mediumslab_state.
Proof.
  assert (Hrun : ∃ p st',
    medium_alloc (cfg := example_config) (eng := scripted_engine)
      NoZero YesReserve 4 4096 4096 one_mediumslab_state = Ret (p, st') ∧
    Mediumslab_full (SlabEngine := scripted_engine) (heap st') (2 ^ 25) = false).
  { eexists _, _. vm_compute. split; reflexivity. }
  destruct Hrun as (p & st' & Hrun & Hfull). exists p, st'. split; [exact Hrun|].
  destruct (medium_alloc_list_discipline (cfg := example_config)
              (eng := scripted_engine) NoZero YesReserve one_mediumslab_state st'
              4 4096 4096 p Hrun)
    as (slab & _ & Hcached & _ & Hlist).
  - intros Hnone. vm_compute in Hnone. discriminate.
  - destruct (Hcached ltac:(vm_compute; discriminate)) as [Hslab Hpm].
    assert (slab = 2 ^ 25) as -> by (rewrite Hslab; reflexivity).
    rewrite Hfull in Hlist. split; [exact Hlist|exact Hpm].
Defined.

(** X14 on the superslab at [2^24] when the slab taken was its last: the
    superslab is [Full] and off [super_available]. *)
Lemma alloc_slab_repositions_witness :
  ∃ slab st',
    alloc_slab (cfg := example_config) (eng := scripted_engine) YesReserve 2
      full_superslab_state = Ret (slab, st') ∧
    get_superslab (cfg := example_config) (eng := scripted_engine) YesReserve
      full_superslab_state = Ret (2 ^ 24, full_superslab_state) ∧
    Superslab_get_status (SlabEngine := scripted_engine) (heap st') (2 ^ 24) = Full ∧
    (2 ^ 24 ∉ super_available st') ∧
    super_available full_superslab_state = [2 ^ 24].
Proof.
  assert (Hrun : ∃ slab st',
    alloc_slab (cfg := example_config) (eng := scripted_engine) YesReserve 2
      full_superslab_state = Ret (slab, st') ∧
    Superslab_get_status (SlabEngine := scripted_engine) (heap st') (2 ^ 24) = Full).
  { eexists _, _. vm_compute. split; reflexivity. }
  destruct Hrun as (slab & st' & Hrun & Hstatus). exists slab, st'.
  split; [exact Hrun|]. split; [reflexivity|]. split; [exact Hstatus|].
  split; [|reflexivity].
  destruct (alloc_slab_repositions (cfg := example_config) (eng := scripted_engine)
              YesReserve 2 full_superslab_state st' slab Hrun)
    as (super & st1 & Hget & Hlisted).
  assert (Hsuper : super = 2 ^ 24).
  { assert (Hhead : get_superslab (cfg := example_config) (eng := scripted_engine)
                      YesReserve full_superslab_state
                    = Ret (2 ^ 24, full_superslab_state)) by reflexivity.
    cbv zeta in Hget.
    change (if Superslab_is_short_sizeclass (SlabEngine := scripted_engine) 2
            then with_super_only_short_available
                   (tl (super_only_short_available full_superslab_state))
                   full_superslab_state
            else full_superslab_state)
      with full_superslab_state in Hget.
    rewrite Hhead in Hget. by injection Hget as <- _. }
  subst super. change (2 ^ 24 =? 0) with false in Hlisted. cbv iota in Hlisted.
  unfold listed_by_status in Hlisted. rewrite Hstatus in Hlisted. exact Hlisted.
Defined.

(** X15 on [posting_state]: the free of an object of allocator [0] fills the
    cache past the threshold and posts. *)
Lemma operations_post_safely_witness :
  (0 < 2 < 64 ∧ 1 < 64 ≤ 2 ^ 64 ∧ Z.log2_up 64 ≤ Z.of_nat 3 * 2) ∧
  cache_invariant (cfg := example_config) (eng := owners_engine) 64 posting_state ∧
  ∃ st',
    dealloc (cfg := example_config) (eng := owners_engine) 3 (2 ^ 24 + 65536 + 96)
      posting_state = Ret (tt, st') ∧
    rc_size (remote st') = 0 ∧
    cache_invariant (cfg := example_config) (eng := owners_engine) 64 st'.
Proof.
  assert (Hinv : cache_invariant (cfg := example_config) (eng := owners_engine) 64
                   posting_state).
  { split; [|split; [|split]].
    - vm_compute. split; [discriminate|reflexivity].
    - exact example_cache_discriminated.
    - exact example_cache_targets.
    - intros r Hr. by apply elem_of_nil in Hr. }
  split; [split; [lia|split; [lia|vm_compute; discriminate]]|]. split; [exact Hinv|].
  assert (Hrun : ∃ st',
    dealloc (cfg := example_config) (eng := owners_engine) 3 (2 ^ 24 + 65536 + 96)
      posting_state = Ret (tt, st') ∧ rc_size (remote st') = 0).
  { eexists. vm_compute. split; reflexivity. }
  destruct Hrun as (st' & Hrun & Hsize). exists st'.
  split; [exact Hrun|]. split; [exact Hsize|].
  assert (Hslots : 0 < REMOTE_SLOT_BITS (Config := example_config) < 64)
    by (vm_compute; split; reflexivity).
  assert (HN : 1 < 64 ≤ 2 ^ 64) by lia.
  assert (Hfuel : Z.log2_up 64 ≤ Z.of_nat 3 * REMOTE_SLOT_BITS (Config := example_config))
    by (vm_compute; discriminate).
  assert (Howners : ∀ (h : Scripted) slab,
            0 ≤ RemoteAllocator_id (SlabEngine := owners_engine)
                  (get_allocator (SlabEngine := owners_engine) h slab) < 64).
  { intros h slab. apply (Z.mod_pos_bound (s_owner h) 64). lia. }
  assert (Hdiffer : ∀ a b,
            RemoteAllocator_id (SlabEngine := owners_engine) a =
            RemoteAllocator_id (SlabEngine := owners_engine) b → a = b).
  { intros a b Hab. exact Hab. }
  destruct (operations_post_safely (cfg := example_config) (eng := owners_engine)
              64 3 Hslots HN Hfuel Howners Hdiffer NoZero YesReserve
              (2 ^ 24 + 65536 + 96) 0)
    as (_ & Hdealloc & _).
  exact (proj2 (Hdealloc posting_state Hinv) tt st' Hrun).
Defined.
